(** * Cursor-Browser: the extraction-and-matching core of the form filler

    A shallow embedding of the pure core of [background.js] (classes
    [AIProcessor], [ConfidenceCalculator], [LearningSystem]) and of
    [FormFiller.buildSearchText] from the content script, with the
    properties the specification states about them.  It is followed by the
    rest of what these files compute without the page or the browser
    ([recordInteraction] and [updateSiteUsage] on the stored data; the
    field categories, the formatting and validation helpers of [fillField];
    the checks of [SecurityManager] and the audit log), with further
    properties read off the code.

    Modelling conventions.
    - A JavaScript string is a [string]; each [ascii] is one code unit in
      the range 0..255 (Latin-1).  [toLowerCase], [trim], [\s], [\d], [\w]
      and case-insensitive matching are the ECMAScript ones restricted to
      that range.
    - A JavaScript number is an exact rational ([Q]); the constants of the
      source (0.4, 0.15, ...) are the decimal fractions they denote.  The
      engine computes in binary64, where each literal and each operation is
      rounded (0.5 + 0.2 - 0.05 + 0.1 is 0.7499999999999999): the exact
      value is the reference the rounded one stays next to, and what is
      stated of the scores is stated as comparisons and bounds.  Where a
      value itself is stated, for the pattern confidence, the binary64
      computation is modelled as well ([Binary64], [Doubles]) and the two
      are related.
    - A plain object used as a dictionary is an association list kept in
      property-creation order; [Obj.entries] lists it as [Object.entries]
      does.  A lookup [table[k]] on an object literal also finds the members
      every object inherits; this is modelled wherever the key comes from
      the input (the label of a text line, the declared type of a field,
      the keys of an extracted object).
    - A regular expression literal is its [source] and [flags]; matching
      is the backtracking semantics of ECMAScript on the parsed source.
    - A call that can throw returns an [Outcome]. *)

From Stdlib Require SpecFloat.
From Stdlib Require Import List String Ascii Bool Arith PeanoNat ZArith QArith Qminmax Lia Lqa.
Import ListNotations.
Open Scope string_scope.
Open Scope nat_scope.

(** ** JavaScript strings *)
Module JS.

Definition code (c : ascii) : nat := nat_of_ascii c.

Definition in_range (lo hi : nat) (c : ascii) : bool :=
  (lo <=? code c) && (code c <=? hi).

Definition is_digit (c : ascii) : bool := in_range 48 57 c.
Definition is_upper (c : ascii) : bool := in_range 65 90 c.
Definition is_lower (c : ascii) : bool := in_range 97 122 c.

(** [\w]: ASCII letters, digits and the underscore. *)
Definition is_word (c : ascii) : bool :=
  is_digit c || is_upper c || is_lower c || (code c =? 95).

(** WhiteSpace and LineTerminator code units below 256: TAB, LF, VT, FF,
    CR, SP and NBSP.  This is both [\s] and what [trim] removes. *)
Definition is_ws (c : ascii) : bool :=
  in_range 9 13 c || (code c =? 32) || (code c =? 160).

Definition is_line_terminator (c : ascii) : bool :=
  (code c =? 10) || (code c =? 13).

(** [String.prototype.toLowerCase] on one Latin-1 code unit. *)
Definition lower_char (c : ascii) : ascii :=
  if is_upper c || (in_range 192 222 c && negb (code c =? 215))
  then ascii_of_nat (code c + 32) else c.

(** Canonicalize of the regular-expression semantics (ignoreCase, no
    unicode flag): the upper-case code unit when it is a single unit of the
    same range.  The upper cases of 181 and 255 lie above 255 and are the
    image of no other Latin-1 unit, so they stand for themselves here. *)
Definition canon_char (c : ascii) : ascii :=
  if is_lower c || (in_range 224 254 c && negb (code c =? 247))
  then ascii_of_nat (code c - 32) else c.

Fixpoint toLowerCase (s : string) : string :=
  match s with
  | EmptyString => EmptyString
  | String c s' => String (lower_char c) (toLowerCase s')
  end.

Fixpoint starts_with (p s : string) : bool :=
  match p, s with
  | EmptyString, _ => true
  | String a p', String b s' => Ascii.eqb a b && starts_with p' s'
  | String _ _, EmptyString => false
  end.

(** [s.includes(p)] *)
Fixpoint includes (s p : string) : bool :=
  starts_with p s ||
  match s with
  | EmptyString => false
  | String _ s' => includes s' p
  end.

Fixpoint all_chars (f : ascii -> bool) (s : string) : bool :=
  match s with
  | EmptyString => true
  | String c s' => f c && all_chars f s'
  end.

Fixpoint filter_chars (f : ascii -> bool) (s : string) : string :=
  match s with
  | EmptyString => EmptyString
  | String c s' => if f c then String c (filter_chars f s') else filter_chars f s'
  end.

Fixpoint trim_start (s : string) : string :=
  match s with
  | EmptyString => EmptyString
  | String c s' => if is_ws c then trim_start s' else s
  end.

(** Drops trailing white space: a unit is kept when it is not white space
    or when something is kept after it. *)
Fixpoint trim_end (s : string) : string :=
  match s with
  | EmptyString => EmptyString
  | String c s' =>
      match trim_end s' with
      | EmptyString => if is_ws c then EmptyString else String c EmptyString
      | t => String c t
      end
  end.

Definition trim (s : string) : string := trim_end (trim_start s).

(** [s.split(sep)] for a one-unit separator: the pieces between the
    separators, one piece (the empty string) for the empty string. *)
Fixpoint split_on (sep : ascii) (s : string) : list string :=
  match s with
  | EmptyString => [EmptyString]
  | String c s' =>
      if Ascii.eqb c sep then EmptyString :: split_on sep s'
      else match split_on sep s' with
           | p :: ps => String c p :: ps
           | [] => [String c EmptyString]
           end
  end.

(** [parts.join(sep)] *)
Fixpoint join (sep : string) (parts : list string) : string :=
  match parts with
  | [] => EmptyString
  | [p] => p
  | p :: ps => p ++ sep ++ join sep ps
  end.

Definition LF : ascii := ascii_of_nat 10.

(** Truthiness of a string value: the empty string is falsy. *)
Definition truthy (s : string) : bool :=
  match s with EmptyString => false | _ => true end.

(** The completion of a call: a value, or a thrown [TypeError]. *)
Inductive Outcome (A : Type) : Type :=
  | Returns (a : A)
  | Throws.

Arguments Returns {A} a.
Arguments Throws {A}.

Definition bind {A B : Type} (c : Outcome A) (k : A -> Outcome B) : Outcome B :=
  match c with
  | Returns a => k a
  | Throws => Throws
  end.

End JS.

Notation "x <- c ;; k" := (JS.bind c (fun x => k))
  (at level 61, c at next level, right associativity).

(** ** Regular expressions *)
Module Regex.
Import JS.

(** One member of a character class. *)
Inductive citem : Type :=
  | CChar (c : ascii)
  | CRange (lo hi : ascii)
  | CDigit (positive : bool)
  | CSpace (positive : bool)
  | CWord (positive : bool).

(** The patterns the parser accepts: one-unit matchers (a literal is the
    class of one unit), sequence, alternation, greedy repetition, capturing
    groups and the assertions [^], [$], [\b], [\B]. *)
Inductive re : Type :=
  | Empty
  | Atom (negated : bool) (items : list citem)
  | Seq (a b : re)
  | Alt (a b : re)
  | Rep (min : nat) (max : option nat) (r : re)
  | Group (idx : nat) (r : re)
  | Bol
  | Eol
  | WordB (positive : bool).

Definition item_has (c : ascii) (it : citem) : bool :=
  match it with
  | CChar a => Ascii.eqb a c
  | CRange lo hi => in_range (code lo) (code hi) c
  | CDigit p => Bool.eqb p (is_digit c)
  | CSpace p => Bool.eqb p (is_ws c)
  | CWord p => Bool.eqb p (is_word c)
  end.

Definition set_has (items : list citem) (c : ascii) : bool :=
  existsb (item_has c) items.

(** CharacterSetMatcher: under ignoreCase a unit matches when the set has a
    member with the same canonical form, that is the unit itself or its
    other case. *)
Definition atom_match (ic negated : bool) (items : list citem) (c : ascii) : bool :=
  xorb negated
    (set_has items c ||
     (ic && (set_has items (canon_char c) || set_has items (lower_char c)))).

Record mstate : Type := mkState {
  prev : option ascii;
  rest : string;
  caps : list (nat * string)
}.

Definition consumed (st st' : mstate) : string :=
  substring 0 (length (rest st) - length (rest st')) (rest st).

Definition set_cap (i : nat) (v : string) (st : mstate) : mstate :=
  mkState (prev st) (rest st) ((i, v) :: caps st).

Fixpoint groups_of (r : re) : list nat :=
  match r with
  | Seq a b | Alt a b => groups_of a ++ groups_of b
  | Rep _ _ a => groups_of a
  | Group i a => i :: groups_of a
  | _ => []
  end.

(** The captures of the groups inside a quantified term are reset at the
    start of each iteration. *)
Definition clear_caps (gs : list nat) (st : mstate) : mstate :=
  mkState (prev st) (rest st)
    (filter (fun p => negb (existsb (Nat.eqb (fst p)) gs)) (caps st)).

Definition is_word_opt (o : option ascii) : bool :=
  match o with Some c => is_word c | None => false end.

Definition next_char (st : mstate) : option ascii :=
  match rest st with String c _ => Some c | EmptyString => None end.

Definition at_word_boundary (st : mstate) : bool :=
  xorb (is_word_opt (prev st)) (is_word_opt (next_char st)).

Definition dec_max (mx : option nat) : option nat :=
  match mx with Some n => Some (Nat.pred n) | None => None end.

Definition max_is_zero (mx : option nat) : bool :=
  match mx with Some O => true | _ => false end.

(** Greedy repetition of a matcher [body], in continuation-passing style.
    [required n] runs the iterations the lower bound still asks for, then
    [optional] runs further ones while the upper bound allows.  An optional
    iteration that consumes nothing is rejected, as RepeatMatcher does, so
    the optional part iterates at most once per remaining unit: [fuel]
    starts at that number and never cuts a match short. *)
Section Repeat.

Variable body : mstate -> (mstate -> option mstate) -> option mstate.
Variable gs : list nat.
Variable k : mstate -> option mstate.

Fixpoint optional (fuel : nat) (mx : option nat) (st : mstate) : option mstate :=
  match fuel with
  | O => k st
  | S fuel' =>
      if max_is_zero mx then k st
      else
        match body (clear_caps gs st)
                (fun st' =>
                   if length (rest st') <? length (rest st)
                   then optional fuel' (dec_max mx) st'
                   else None) with
        | Some x => Some x
        | None => k st
        end
  end.

Fixpoint required (n : nat) (mx : option nat) (st : mstate) : option mstate :=
  match n with
  | O => optional (length (rest st)) mx st
  | S n' =>
      if max_is_zero mx then k st
      else body (clear_caps gs st) (fun st' => required n' (dec_max mx) st')
  end.

End Repeat.

(** The backtracking matcher: [m ic r st k] matches [r] at [st] and hands
    every way of doing so, in priority order, to the continuation [k]
    until [k] succeeds. *)
Fixpoint m (ic : bool) (r : re) (st : mstate) (k : mstate -> option mstate)
  {struct r} : option mstate :=
  match r with
  | Empty => k st
  | Atom neg items =>
      match rest st with
      | String c tl =>
          if atom_match ic neg items c
          then k (mkState (Some c) tl (caps st))
          else None
      | EmptyString => None
      end
  | Seq a b => m ic a st (fun st' => m ic b st' k)
  | Alt a b =>
      match m ic a st k with
      | Some x => Some x
      | None => m ic b st k
      end
  | Group i a => m ic a st (fun st' => k (set_cap i (consumed st st') st'))
  | Bol => match prev st with None => k st | Some _ => None end
  | Eol => match rest st with EmptyString => k st | String _ _ => None end
  | WordB p => if Bool.eqb p (at_word_boundary st) then k st else None
  | Rep mn mx a => required (m ic a) (groups_of a) k mn mx st
  end.

Definition get_cap (cs : list (nat * string)) (i : nat) : option string :=
  match find (fun p => Nat.eqb (fst p) i) cs with
  | Some p => Some (snd p)
  | None => None
  end.

(** The array a successful [exec] returns: [index], the whole match and
    the captures of groups 1..n ([None] is [undefined]). *)
Record MatchResult : Type := mkMatch {
  index : nat;
  whole : string;
  groups : list (option string)
}.

(** [match[i]] *)
Definition capture (mr : MatchResult) (i : nat) : option string :=
  match i with
  | O => Some (whole mr)
  | S j => nth j (groups mr) None
  end.

Definition result_of (ngroups idx : nat) (st st' : mstate) : MatchResult :=
  mkMatch idx (consumed st st')
    (map (fun i => get_cap (caps st') i) (seq 1 ngroups)).

(** Tries every start position from the left; the first that matches wins. *)
Fixpoint search (ic : bool) (r : re) (ngroups : nat)
  (p : option ascii) (s : string) (idx : nat) : option MatchResult :=
  let st := mkState p s [] in
  match m ic r st Some with
  | Some st' => Some (result_of ngroups idx st st')
  | None =>
      match s with
      | String c s' => search ic r ngroups (Some c) s' (S idx)
      | EmptyString => None
      end
  end.

(** *** Parsing the source of a pattern

    The parser covers the syntax the patterns of this program use and
    answers [None] on anything else (lazy quantifiers, look-around,
    back-references, unicode escapes), so no pattern is silently read as
    something it is not. *)

Definition ch (n : nat) : ascii := ascii_of_nat n.
Definition is_char (n : nat) (c : ascii) : bool := code c =? n.

Definition lit (c : ascii) : re := Atom false [CChar c].

(** The dot: any unit but a line terminator. *)
Definition any_char : re := Atom true [CChar (ch 10); CChar (ch 13)].

Definition is_alnum (c : ascii) : bool := is_digit c || is_upper c || is_lower c.

(** The escapes that stand for one member of a class, inside or outside
    brackets: class escapes, control escapes and identity escapes of
    punctuation. *)
Definition escape_item (e : ascii) : option citem :=
  if is_char 100 e then Some (CDigit true)         (* \d *)
  else if is_char 68 e then Some (CDigit false)    (* \D *)
  else if is_char 115 e then Some (CSpace true)    (* \s *)
  else if is_char 83 e then Some (CSpace false)    (* \S *)
  else if is_char 119 e then Some (CWord true)     (* \w *)
  else if is_char 87 e then Some (CWord false)     (* \W *)
  else if is_char 110 e then Some (CChar (ch 10))  (* \n *)
  else if is_char 116 e then Some (CChar (ch 9))   (* \t *)
  else if is_char 114 e then Some (CChar (ch 13))  (* \r *)
  else if is_char 102 e then Some (CChar (ch 12))  (* \f *)
  else if is_char 118 e then Some (CChar (ch 11))  (* \v *)
  else if is_alnum e || is_char 95 e then None
  else Some (CChar e).

Fixpoint parse_nat (acc : nat) (s : string) : nat * string :=
  match s with
  | String c s' =>
      if is_digit c then parse_nat (10 * acc + (code c - 48)) s' else (acc, s)
  | EmptyString => (acc, s)
  end.

Definition starts_with_digit (s : string) : bool :=
  match s with String c _ => is_digit c | EmptyString => false end.

(** The bounds after an opening brace: [{n}], [{n,}] or [{n,m}]. *)
Definition parse_bounds (s : string) : option (nat * option nat * string) :=
  if starts_with_digit s then
    let '(n, s1) := parse_nat 0 s in
    match s1 with
    | String c s2 =>
        if is_char 125 c then Some (n, Some n, s2)
        else if is_char 44 c then
          match s2 with
          | String d s3 =>
              if is_char 125 d then Some (n, None, s3)
              else if is_digit d then
                let '(k, s4) := parse_nat 0 s2 in
                match s4 with
                | String e s5 =>
                    if is_char 125 e && (n <=? k) then Some (n, Some k, s5) else None
                | EmptyString => None
                end
              else None
          | EmptyString => None
          end
        else None
    | EmptyString => None
    end
  else None.

Definition is_lazy_mark (s : string) : bool :=
  match s with String c _ => is_char 63 c | EmptyString => false end.

(** An optional greedy quantifier after an atom. *)
Definition parse_quant (a : re) (s : string) : option (re * string) :=
  match s with
  | String c s' =>
      if is_char 42 c then
        if is_lazy_mark s' then None else Some (Rep 0 None a, s')
      else if is_char 43 c then
        if is_lazy_mark s' then None else Some (Rep 1 None a, s')
      else if is_char 63 c then
        if is_lazy_mark s' then None else Some (Rep 0 (Some 1) a, s')
      else if is_char 123 c then
        match parse_bounds s' with
        | Some (mn, mx, s2) =>
            if is_lazy_mark s2 then None else Some (Rep mn mx a, s2)
        | None => None
        end
      else Some (a, s)
  | EmptyString => Some (a, s)
  end.

(** One class atom: an escape or a plain unit. *)
Definition class_atom (s : string) : option (citem * string) :=
  match s with
  | String c s' =>
      if is_char 92 c then
        match s' with
        | String e s2 =>
            if is_char 98 e then Some (CChar (ch 8), s2)
            else match escape_item e with
                 | Some it => Some (it, s2)
                 | None => None
                 end
        | EmptyString => None
        end
      else Some (CChar c, s')
  | EmptyString => None
  end.

(** The members of a class up to the closing bracket.  A dash between two
    plain units is a range; next to a class escape, or first or last, it is
    a plain dash. *)
Fixpoint class_items (fuel : nat) (s : string) : option (list citem * string) :=
  match fuel with
  | O => None
  | S fuel' =>
      match s with
      | EmptyString => None
      | String c s' =>
          if is_char 93 c then Some ([], s')
          else
            match class_atom s with
            | None => None
            | Some (a, s1) =>
                match s1 with
                | String d (String e s2) =>
                    if is_char 45 d && negb (is_char 93 e) then
                      match class_atom (String e s2) with
                      | None => None
                      | Some (b, s3) =>
                          match a, b with
                          | CChar lo, CChar hi =>
                              if code lo <=? code hi then
                                match class_items fuel' s3 with
                                | Some (its, s4) => Some (CRange lo hi :: its, s4)
                                | None => None
                                end
                              else None
                          | _, _ =>
                              match class_items fuel' s3 with
                              | Some (its, s4) => Some (a :: CChar d :: b :: its, s4)
                              | None => None
                              end
                          end
                      end
                    else
                      match class_items fuel' s1 with
                      | Some (its, s4) => Some (a :: its, s4)
                      | None => None
                      end
                | _ =>
                    match class_items fuel' s1 with
                    | Some (its, s4) => Some (a :: its, s4)
                    | None => None
                    end
                end
            end
      end
  end.

Definition parse_class (s : string) : option (re * string) :=
  match s with
  | String c s' =>
      if is_char 94 c then
        match class_items (length s') s' with
        | Some (its, s2) => Some (Atom true its, s2)
        | None => None
        end
      else
        match class_items (length s) s with
        | Some (its, s2) => Some (Atom false its, s2)
        | None => None
        end
  | EmptyString => None
  end.

(** Characters that cannot stand for themselves outside a class. *)
Definition is_syntax_char (c : ascii) : bool :=
  existsb (fun n => is_char n c) [42; 43; 63; 123; 125; 93; 40; 41; 124; 94; 36; 46; 91; 92].

(** Disjunction, alternative and term.  [g] is the number of capturing
    groups opened so far: groups are numbered by their opening
    parenthesis. *)
Fixpoint parse_disj (fuel : nat) (s : string) (g : nat)
  {struct fuel} : option (re * string * nat) :=
  match fuel with
  | O => None
  | S fuel' =>
      match parse_alt fuel' s g with
      | Some (a, String c s1, g1) =>
          if is_char 124 c then
            match parse_disj fuel' s1 g1 with
            | Some (b, s2, g2) => Some (Alt a b, s2, g2)
            | None => None
            end
          else Some (a, String c s1, g1)
      | other => other
      end
  end
with parse_alt (fuel : nat) (s : string) (g : nat)
  {struct fuel} : option (re * string * nat) :=
  match fuel with
  | O => None
  | S fuel' =>
      match s with
      | EmptyString => Some (Empty, s, g)
      | String c _ =>
          if is_char 124 c || is_char 41 c then Some (Empty, s, g)
          else
            match parse_term fuel' s g with
            | Some (t, s1, g1) =>
                match parse_alt fuel' s1 g1 with
                | Some (r, s2, g2) => Some (Seq t r, s2, g2)
                | None => None
                end
            | None => None
            end
      end
  end
with parse_term (fuel : nat) (s : string) (g : nat)
  {struct fuel} : option (re * string * nat) :=
  match fuel with
  | O => None
  | S fuel' =>
      let quantified (a : re) (s1 : string) (g1 : nat) :=
        match parse_quant a s1 with
        | Some (q, s2) => Some (q, s2, g1)
        | None => None
        end in
      match s with
      | EmptyString => None
      | String c s' =>
          if is_char 94 c then Some (Bol, s', g)
          else if is_char 36 c then Some (Eol, s', g)
          else if is_char 46 c then quantified any_char s' g
          else if is_char 91 c then
            match parse_class s' with
            | Some (a, s1) => quantified a s1 g
            | None => None
            end
          else if is_char 40 c then
            match s' with
            | String q s1 =>
                if is_char 63 q then
                  match s1 with
                  | String col s2 =>
                      if is_char 58 col then
                        match parse_disj fuel' s2 g with
                        | Some (a, String cl s3, g1) =>
                            if is_char 41 cl then quantified a s3 g1 else None
                        | _ => None
                        end
                      else None
                  | EmptyString => None
                  end
                else
                  match parse_disj fuel' s' (S g) with
                  | Some (a, String cl s3, g1) =>
                      if is_char 41 cl then quantified (Group (S g) a) s3 g1 else None
                  | _ => None
                  end
            | EmptyString => None
            end
          else if is_char 92 c then
            match s' with
            | String e s1 =>
                if is_char 98 e then Some (WordB true, s1, g)
                else if is_char 66 e then Some (WordB false, s1, g)
                else match escape_item e with
                     | Some it => quantified (Atom false [it]) s1 g
                     | None => None
                     end
            | EmptyString => None
            end
          else if is_syntax_char c then None
          else quantified (lit c) s' g
      end
  end.

(** The parsed pattern and its number of capturing groups. *)
Definition parse (source : string) : option (re * nat) :=
  match parse_disj (4 * length source + 4) source 0 with
  | Some (r, EmptyString, g) => Some (r, g)
  | _ => None
  end.

(** A regular expression object. *)
Record RegExp : Type := mkRegExp {
  source : string;
  flags : string
}.

Definition ignoreCase (p : RegExp) : bool := includes (flags p) "i".

(** [text.match(p)] for a pattern without the global flag, which is
    [p.exec(text)] from index 0: the match array, or [None] for [null].  A
    source outside the supported syntax matches nothing; every pattern of
    the program is shown to parse ([patterns_parse] below). *)
Definition exec (p : RegExp) (text : string) : option MatchResult :=
  match parse (source p) with
  | Some (r, n) => search (ignoreCase p) r n None text 0
  | None => None
  end.

(** [p.test(text)] *)
Definition test (p : RegExp) (text : string) : bool :=
  match exec p text with Some _ => true | None => false end.

(** [p.toString()] *)
Definition toString (p : RegExp) : string :=
  "/" ++ source p ++ "/" ++ flags p.

(** The white-space units, and a syntactic test that a pattern needs a
    unit that is not white space: it cannot match inside a blank text. *)
Definition ws_units : list ascii := map ch [9; 10; 11; 12; 13; 32; 160].

Fixpoint needs_nonspace (ic : bool) (r : re) : bool :=
  match r with
  | Atom neg items => negb (existsb (atom_match ic neg items) ws_units)
  | Seq a b => needs_nonspace ic a || needs_nonspace ic b
  | Alt a b => needs_nonspace ic a && needs_nonspace ic b
  | Rep mn mx a => (0 <? mn) && negb (max_is_zero mx) && needs_nonspace ic a
  | Group _ a => needs_nonspace ic a
  | Empty | Bol | Eol | WordB _ => false
  end.

(** A state in blank text: only white space remains. *)
Definition blank (st : mstate) : Prop := all_chars is_ws (rest st) = true.

Definition pattern_needs_nonspace (p : RegExp) : bool :=
  match parse (source p) with
  | Some (r, _) => needs_nonspace (ignoreCase p) r
  | None => true
  end.

End Regex.

(** ** Plain objects used as dictionaries *)
Module Obj.
Import JS.

Section Dict.
Context {V : Type}.

(** [o[k]] for an own property. *)
Fixpoint get (o : list (string * V)) (k : string) : option V :=
  match o with
  | [] => None
  | (k', v) :: o' => if String.eqb k' k then Some v else get o' k
  end.

(** [o[k] = v]: an existing property keeps its place, a new one goes last. *)
Fixpoint set (o : list (string * V)) (k : string) (v : V) : list (string * V) :=
  match o with
  | [] => [(k, v)]
  | (k', v') :: o' =>
      if String.eqb k' k then (k, v) :: o' else (k', v') :: set o' k v
  end.

Definition has (o : list (string * V)) (k : string) : bool :=
  match get o k with Some _ => true | None => false end.

Definition keys (o : list (string * V)) : list string := map fst o.

(** An array index is the canonical decimal numeral of an integer below
    2^32 - 1. *)
Definition index_value (k : string) : N := fst (fold_left
  (fun '(acc, _) c => ((10 * acc + N.of_nat (code c - 48))%N, tt))
  (list_ascii_of_string k) (0%N, tt)).

Definition is_array_index (k : string) : bool :=
  match k with
  | EmptyString => false
  | String c EmptyString => is_digit c
  | String c _ =>
      is_digit c && negb (code c =? 48) && all_chars is_digit k &&
      (length k <=? 10) && (index_value k <? 4294967295)%N
  end.

Fixpoint insert_index (e : string * V) (l : list (string * V)) : list (string * V) :=
  match l with
  | [] => [e]
  | e' :: l' =>
      if (index_value (fst e) <=? index_value (fst e'))%N then e :: l
      else e' :: insert_index e l'
  end.

(** [Object.entries(o)]: array-index keys in ascending numeric order, then
    the other keys in creation order. *)
Definition entries (o : list (string * V)) : list (string * V) :=
  (fold_right insert_index [] (filter (fun e => is_array_index (fst e)) o)
   ++ filter (fun e => negb (is_array_index (fst e))) o)%list.

End Dict.

(** The same object with every value rewritten. *)
Definition map_values {V W : Type} (h : V -> W) (o : list (string * V))
  : list (string * W) :=
  map (fun e => (fst e, h (snd e))) o.

(** The names every plain object inherits from [Object.prototype]: a
    lookup of one of them on an object literal finds the inherited member,
    which is truthy. *)
Definition prototype_members : list string :=
  [ "constructor"; "__defineGetter__"; "__defineSetter__"; "hasOwnProperty";
    "__lookupGetter__"; "__lookupSetter__"; "isPrototypeOf";
    "propertyIsEnumerable"; "toString"; "valueOf"; "__proto__";
    "toLocaleString" ].

Definition inherited (k : string) : bool :=
  existsb (String.eqb k) prototype_members.

(** Every key is a name of the object's own: the lookups [o[k]] and
    [table[k]] of the source are then own-property lookups. *)
Definition own_keyed {V : Type} (o : list (string * V)) : bool :=
  forallb (fun k => negb (inherited k)) (keys o).

End Obj.

(** ** The records exchanged between the components *)
Module Data.
Local Open Scope Q_scope.

(** An entry of the extracted object. *)
Record ExtractedValue : Type := mkExtracted {
  value : string;
  confidence : Q;
  pattern : string;
  method : string
}.

Definition Extracted : Type := list (string * ExtractedValue).

(** What the content script sends for one form field (the members the
    matcher reads).  [label], [context] and [searchText] are only tested for
    truthiness, so an absent one is the empty string.  [fieldCategory] is
    the result of [categorizeField] when present. *)
Inductive FieldCategory : Type :=
  | CatEmail | CatPhone | CatName | CatAddress | CatOrganization
  | CatTitle | CatIdentifier | CatDate | CatGeneral.

Record FormField : Type := mkField {
  f_id : string;
  f_name : string;
  f_type : string;
  f_label : string;
  f_context : string;
  f_searchText : string;
  f_fieldCategory : option FieldCategory
}.

(** [{...data, fieldType: dataType, confidence: score}] *)
Record BestMatch : Type := mkBest {
  bm_value : string;
  bm_confidence : Q;
  bm_pattern : string;
  bm_method : string;
  bm_fieldType : string
}.

Record Mapping : Type := mkMapping {
  fieldId : string;
  fieldName : string;
  fieldType : string;
  mappedValue : string;
  mapping_confidence : Q;
  extractedFrom : string
}.

End Data.

(** ** ConfidenceCalculator *)
Module ConfidenceCalculator.
Import JS Regex Data.
Local Open Scope Q_scope.

(** [match[1] && match[1].length > n] *)
Definition group1_longer_than (n : nat) (mt : MatchResult) : bool :=
  match capture mt 1 with
  | Some s => truthy s && (n <? length s)%nat
  | None => false
  end.

(** The sums are exact here; [Doubles.calculatePatternConfidence] is the
    same computation in binary64. *)
Definition calculatePatternConfidence (pattern : RegExp) (mt : MatchResult) : Q :=
  let confidence := 0.5 in
  let confidence :=
    if includes (source pattern) "\d" then confidence + 0.2 else confidence in
  let confidence :=
    if includes (source pattern) "+" then confidence + 0.1 else confidence in
  let confidence :=
    if includes (source pattern) "[A-Z]" then confidence + 0.1 else confidence in
  let confidence :=
    if includes (flags pattern) "i" then confidence - 0.05 else confidence in
  let confidence :=
    if group1_longer_than 3 mt then confidence + 0.1 else confidence in
  let confidence :=
    if group1_longer_than 10 mt then confidence + 0.1 else confidence in
  Qmin confidence 1.0.

(** The mean in exact arithmetic; the engine rounds the sum at each step
    and the quotient (ten times 1.3 gives the mean 1.3000000000000003). *)
Definition calculateOverallConfidence (mappings : list Mapping) : Q :=
  if (List.length mappings =? 0)%nat then 0
  else
    let totalConfidence :=
      fold_left (fun sum mapping => sum + mapping_confidence mapping) mappings 0 in
    totalConfidence / inject_Z (Z.of_nat (List.length mappings)).

End ConfidenceCalculator.

(** ** AIProcessor *)
Module AIProcessor.
Import JS Regex Data.
Local Open Scope Q_scope.

Definition fieldPatterns : list (string * list RegExp) :=
  [ ("principalInvestigator",
      [ mkRegExp "principal\s+investigator[:\s]*([^,\n]+)" "i";
        mkRegExp "pi[:\s]*([^,\n]+)" "i";
        mkRegExp "dr\.?\s+([^,\n]+)" "i";
        mkRegExp "investigator[:\s]*([^,\n]+)" "i";
        mkRegExp "physician[:\s]*([^,\n]+)" "i";
        mkRegExp "doctor[:\s]*([^,\n]+)" "i" ]);
    ("firstName",
      [ mkRegExp "first\s+name[:\s]*([^,\n]+)" "i";
        mkRegExp "fname[:\s]*([^,\n]+)" "i";
        mkRegExp "given\s+name[:\s]*([^,\n]+)" "i" ]);
    ("lastName",
      [ mkRegExp "last\s+name[:\s]*([^,\n]+)" "i";
        mkRegExp "lname[:\s]*([^,\n]+)" "i";
        mkRegExp "surname[:\s]*([^,\n]+)" "i";
        mkRegExp "family\s+name[:\s]*([^,\n]+)" "i" ]);
    ("fullName",
      [ mkRegExp "name[:\s]*([^,\n]+)" "i";
        mkRegExp "contact[:\s]*([^,\n]+)" "i" ]);
    ("phone",
      [ mkRegExp "phone[:\s]*(\(?[\d\s\-\.\(\)]{10,})" "i";
        mkRegExp "tel[:\s]*(\(?[\d\s\-\.\(\)]{10,})" "i";
        mkRegExp "telephone[:\s]*(\(?[\d\s\-\.\(\)]{10,})" "i";
        mkRegExp "mobile[:\s]*(\(?[\d\s\-\.\(\)]{10,})" "i";
        mkRegExp "cell[:\s]*(\(?[\d\s\-\.\(\)]{10,})" "i";
        mkRegExp "(\(\d{3}\)\s*\d{3}-\d{4})" "";
        mkRegExp "(\d{3}[-\.\s]?\d{3}[-\.\s]?\d{4})" "" ]);
    ("email",
      [ mkRegExp "email[:\s]*([a-zA-Z0-9._%+-]+@[a-zA-Z0-9.-]+\.[a-zA-Z]{2,})" "i";
        mkRegExp "mail[:\s]*([a-zA-Z0-9._%+-]+@[a-zA-Z0-9.-]+\.[a-zA-Z]{2,})" "i";
        mkRegExp "e-mail[:\s]*([a-zA-Z0-9._%+-]+@[a-zA-Z0-9.-]+\.[a-zA-Z]{2,})" "i";
        mkRegExp "([a-zA-Z0-9._%+-]+@[a-zA-Z0-9.-]+\.[a-zA-Z]{2,})" "" ]);
    ("fax",
      [ mkRegExp "fax[:\s]*(\(?[\d\s\-\.\(\)]{10,})" "i";
        mkRegExp "facsimile[:\s]*(\(?[\d\s\-\.\(\)]{10,})" "i" ]);
    ("address",
      [ mkRegExp "address[:\s]*([^,\n]+(?:,\s*[^,\n]+)*)" "i";
        mkRegExp "street[:\s]*([^,\n]+(?:,\s*[^,\n]+)*)" "i";
        mkRegExp "location[:\s]*([^,\n]+(?:,\s*[^,\n]+)*)" "i";
        mkRegExp "(\d+\s+[^,\n]+(?:,\s*[^,\n]+)*)" "" ]);
    ("city",
      [ mkRegExp "city[:\s]*([^,\n]+)" "i";
        mkRegExp "town[:\s]*([^,\n]+)" "i";
        mkRegExp ",\s*([A-Za-z\s]+),\s*[A-Z]{2}" "";
        mkRegExp "address[^,\n]*,\s*([^,\n]+)," "i" ]);
    ("state",
      [ mkRegExp "state[:\s]*([A-Z]{2}|[A-Za-z\s]+)" "i";
        mkRegExp "province[:\s]*([A-Z]{2}|[A-Za-z\s]+)" "i";
        mkRegExp ",\s*([A-Z]{2})\s+\d{5}" "";
        mkRegExp ",\s*([A-Za-z\s]+)\s+\d{5}" "" ]);
    ("zipCode",
      [ mkRegExp "zip[:\s]*(\d{5}(?:-\d{4})?)" "i";
        mkRegExp "postal[:\s]*(\d{5}(?:-\d{4})?)" "i";
        mkRegExp "zip\s+code[:\s]*(\d{5}(?:-\d{4})?)" "i";
        mkRegExp "(\d{5}(?:-\d{4})?)" "" ]);
    ("country",
      [ mkRegExp "country[:\s]*([^,\n]+)" "i";
        mkRegExp "nation[:\s]*([^,\n]+)" "i" ]);
    ("institutionName",
      [ mkRegExp "institution[:\s]*([^,\n]+)" "i";
        mkRegExp "hospital[:\s]*([^,\n]+)" "i";
        mkRegExp "center[:\s]*([^,\n]+)" "i";
        mkRegExp "centre[:\s]*([^,\n]+)" "i";
        mkRegExp "clinic[:\s]*([^,\n]+)" "i";
        mkRegExp "university[:\s]*([^,\n]+)" "i";
        mkRegExp "college[:\s]*([^,\n]+)" "i";
        mkRegExp "organization[:\s]*([^,\n]+)" "i";
        mkRegExp "organisation[:\s]*([^,\n]+)" "i";
        mkRegExp "company[:\s]*([^,\n]+)" "i" ]);
    ("department",
      [ mkRegExp "department[:\s]*([^,\n]+)" "i";
        mkRegExp "dept[:\s]*([^,\n]+)" "i";
        mkRegExp "division[:\s]*([^,\n]+)" "i";
        mkRegExp "unit[:\s]*([^,\n]+)" "i";
        mkRegExp "section[:\s]*([^,\n]+)" "i" ]);
    ("irbContact",
      [ mkRegExp "irb[:\s]*([^,\n]+)" "i";
        mkRegExp "institutional\s+review\s+board[:\s]*([^,\n]+)" "i";
        mkRegExp "ethics[:\s]*([^,\n]+)" "i";
        mkRegExp "review\s+board[:\s]*([^,\n]+)" "i" ]);
    ("licenseNumber",
      [ mkRegExp "license[:\s]*([A-Z0-9\-]+)" "i";
        mkRegExp "licence[:\s]*([A-Z0-9\-]+)" "i";
        mkRegExp "license\s+number[:\s]*([A-Z0-9\-]+)" "i";
        mkRegExp "lic[:\s]*([A-Z0-9\-]+)" "i";
        mkRegExp "permit[:\s]*([A-Z0-9\-]+)" "i" ]);
    ("deaNumber",
      [ mkRegExp "dea[:\s]*([A-Z0-9\-]+)" "i";
        mkRegExp "dea\s+number[:\s]*([A-Z0-9\-]+)" "i";
        mkRegExp "drug\s+enforcement[:\s]*([A-Z0-9\-]+)" "i" ]);
    ("taxId",
      [ mkRegExp "tax\s+id[:\s]*([0-9\-]+)" "i";
        mkRegExp "ein[:\s]*([0-9\-]+)" "i";
        mkRegExp "federal\s+id[:\s]*([0-9\-]+)" "i";
        mkRegExp "tax\s+number[:\s]*([0-9\-]+)" "i" ]);
    ("npiNumber",
      [ mkRegExp "npi[:\s]*([0-9]+)" "i";
        mkRegExp "npi\s+number[:\s]*([0-9]+)" "i";
        mkRegExp "national\s+provider[:\s]*([0-9]+)" "i" ]);
    ("coordinator",
      [ mkRegExp "coordinator[:\s]*([^,\n]+)" "i";
        mkRegExp "study\s+coordinator[:\s]*([^,\n]+)" "i";
        mkRegExp "research\s+coordinator[:\s]*([^,\n]+)" "i";
        mkRegExp "clinical\s+coordinator[:\s]*([^,\n]+)" "i";
        mkRegExp "trial\s+coordinator[:\s]*([^,\n]+)" "i" ]);
    ("subInvestigator",
      [ mkRegExp "sub[:\s]*investigator[:\s]*([^,\n]+)" "i";
        mkRegExp "co[:\s]*investigator[:\s]*([^,\n]+)" "i";
        mkRegExp "associate[:\s]*investigator[:\s]*([^,\n]+)" "i";
        mkRegExp "assistant[:\s]*investigator[:\s]*([^,\n]+)" "i" ]);
    ("title",
      [ mkRegExp "title[:\s]*([^,\n]+)" "i";
        mkRegExp "position[:\s]*([^,\n]+)" "i";
        mkRegExp "role[:\s]*([^,\n]+)" "i";
        mkRegExp "designation[:\s]*([^,\n]+)" "i" ]);
    ("website",
      [ mkRegExp "website[:\s]*([^\s\n]+)" "i";
        mkRegExp "url[:\s]*([^\s\n]+)" "i";
        mkRegExp "(https?:\/\/[^\s\n]+)" "i" ]);
    ("specialty",
      [ mkRegExp "specialty[:\s]*([^,\n]+)" "i";
        mkRegExp "specialization[:\s]*([^,\n]+)" "i";
        mkRegExp "focus[:\s]*([^,\n]+)" "i" ]) ].

(** [match[1] ? match[1].trim() : match[0].trim()] *)
Definition matchedValue (mt : MatchResult) : string :=
  match capture mt 1 with
  | Some s => if truthy s then trim s else trim (whole mt)
  | None => trim (whole mt)
  end.

Definition regexEntry (p : RegExp) (mt : MatchResult) : ExtractedValue :=
  {| value := matchedValue mt;
     confidence := ConfidenceCalculator.calculatePatternConfidence p mt;
     pattern := Regex.toString p;
     method := "regex" |}.

(** The inner loop of the first pass: the patterns of one field type in
    order, stopping at the first that matches. *)
Fixpoint firstMatch (text : string) (patterns : list RegExp) : option ExtractedValue :=
  match patterns with
  | [] => None
  | p :: ps =>
      match exec p text with
      | Some mt => Some (regexEntry p mt)
      | None => firstMatch text ps
      end
  end.

(** The first pass over a table of patterns, from a given object. *)
Definition strictPassFrom (table : list (string * list RegExp))
  (text : string) (extracted : Extracted) : Extracted :=
  fold_left
    (fun ex (e : string * list RegExp) =>
       match firstMatch text (snd e) with
       | Some v => Obj.set ex (fst e) v
       | None => ex
       end)
    table extracted.

Definition strictPass (text : string) : Extracted :=
  strictPassFrom fieldPatterns text [].

(** The table [mappings] of [getFieldMapping]. *)
Definition mappings : list (string * string) :=
  [ ("name", "fullName");
    ("full name", "fullName");
    ("contact name", "fullName");
    ("first name", "firstName");
    ("last name", "lastName");
    ("email", "email");
    ("e-mail", "email");
    ("mail", "email");
    ("phone", "phone");
    ("telephone", "phone");
    ("tel", "phone");
    ("mobile", "phone");
    ("cell", "phone");
    ("fax", "fax");
    ("address", "address");
    ("street", "address");
    ("location", "address");
    ("city", "city");
    ("state", "state");
    ("zip", "zipCode");
    ("postal", "zipCode");
    ("country", "country");
    ("institution", "institutionName");
    ("hospital", "institutionName");
    ("organization", "institutionName");
    ("company", "institutionName");
    ("department", "department");
    ("dept", "department");
    ("title", "title");
    ("position", "title");
    ("role", "title");
    ("coordinator", "coordinator");
    ("investigator", "principalInvestigator");
    ("pi", "principalInvestigator");
    ("doctor", "principalInvestigator");
    ("license", "licenseNumber");
    ("dea", "deaNumber");
    ("tax id", "taxId");
    ("ein", "taxId");
    ("npi", "npiNumber");
    ("website", "website");
    ("url", "website");
    ("specialty", "specialty") ].

(** The string form of a member of [Object.prototype], which is what a
    property access with the member as key uses: the prototype object
    itself under "__proto__", the function [Object] under "constructor", and
    otherwise a built-in function of the same name. *)
Definition memberString (key : string) : string :=
  if String.eqb key "__proto__" then "[object Object]"
  else if String.eqb key "constructor" then "function Object() { [native code] }"
  else "function " ++ key ++ "() { [native code] }".

(** [mappings[key] || null], as the property name the caller then uses.
    A key that names an inherited member is no alias, but the lookup finds
    the member, which is truthy, and the caller indexes [extracted] with its
    string form. *)
Definition getFieldMapping (key : string) : option string :=
  match Obj.get mappings key with
  | Some fieldMapping => Some fieldMapping
  | None => if Obj.inherited key then Some (memberString key) else None
  end.

Definition colonPattern : RegExp := mkRegExp "^([^:]+):\s*(.+)$" "".
Definition emailPattern : RegExp :=
  mkRegExp "([a-zA-Z0-9._%+-]+@[a-zA-Z0-9.-]+\.[a-zA-Z]{2,})" "".
Definition phonePattern : RegExp := mkRegExp "(\(?[\d\s\-\.\(\)]{10,})" "".

(** [match[i]] of a group that takes part in every match of its pattern. *)
Definition group (mt : MatchResult) (i : nat) : string :=
  match capture mt i with Some s => s | None => "" end.

Definition flexibleEntry (v : string) (c : Q) (p : string) : ExtractedValue :=
  {| value := v; confidence := c; pattern := p; method := "flexible" |}.

(** The key-value step of the second pass on one line. *)
Definition flexibleColon (line : string) (extracted : Extracted) : Extracted :=
  match exec colonPattern line with
  | Some colonMatch =>
      let key := toLowerCase (trim (group colonMatch 1)) in
      let v := trim (group colonMatch 2) in
      if (0 <? length v)%nat && (length v <? 200)%nat then
        match getFieldMapping key with
        | Some fieldMapping =>
            if negb (Obj.has extracted fieldMapping)
            then Obj.set extracted fieldMapping (flexibleEntry v 0.7 "flexible_colon")
            else extracted
        | None => extracted
        end
      else extracted
  | None => extracted
  end.

Definition flexibleEmail (line : string) (extracted : Extracted) : Extracted :=
  if negb (Obj.has extracted "email") then
    match exec emailPattern line with
    | Some emailMatch =>
        Obj.set extracted "email"
          (flexibleEntry (group emailMatch 1) 0.9 "standalone_email")
    | None => extracted
    end
  else extracted.

(** [phoneMatch[1].replace(/\D/g, '')] keeps the digits. *)
Definition flexiblePhone (line : string) (extracted : Extracted) : Extracted :=
  if negb (Obj.has extracted "phone") then
    match exec phonePattern line with
    | Some phoneMatch =>
        if (10 <=? length (filter_chars is_digit (group phoneMatch 1)))%nat
        then Obj.set extracted "phone"
               (flexibleEntry (group phoneMatch 1) 0.8 "standalone_phone")
        else extracted
    | None => extracted
    end
  else extracted.

Definition flexibleLine (extracted : Extracted) (line : string) : Extracted :=
  flexiblePhone line (flexibleEmail line (flexibleColon line extracted)).

(** [text.split('\n').map(line => line.trim()).filter(line => line.length > 0)] *)
Definition nonEmptyLines (text : string) : list string :=
  filter (fun line => (0 <? length line)%nat) (map trim (split_on LF text)).

(** The second pass; the object it mutates is threaded through. *)
Definition extractFlexiblePatterns (text : string) (extracted : Extracted) : Extracted :=
  fold_left flexibleLine (nonEmptyLines text) extracted.

Definition extractStructuredData (unstructuredData : string) : Extracted :=
  extractFlexiblePatterns unstructuredData (strictPass unstructuredData).

(** Every key an extracted object can have: the field types of the
    pattern library, the targets of the alias table, the string forms of
    the inherited members, and "email" and "phone". *)
Definition knownKeys : list string :=
  (Obj.keys fieldPatterns ++ map snd mappings ++
   map memberString Obj.prototype_members ++ ["email"; "phone"])%list.

(** *** Matching *)

Definition categoryMappings (c : FieldCategory) : list string :=
  match c with
  | CatEmail => ["email"]
  | CatPhone => ["phone"; "fax"]
  | CatName => ["firstName"; "lastName"; "fullName"; "principalInvestigator"]
  | CatAddress => ["address"; "city"; "state"; "zipCode"; "country"]
  | CatOrganization => ["institutionName"; "department"]
  | CatTitle => ["title"; "specialty"]
  | CatIdentifier => ["licenseNumber"; "deaNumber"; "taxId"; "npiNumber"]
  | CatDate | CatGeneral => []
  end.

Definition categoryMatches (fieldCategory : FieldCategory) (dataType : string) : bool :=
  existsb (String.eqb dataType) (categoryMappings fieldCategory).

Definition compatibility : list (string * list (string * Q)) :=
  [ ("email", [("email", 1.0); ("fullName", 0.3)]);
    ("tel", [("phone", 1.0); ("fax", 0.9); ("npiNumber", 0.7); ("licenseNumber", 0.6)]);
    ("text", [("*", 0.9)]);
    ("textarea", [("address", 1.0); ("specialty", 0.9); ("*", 0.7)]);
    ("number", [("zipCode", 1.0); ("npiNumber", 0.9); ("licenseNumber", 0.8);
                ("taxId", 0.8); ("deaNumber", 0.7)]);
    ("url", [("website", 1.0); ("email", 0.3)]);
    ("date", [("*", 0.2)]);
    ("input", [("*", 0.8)]) ].

(** [compatibility[formFieldType]]: a row of the table, or, for a name
    every object inherits, the inherited member.  That member is truthy,
    so the "input" row is not used for it, and it is a function or an
    object with properties of its own ([compatibility.constructor.length]
    is 1): it stands here as an empty row, which is exact for a data type
    that names no property of the member.  The declared types a form
    control can have ([HTMLInputElement.type], "textarea", "select-one",
    "select-multiple") are not among the inherited names, and what is
    stated of the factor is stated for declared types outside them. *)
Definition compatibilityRow (formFieldType : string) : option (list (string * Q)) :=
  match Obj.get compatibility formFieldType with
  | Some row => Some row
  | None => if Obj.inherited formFieldType then Some [] else None
  end.

(** [dataType] is a key of an extracted object, so [fieldCompat[dataType]]
    reads an own property of the row or nothing. *)
Definition getTypeCompatibility (formFieldType dataType : string) : Q :=
  let fieldCompat :=
    match compatibilityRow formFieldType with
    | Some row => Some row
    | None => compatibilityRow "input"
    end in
  match fieldCompat with
  | None => 0.6
  | Some row =>
      match Obj.get row dataType with
      | Some q => q
      | None =>
          match Obj.get row "*" with
          | Some q => q
          | None => 0.4
          end
      end
  end.

Definition keywords : list (string * list string) :=
  [ ("principalInvestigator",
      ["investigator"; "pi"; "principal"; "doctor"; "dr"; "physician"; "md"; "phd"]);
    ("firstName",
      ["first"; "fname"; "given"; "forename"]);
    ("lastName",
      ["last"; "lname"; "surname"; "family"; "lastname"]);
    ("fullName",
      ["name"; "fullname"; "contact"; "person"; "individual"]);
    ("phone",
      ["phone"; "tel"; "telephone"; "contact"; "mobile"; "cell"; "number"]);
    ("email",
      ["email"; "mail"; "contact"; "@"]);
    ("fax",
      ["fax"; "facsimile"]);
    ("address",
      ["address"; "street"; "location"; "addr"; "avenue"; "road"; "drive"; "lane"]);
    ("city",
      ["city"; "town"; "municipality"]);
    ("state",
      ["state"; "province"; "region"]);
    ("zipCode",
      ["zip"; "postal"; "code"; "postcode"]);
    ("country",
      ["country"; "nation"]);
    ("institutionName",
      ["institution"; "hospital"; "center"; "clinic"; "organization"; "org"; "company"; "university"; "college"]);
    ("department",
      ["department"; "dept"; "division"; "unit"; "section"]);
    ("coordinator",
      ["coordinator"; "manager"; "admin"; "assistant"]);
    ("licenseNumber",
      ["license"; "licence"; "lic"; "permit"; "certification"; "cert"]);
    ("deaNumber",
      ["dea"; "drug"; "enforcement"]);
    ("taxId",
      ["tax"; "ein"; "federal"; "employer"]);
    ("npiNumber",
      ["npi"; "provider"; "national"]);
    ("title",
      ["title"; "position"; "role"; "job"; "designation"]);
    ("specialty",
      ["specialty"; "specialization"; "focus"; "area"]);
    ("website",
      ["website"; "url"; "site"; "web"; "http"]);
    ("irbContact",
      ["irb"; "review"; "board"; "ethics"; "committee"]);
    ("subInvestigator",
      ["sub"; "co"; "associate"; "assistant"; "secondary"]) ].

Definition abbreviations : list (string * list string) :=
  [ ("firstName",
      ["fn"; "f_name"; "firstname"]);
    ("lastName",
      ["ln"; "l_name"; "lastname"]);
    ("email",
      ["e_mail"; "email_address"; "mail_address"]);
    ("phone",
      ["ph"; "tel_no"; "phone_no"; "contact_no"]);
    ("address",
      ["addr"; "address_1"; "address1"; "street_addr"]);
    ("zipCode",
      ["zip_code"; "postal_code"; "postcode"]);
    ("institutionName",
      ["inst"; "hosp"; "org_name"; "company_name"]) ].

(** The list a loop [for (const x of table[dataType] || [])] runs over.
    For a name the table inherits, the lookup finds a function or an object
    that is not iterable, and the loop throws. *)
Definition listFor (table : list (string * list string)) (dataType : string)
  : Outcome (list string) :=
  match Obj.get table dataType with
  | Some l => Returns l
  | None => if Obj.inherited dataType then Throws else Returns []
  end.

(** [new RegExp(`\\b${keyword}\\b`, 'i')] *)
Definition wordRegex (keyword : string) : RegExp :=
  mkRegExp ("\b" ++ keyword ++ "\b") "i".

Definition keywordScore (fieldText : string) (score : Q) (keyword : string) : Q :=
  if includes fieldText keyword then
    let score := score + 0.4 in
    if Regex.test (wordRegex keyword) fieldText then score + 0.2 else score
  else score.

Definition abbrevScore (fieldText : string) (score : Q) (abbrev : string) : Q :=
  if includes fieldText abbrev then score + 0.3 else score.

(** The score in exact arithmetic: the engine rounds each sum and product
    to a double, so its score can differ from this one in the last digits
    (and two scores that are equal here can differ there). *)
Definition calculateFieldMatchScore (fieldText dataType fieldType : string)
  (fieldCategory : FieldCategory) : Outcome Q :=
  dataKeywords <- listFor keywords dataType ;;
  let score := fold_left (keywordScore fieldText) dataKeywords 0 in
  let score :=
    if includes fieldText (toLowerCase dataType) then score + 0.6 else score in
  abbrevs <- listFor abbreviations dataType ;;
  let score := fold_left (abbrevScore fieldText) abbrevs score in
  let typeCompatibility := getTypeCompatibility fieldType dataType in
  let score := score * typeCompatibility in
  let score :=
    if categoryMatches fieldCategory dataType then score + 0.2 else score in
  Returns (Qmin score 1.0).

Definition fieldCategoryOf (formField : FormField) : FieldCategory :=
  match f_fieldCategory formField with Some c => c | None => CatGeneral end.

(** The text all the keyword tests run on. *)
Definition fieldTextOf (formField : FormField) : string :=
  toLowerCase (f_name formField) ++ " " ++ toLowerCase (f_id formField) ++ " " ++
  toLowerCase (f_label formField) ++ " " ++ toLowerCase (f_context formField) ++ " " ++
  f_searchText formField.

(** The score [findBestMatch] compares for one data type: the result of
    [calculateFieldMatchScore] and then the category boost. *)
Definition boostedScore (formField : FormField) (dataType : string) : Outcome Q :=
  score <- calculateFieldMatchScore (fieldTextOf formField) dataType
             (f_type formField) (fieldCategoryOf formField) ;;
  Returns (if categoryMatches (fieldCategoryOf formField) dataType
           then score + 0.3 else score).

Definition Qgtb (a b : Q) : bool := negb (Qle_bool a b).

Definition spread (data : ExtractedValue) (dataType : string) (score : Q) : BestMatch :=
  {| bm_value := value data;
     bm_confidence := score;
     bm_pattern := pattern data;
     bm_method := method data;
     bm_fieldType := dataType |}.

(** The test and the update of the loop of [findBestMatch], on
    [(bestMatch, highestScore)]. *)
Definition keepBest (acc : option BestMatch * Q) (e : string * ExtractedValue)
  (score : Q) : option BestMatch * Q :=
  if Qgtb score (snd acc) && Qgtb score 0.15
  then (Some (spread (snd e) (fst e) score), score)
  else acc.

(** One turn of the loop. *)
Definition bestStep (formField : FormField) (acc : Outcome (option BestMatch * Q))
  (e : string * ExtractedValue) : Outcome (option BestMatch * Q) :=
  a <- acc ;;
  score <- boostedScore formField (fst e) ;;
  Returns (keepBest a e score).

Definition findBestMatch (formField : FormField) (extractedData : Extracted)
  : Outcome (option BestMatch) :=
  r <- fold_left (bestStep formField) (Obj.entries extractedData) (Returns (None, 0)) ;;
  Returns (fst r).

Definition mappingOf (field : FormField) (bestMatch : BestMatch) : Mapping :=
  {| fieldId := f_id field;
     fieldName := f_name field;
     fieldType := f_type field;
     mappedValue := bm_value bestMatch;
     mapping_confidence := bm_confidence bestMatch;
     extractedFrom := bm_fieldType bestMatch |}.

Definition pushMapping (field : FormField) (bestMatch : option BestMatch)
  (mappings : list Mapping) : list Mapping :=
  match bestMatch with
  | Some b => mappingOf field b :: mappings
  | None => mappings
  end.

Fixpoint generateFieldMappings (formFields : list FormField)
  (extractedData : Extracted) : Outcome (list Mapping) :=
  match formFields with
  | [] => Returns []
  | field :: fields' =>
      bestMatch <- findBestMatch field extractedData ;;
      mappings <- generateFieldMappings fields' extractedData ;;
      Returns (pushMapping field bestMatch mappings)
  end.

(** What [processFormData] returns. *)
Record Processed : Type := mkProcessed {
  p_extractedData : Extracted;
  p_mappings : list Mapping;
  p_confidence : Q
}.

Definition processFormData (fields : list FormField) (data : string) : Outcome Processed :=
  let extracted := extractStructuredData data in
  ms <- generateFieldMappings fields extracted ;;
  Returns (mkProcessed extracted ms (ConfidenceCalculator.calculateOverallConfidence ms)).

End AIProcessor.

(** ** LearningSystem *)
Module LearningSystem.
Import JS.

(** A recorded [actualValue]: the code only asks whether it is a string. *)
Inductive JSValue : Type :=
  | JString (s : string)
  | JOther.

Record CommonPattern : Type := mkPattern {
  type : string;
  pattern : string;
  frequency : nat
}.

(** [siteData.patterns[fieldId]] *)
Record FieldPatterns : Type := mkFieldPatterns {
  successfulValues : list JSValue;
  commonPatterns : list CommonPattern
}.

(** [counts[k] = (counts[k] || 0) + 1] *)
Definition bump (counts : list (string * nat)) (k : string) : list (string * nat) :=
  Obj.set counts k (match Obj.get counts k with Some n => S n | None => 1 end).

(** The body of [values.forEach] on the pair [(prefixes, suffixes)]. *)
Definition countValue (acc : list (string * nat) * list (string * nat)) (v : JSValue)
  : list (string * nat) * list (string * nat) :=
  match v with
  | JString s =>
      if 3 <? length s then
        let prefix := substring 0 3 s in
        let suffix := substring (length s - 3) 3 s in
        (bump (fst acc) prefix, bump (snd acc) suffix)
      else acc
  | JOther => acc
  end.

Definition prefixCounts (values : list JSValue) : list (string * nat) :=
  fst (fold_left countValue values ([], [])).

Definition suffixCounts (values : list JSValue) : list (string * nat) :=
  snd (fold_left countValue values ([], [])).

(** Only the entries of [prefixes] are pushed; [suffixes] is filled and
    never read. *)
Definition extractCommonPatterns (values : list JSValue) : list CommonPattern :=
  flat_map
    (fun e : string * nat =>
       if 2 <=? snd e then [mkPattern "prefix" (fst e) (snd e)] else [])
    (Obj.entries (prefixCounts values)).

(** [updateSuccessPatterns(siteData, interaction)] on [siteData.patterns]. *)
Definition updateSuccessPatterns (patterns : list (string * FieldPatterns))
  (fieldId : string) (actualValue : JSValue) : list (string * FieldPatterns) :=
  let current :=
    match Obj.get patterns fieldId with
    | Some fp => fp
    | None => mkFieldPatterns [] []
    end in
  let values := (successfulValues current ++ [actualValue])%list in
  let common :=
    if 3 <=? List.length values then extractCommonPatterns values
    else commonPatterns current in
  Obj.set patterns fieldId (mkFieldPatterns values common).

End LearningSystem.

(** ** FormFiller (content script) *)
Module FormFiller.
Import JS.

(** The members of a DOM element the field analysis reads.  An absent
    string member is the empty string; [attributes] holds the content
    attributes [getAttribute] looks up. *)
Record Element : Type := mkElement {
  name : string;
  id : string;
  placeholder : string;
  className : string;
  type : string;
  value : string;
  attributes : list (string * string)
}.

(** [element.getAttribute(a) || ''] *)
Definition getAttribute (element : Element) (a : string) : string :=
  match Obj.get (attributes element) a with Some v => v | None => "" end.

(** [.replace(/[^a-z0-9\s]/g, ' ')] on one unit. *)
Definition strip_char (c : ascii) : ascii :=
  if is_lower c || is_digit c || is_ws c then c else " "%char.

Fixpoint map_chars (f : ascii -> ascii) (s : string) : string :=
  match s with
  | EmptyString => EmptyString
  | String c s' => String (f c) (map_chars f s')
  end.

(** [.replace(/\s+/g, ' ')]: every maximal run of white space becomes one
    space (a white-space unit followed by another is dropped, the last of a
    run becomes the space). *)
Fixpoint collapse_ws (s : string) : string :=
  match s with
  | EmptyString => EmptyString
  | String c s' =>
      if is_ws c then
        match s' with
        | String d _ => if is_ws d then collapse_ws s' else String " " (collapse_ws s')
        | EmptyString => String " " EmptyString
        end
      else String c (collapse_ws s')
  end.

Definition searchParts (element : Element) (label context : string) : list string :=
  [ name element; id element; placeholder element; label; context;
    className element; getAttribute element "data-label";
    getAttribute element "aria-label"; getAttribute element "title" ].

Definition normalize (s : string) : string :=
  trim (collapse_ws (map_chars strip_char (toLowerCase s))).

Definition buildSearchText (element : Element) (label context : string) : string :=
  normalize
    (join " "
       (filter (fun part => truthy part && (0 <? length (trim part)))
          (searchParts element label context))).

End FormFiller.

(** ** Sample inputs *)
Module Examples.
Import JS Regex Data AIProcessor LearningSystem.
Local Open Scope Q_scope.

Definition nl : string := String LF "".

(** A profile: three labelled lines and a fax line without a number. *)
Definition profileText : string :=
  "Principal Investigator: Dr. Jane Smith" ++ nl ++
  "Email: jane@hosp.org" ++ nl ++
  "Phone: (555) 123-4567" ++ nl ++
  "Fax: n/a".

Definition blankText : string :=
  String " " (String LF (String (ch 9) (String " " nl))).

Definition emailPattern1 : RegExp :=
  mkRegExp "email[:\s]*([a-zA-Z0-9._%+-]+@[a-zA-Z0-9.-]+\.[a-zA-Z]{2,})" "i".

Definition emailMatch : MatchResult :=
  mkMatch 39 "Email: jane@hosp.org" [Some "jane@hosp.org"].

(** What [createFieldInfo] builds for [<input type="email" name="email" id="email">]. *)
Definition emailField : FormField :=
  mkField "email" "email" "email" "" "" "email email" (Some CatEmail).

(** A date field, [<input type="date" name="dob" id="dob">]. *)
Definition dobField : FormField :=
  mkField "dob" "dob" "date" "" "" "dob dob" (Some CatDate).

(** A drop-down, whose [type] is "select-one". *)
Definition selectField : FormField :=
  mkField "country" "country" "select-one" "" "" "country country" (Some CatAddress).

Definition emailEntry : ExtractedValue :=
  mkExtracted "jane@hosp.org" 0.75 (Regex.toString emailPattern1) "regex".

Definition emailOnly : Extracted := [("email", emailEntry)].

Definition acceptedValues : list JSValue :=
  [JString "xxxabc"; JString "yyyabc"; JString "zzzabc"].

(** Two inputs with the same identifying metadata; the second has been
    typed into and carries other attributes. *)
Definition emailInput : FormFiller.Element :=
  FormFiller.mkElement "email" "contact" "" "field" "email" ""
    [("aria-label", "work")].

Definition emailInputTyped : FormFiller.Element :=
  FormFiller.mkElement "email" "contact" "" "field" "text" "jane@hosp.org"
    [("autocomplete", "email"); ("aria-label", "work"); ("data-row", "3")].

End Examples.

(** ** Vocabulary of the statements *)
Module Shape.
Import JS Data AIProcessor LearningSystem.

(** The units of a normalized search text: lower-case ASCII letters,
    digits and the space. *)
Definition is_alnum_lower (c : ascii) : bool := is_lower c || is_digit c.
Definition is_clean (c : ascii) : bool := is_alnum_lower c || Ascii.eqb c " ".

(** No two adjacent white-space units. *)
Fixpoint single_spaced (s : string) : bool :=
  match s with
  | EmptyString => true
  | String a t =>
      match t with
      | String b _ => negb (is_ws a && is_ws b)
      | EmptyString => true
      end && single_spaced t
  end.

Definition starts_ws (s : string) : bool :=
  match s with String c _ => is_ws c | EmptyString => false end.

Fixpoint ends_ws (s : string) : bool :=
  match s with
  | EmptyString => false
  | String c EmptyString => is_ws c
  | String _ t => ends_ws t
  end.

Definition normal_form (s : string) : bool :=
  all_chars is_clean s && single_spaced s && negb (starts_ws s) && negb (ends_ws s).

(** A word of lower-case letters and digits. *)
Definition is_token (s : string) : bool := truthy s && all_chars is_alnum_lower s.

(** A part of the search text that is absent or already a word. *)
Definition blank_or_token (s : string) : bool :=
  match s with EmptyString => true | _ => is_token s end.

(** The units left after the replacement of the other ones by a space. *)
Definition alnum_or_ws (c : ascii) : bool := is_alnum_lower c || is_ws c.

(** [ex'] is [ex] with entries added by the flexible pass: the keys stay
    distinct, every entry of [ex] is kept, and every other entry is marked
    "flexible" and sits under a key absent from [ex]. *)
Definition extends (ex ex' : Extracted) : Prop :=
  NoDup (Obj.keys ex) ->
  NoDup (Obj.keys ex') /\
  (forall k v, Obj.get ex k = Some v -> Obj.get ex' k = Some v) /\
  (forall k v, Obj.get ex' k = Some v ->
     Obj.get ex k = Some v \/ (Obj.get ex k = None /\ method v = "flexible")).

Local Open Scope Q_scope.

(** The score of a data type for a field, when the scoring returns. *)
Definition scoreOf (formField : FormField) (dataType : string) : Q :=
  match boostedScore formField dataType with
  | Returns score => score
  | Throws => 0
  end.

(** The loop of [findBestMatch] when every turn returns. *)
Definition chooseStep (formField : FormField) (acc : option BestMatch * Q)
  (e : string * ExtractedValue) : option BestMatch * Q :=
  keepBest acc e (scoreOf formField (fst e)).

(** What the loop holds after some entries: nothing yet and a zero
    high-water mark, or the spread of an entry seen, scored above the
    threshold, with the high-water mark at its score. *)
Definition chosen_from (formField : FormField) (seen : Extracted)
  (acc : option BestMatch * Q) : Prop :=
  match fst acc with
  | None => snd acc = 0 /\ forall e, In e seen -> scoreOf formField (fst e) <= 0.15
  | Some b =>
      snd acc = bm_confidence b /\
      0.15 < bm_confidence b /\
      (exists data, In (bm_fieldType b, data) seen /\
                    b = spread data (bm_fieldType b) (scoreOf formField (bm_fieldType b))) /\
      (exists e, In e seen /\ 0.15 < scoreOf formField (fst e))
  end.

(** The first and the last 3 units of a string. *)
Definition prefixOf (s : string) : string := substring 0 3 s.
Definition suffixOf (s : string) : string := substring (length s - 3) 3 s.

(** [v] is a string longer than 3 units whose window is [k]. *)
Definition counted (window : string -> string) (k : string) (v : JSValue) : bool :=
  match v with
  | JString s => (3 <? length s)%nat && String.eqb (window s) k
  | JOther => false
  end.

(** The number of recorded values counted for [k]. *)
Definition occurrences (window : string -> string) (k : string)
  (values : list JSValue) : nat :=
  List.length (filter (counted window k) values).

(** A tally holds [n] for [k]: no property for zero, otherwise the count. *)
Definition holds (o : list (string * nat)) (k : string) (n : nat) : Prop :=
  Obj.get o k = match n with O => None | S _ => Some n end.

(** [q] when [b] is true, else nothing. *)
Definition bonus (b : bool) (q : Q) : Q := if b then q else 0.

(** The sum of the confidences of a list of mappings. *)
Definition total (mappings : list Mapping) : Q :=
  fold_right (fun mapping sum => mapping_confidence mapping + sum) 0 mappings.

End Shape.

(** ** Further vocabulary *)
Module Terms.
Import JS Regex Data AIProcessor Shape.
Local Open Scope Q_scope.

(** [v] occurs in [t] as a run of consecutive units. *)
Definition infix (v t : string) : Prop := exists a b, t = a ++ v ++ b.

(** [s] is what is left of [t] after some units. *)
Definition tail_of (s t : string) : Prop := exists a, t = a ++ s.

(** A matcher state inside the text [t]: what remains is a tail of [t] and
    every capture occurs in [t]. *)
Definition inside (t : string) (st : mstate) : Prop :=
  tail_of (rest st) t /\ forall i v, In (i, v) (caps st) -> infix v t.

(** No white space at either end. *)
Definition trimmed (s : string) : bool :=
  negb (Shape.starts_ws s) && negb (Shape.ends_ws s).

(** [l] is [l'] with some elements left out. *)
Inductive Subsequence {A : Type} : list A -> list A -> Prop :=
  | sub_nil : Subsequence [] []
  | sub_skip x l l' : Subsequence l l' -> Subsequence l (x :: l')
  | sub_keep x l l' : Subsequence l l' -> Subsequence (x :: l) (x :: l').

(** What in the text of a field speaks for a data type: one of its
    keywords, its own name in lower case, or one of its abbreviations. *)
Definition listOf (table : list (string * list string)) (dataType : string) : list string :=
  match Obj.get table dataType with Some l => l | None => [] end.

Definition evidence (fieldText dataType : string) : bool :=
  existsb (includes fieldText) (listOf keywords dataType) ||
  includes fieldText (toLowerCase dataType) ||
  existsb (includes fieldText) (listOf abbreviations dataType).

(** The state of the search for the best entry after the entries [seen]:
    nothing above the threshold so far, or the first of the best seen. *)
Definition leading (formField : FormField) (seen : Extracted)
  (acc : option BestMatch * Q) : Prop :=
  match fst acc with
  | None => snd acc = 0 /\ forall e, In e seen -> scoreOf formField (fst e) <= 0.15
  | Some b =>
      snd acc = bm_confidence b /\
      0.15 < bm_confidence b /\
      exists pre data post,
        seen = (pre ++ (bm_fieldType b, data) :: post)%list /\
        b = spread data (bm_fieldType b) (scoreOf formField (bm_fieldType b)) /\
        (forall e, In e pre -> scoreOf formField (fst e) < bm_confidence b) /\
        (forall e, In e post -> scoreOf formField (fst e) <= bm_confidence b)
  end.

End Terms.
(** ** LearningSystem: recording interactions *)
Module Recorder.
Import JS LearningSystem.
Local Open Scope Q_scope.

(** The argument of [recordInteraction].  [wasCorrect] is the truthiness
    of the member, which is all the code asks of it; an absent or zero
    [confidence] is recorded as 0. *)
Record Interaction : Type := mkInteraction {
  siteId : string;
  fieldId : string;
  predictedValue : JSValue;
  actualValue : JSValue;
  wasCorrect : bool;
  userFeedback : JSValue;
  confidence : option Q
}.

(** The record that is stored.  [id] and [timestamp] come from the clock
    and the random generator and are inputs here. *)
Record InteractionRecord : Type := mkRecord {
  r_id : string;
  r_timestamp : string;
  r_siteId : string;
  r_fieldId : string;
  r_predictedValue : JSValue;
  r_actualValue : JSValue;
  r_wasCorrect : bool;
  r_userFeedback : JSValue;
  r_confidence : Q
}.

(** [learningData[siteId]] *)
Record SiteData : Type := mkSiteData {
  interactions : list InteractionRecord;
  patterns : list (string * FieldPatterns);
  accuracy : Q
}.

Definition LearningData : Type := list (string * SiteData).

Definition recordOf (id timestamp : string) (interaction : Interaction)
  : InteractionRecord :=
  {| r_id := id;
     r_timestamp := timestamp;
     r_siteId := siteId interaction;
     r_fieldId := fieldId interaction;
     r_predictedValue := predictedValue interaction;
     r_actualValue := actualValue interaction;
     r_wasCorrect := wasCorrect interaction;
     r_userFeedback := userFeedback interaction;
     r_confidence := match confidence interaction with Some q => q | None => 0 end |}.

Definition calculateSiteAccuracy (interactions : list InteractionRecord) : Q :=
  if (List.length interactions =? 0)%nat then 0
  else
    let correctInteractions := List.length (filter r_wasCorrect interactions) in
    inject_Z (Z.of_nat correctInteractions) /
    inject_Z (Z.of_nat (List.length interactions)).

(** [learningData[siteId]] after [if (!learningData[siteId]) { ... }]: the
    own entry, a fresh one, or, for a name every object inherits, the
    inherited member, which has no [interactions] to push to. *)
Definition siteEntry (learningData : LearningData) (siteId : string)
  : Outcome SiteData :=
  match Obj.get learningData siteId with
  | Some siteData => Returns siteData
  | None => if Obj.inherited siteId then Throws else Returns (mkSiteData [] [] 0)
  end.

(** [updateSuccessPatterns] with the failure of the source: under a field
    name every object inherits, [siteData.patterns[fieldId]] is the inherited
    member and its [successfulValues] is undefined. *)
Definition updatePatterns (patterns : list (string * FieldPatterns))
  (fieldId : string) (actualValue : JSValue)
  : Outcome (list (string * FieldPatterns)) :=
  match Obj.get patterns fieldId with
  | None =>
      if Obj.inherited fieldId then Throws
      else Returns (updateSuccessPatterns patterns fieldId actualValue)
  | Some _ => Returns (updateSuccessPatterns patterns fieldId actualValue)
  end.

(** The state [recordInteraction] works on: the list kept in memory and
    the object kept in storage. *)
Record State : Type := mkState {
  memory : list InteractionRecord;
  learningData : LearningData
}.

(** The record is pushed to the list in memory first; the storage is
    written last, so a failure in between leaves it as it was. *)
Definition recordInteraction (id timestamp : string) (interaction : Interaction)
  (st : State) : State * Outcome unit :=
  let interactionRecord := recordOf id timestamp interaction in
  let memory' := (memory st ++ [interactionRecord])%list in
  let stored :=
    siteData <- siteEntry (learningData st) (siteId interaction) ;;
    let interactions' := (interactions siteData ++ [interactionRecord])%list in
    let accuracy' := calculateSiteAccuracy interactions' in
    patterns' <-
      (if wasCorrect interaction
       then updatePatterns (patterns siteData) (fieldId interaction)
              (actualValue interaction)
       else Returns (patterns siteData)) ;;
    Returns (Obj.set (learningData st) (siteId interaction)
               (mkSiteData interactions' patterns' accuracy')) in
  match stored with
  | Returns learningData' => (mkState memory' learningData', Returns tt)
  | Throws => (mkState memory' (learningData st), Throws)
  end.

End Recorder.

(** ** BackgroundService *)
Module BackgroundService.
Import JS.

(** A stored site: the members [updateSiteUsage] reads and writes, and the
    rest of the object. *)
Record Site : Type := mkSite {
  id : string;
  usageCount : option nat;
  lastUsed : option string;
  others : list (string * string)
}.

(** [(site.usageCount || 0) + 1] and the time of the call. *)
Definition used (now : string) (site : Site) : Site :=
  {| id := id site;
     usageCount := Some (match usageCount site with Some n => n | None => 0 end + 1)%nat;
     lastUsed := Some now;
     others := others site |}.

(** [sites.findIndex(site => site.id === siteId)] and the update of that
    element; without one the storage is not written. *)
Fixpoint updateSiteUsage (now siteId : string) (sites : list Site) : list Site :=
  match sites with
  | [] => []
  | site :: sites' =>
      if String.eqb (id site) siteId then used now site :: sites'
      else site :: updateSiteUsage now siteId sites'
  end.

(** The number of uses recorded in all sites. *)
Definition totalUsage (sites : list Site) : nat :=
  fold_right
    (fun site n => (match usageCount site with Some k => k | None => 0 end + n)%nat)
    0%nat sites.

End BackgroundService.

(** ** Patterns that are lists of words *)
Module Literals.
Import JS Regex.

(** The pattern of a word, and of a list of alternative words, as the
    parser builds them. *)
Fixpoint word_re (w : string) : re :=
  match w with
  | EmptyString => Empty
  | String c w' => Seq (lit c) (word_re w')
  end.

Fixpoint words_re (ws : list string) : re :=
  match ws with
  | [] => Empty
  | [w] => word_re w
  | w :: ws' => Alt (word_re w) (words_re ws')
  end.

(** One unit of a word against one unit of the text. *)
Definition unit_match (ic : bool) (c d : ascii) : bool :=
  atom_match ic false [CChar c] d.

(** The text begins with the word. *)
Fixpoint starts (ic : bool) (w s : string) : bool :=
  match w, s with
  | EmptyString, _ => true
  | String c w', String d s' => unit_match ic c d && starts ic w' s'
  | String _ _, EmptyString => false
  end.

(** The word occurs somewhere in the text. *)
Fixpoint occurs (ic : bool) (w s : string) : bool :=
  starts ic w s ||
  match s with
  | EmptyString => false
  | String _ s' => occurs ic w s'
  end.

(** The state after the units of a word. *)
Fixpoint after (w : string) (st : mstate) : mstate :=
  match w, rest st with
  | String _ w', String d s' => after w' (mkState (Some d) s' (caps st))
  | _, _ => st
  end.

(** Whether a match was found. *)
Definition found {A : Type} (o : option A) : bool :=
  match o with Some _ => true | None => false end.

(** The 256 units. *)
Definition units : list ascii := map ascii_of_nat (seq 0 256).

End Literals.

(** ** FormFiller: the category of a field *)
Module Categorize.
Import JS Regex Data FormFiller.

Definition emailWords : RegExp := mkRegExp "email|mail|e-mail" "".
Definition phoneWords : RegExp := mkRegExp "phone|tel|telephone|mobile|cell|fax" "".
Definition nameWords : RegExp :=
  mkRegExp "name|first|last|full|given|surname|fname|lname" "".
Definition addressWords : RegExp :=
  mkRegExp "address|street|location|addr|city|state|zip|postal|country" "".
Definition organizationWords : RegExp :=
  mkRegExp "company|organization|institution|hospital|clinic|org|dept|department" "".
Definition titleWords : RegExp :=
  mkRegExp "title|position|role|job|profession|designation" "".
Definition identifierWords : RegExp :=
  mkRegExp "license|id|number|code|tax|ein|dea|npi" "".
Definition dateWords : RegExp := mkRegExp "date|birth|dob|born|created|updated" "".

Definition categorizeField (element : Element) (label context : string)
  : FieldCategory :=
  let searchText := buildSearchText element label context in
  if String.eqb (type element) "email" || test emailWords searchText then CatEmail
  else if String.eqb (type element) "tel" || test phoneWords searchText then CatPhone
  else if test nameWords searchText then CatName
  else if test addressWords searchText then CatAddress
  else if test organizationWords searchText then CatOrganization
  else if test titleWords searchText then CatTitle
  else if test identifierWords searchText then CatIdentifier
  else if String.eqb (type element) "date" || test dateWords searchText then CatDate
  else CatGeneral.

(** The same decision with substring tests, without the alternatives that
    contain another alternative of their test. *)
Definition categoryBySubstring (elementType searchText : string) : FieldCategory :=
  let has := existsb (includes searchText) in
  if String.eqb elementType "email" || has ["mail"] then CatEmail
  else if String.eqb elementType "tel" || has ["phone"; "tel"; "mobile"; "cell"; "fax"]
  then CatPhone
  else if has ["name"; "first"; "last"; "full"; "given"] then CatName
  else if has ["street"; "location"; "addr"; "city"; "state"; "zip"; "postal"; "country"]
  then CatAddress
  else if has ["company"; "institution"; "hospital"; "clinic"; "org"; "dept"; "department"]
  then CatOrganization
  else if has ["title"; "position"; "role"; "job"; "profession"; "designation"]
  then CatTitle
  else if has ["license"; "id"; "number"; "code"; "tax"; "ein"; "dea"; "npi"]
  then CatIdentifier
  else if String.eqb elementType "date" || has ["date"; "birth"; "dob"; "born"; "created"]
  then CatDate
  else CatGeneral.

End Categorize.

(** ** FormFiller: filling a field *)
Module Fill.
Import JS.

(** [String.prototype.toUpperCase] on one unit that [\w] matches. *)
Definition upper_word (c : ascii) : ascii :=
  if is_lower c then ascii_of_nat (code c - 32) else c.

(** [str.replace(/\w\S*/g, txt => txt.charAt(0).toUpperCase() +
    txt.substr(1).toLowerCase())]: a match starts at a unit of [\w] outside
    a match and runs to the next white space; its first unit is put in upper
    case and the others in lower case.  [inMatch] tells whether the unit
    before belongs to a match.  The argument is a text of Latin-1 units,
    where [toLowerCase] maps unit to unit; outside that range it does not
    (U+0130 becomes two units), and this definition does not apply. *)
Fixpoint titleFrom (inMatch : bool) (str : string) : string :=
  match str with
  | EmptyString => EmptyString
  | String c str' =>
      if inMatch then
        if is_ws c then String c (titleFrom false str')
        else String (lower_char c) (titleFrom true str')
      else
        if is_word c then String (upper_word c) (titleFrom true str')
        else String c (titleFrom false str')
  end.

Definition toTitleCase (str : string) : string := titleFrom false str.

(** [digits.slice(from, to)] and [digits.slice(from)] *)
Definition slice (from to : nat) (s : string) : string :=
  substring from (to - from) s.

Definition sliceFrom (from : nat) (s : string) : string :=
  substring from (length s - from) s.

Definition first_is (c : ascii) (s : string) : bool :=
  match s with String d _ => Ascii.eqb d c | EmptyString => false end.

Definition formatPhone (phone : string) : string :=
  let digits := filter_chars is_digit phone in
  if length digits =? 10 then
    "(" ++ slice 0 3 digits ++ ") " ++ slice 3 6 digits ++ "-" ++ sliceFrom 6 digits
  else if (length digits =? 11) && first_is "1" digits then
    "+1 (" ++ slice 1 4 digits ++ ") " ++ slice 4 7 digits ++ "-" ++ sliceFrom 7 digits
  else phone.

Definition positiveIndicators : list string :=
  ["yes"; "true"; "1"; "agree"; "accept"; "confirm"].

Definition shouldCheckBox (value label context : string) : bool :=
  let checkContext := toLowerCase (label ++ " " ++ context) in
  existsb
    (fun indicator =>
       includes (toLowerCase value) indicator ||
       (includes checkContext "agree" && String.eqb (toLowerCase value) "yes"))
    positiveIndicators.

(** An option of a drop-down. *)
Record Option_ : Type := mkOption {
  o_value : string;
  textContent : string
}.

(** The value the drop-down is set to, or [None] when the function
    returns false and leaves it alone. *)
Definition fillSelectField (options : list Option_) (value : string) : option string :=
  let exact :=
    find (fun option =>
            String.eqb (toLowerCase (o_value option)) (toLowerCase value) ||
            String.eqb (toLowerCase (textContent option)) (toLowerCase value))
         options in
  let matchedOption :=
    match exact with
    | Some option => Some option
    | None =>
        find (fun option =>
                includes (toLowerCase (textContent option)) (toLowerCase value) ||
                includes (toLowerCase value) (toLowerCase (textContent option)))
             options
    end in
  match matchedOption with
  | Some option => Some (o_value option)
  | None => None
  end.

End Fill.

(** ** FormFiller: the test of an email address *)
Module Email.
Import JS Regex.

Definition emailRegex : RegExp := mkRegExp "^[^\s@]+@[^\s@]+\.[^\s@]+$" "".

Definition isValidEmail (email : string) : bool := test emailRegex email.

(** A unit that is neither white space nor the at sign, and a non-empty
    text of such units. *)
Definition is_plain (c : ascii) : bool := negb (is_ws c) && negb (Ascii.eqb c "@").

Definition plain (s : string) : bool := truthy s && all_chars is_plain s.

End Email.

(** ** SecurityManager *)
Module SecurityManager.
Import JS Regex.

Definition sensitivePatterns : list RegExp :=
  [ mkRegExp "\b\d{3}-\d{2}-\d{4}\b" "";
    mkRegExp "\b\d{4}[\s-]?\d{4}[\s-]?\d{4}[\s-]?\d{4}\b" "";
    mkRegExp "\b[A-Z]{2}\d{6,7}\b" "";
    mkRegExp "password" "i";
    mkRegExp "secret" "i";
    mkRegExp "key" "i" ].

Definition containsSensitiveData (text : string) : bool :=
  existsb (fun pattern => test pattern text) sensitivePatterns.

(** [arr2[index]] is undefined past the end and then equal to no byte. *)
Definition compareArrays (arr1 arr2 : list N) : bool :=
  if negb (List.length arr1 =? List.length arr2) then false
  else
    forallb
      (fun p : nat * N =>
         match nth_error arr2 (fst p) with
         | Some v => N.eqb (snd p) v
         | None => false
         end)
      (combine (seq 0 (List.length arr1)) arr1).

(** The outcome of [checkRateLimit]: the promise resolves after the list
    of attempts is stored, or rejects and stores nothing. *)
Inductive Verdict : Type :=
  | Resolved (attempts : list Z)
  | Rejected.

(** [now] is the clock of the call and [stored] the list found in storage
    (the empty list when there is none). *)
Definition checkRateLimit (maxAttempts : nat) (timeWindow now : Z)
  (stored : list Z) : Verdict :=
  let attempts := filter (fun timestamp => (now - timestamp <? timeWindow)%Z) stored in
  if maxAttempts <=? List.length attempts then Rejected
  else Resolved (attempts ++ [now])%list.

(** A series of calls for one operation, each at its time, from a stored
    list: the times of the calls that were let through, and the list stored
    at the end. *)
Fixpoint calls (maxAttempts : nat) (timeWindow : Z) (times : list Z)
  (stored : list Z) : list Z * list Z :=
  match times with
  | [] => ([], stored)
  | now :: times' =>
      match checkRateLimit maxAttempts timeWindow now stored with
      | Resolved attempts =>
          let '(passed, final) := calls maxAttempts timeWindow times' attempts in
          (now :: passed, final)
      | Rejected => calls maxAttempts timeWindow times' stored
      end
  end.

Definition hexDigit (n : nat) : ascii :=
  if n <? 10 then ascii_of_nat (48 + n) else ascii_of_nat (87 + n).

(** [byte.toString(16)] for a byte. *)
Definition toString16 (byte : nat) : string :=
  if byte <? 16 then String (hexDigit byte) EmptyString
  else String (hexDigit (byte / 16)) (String (hexDigit (byte mod 16)) EmptyString).

(** [s.padStart(2, '0')] *)
Definition padStart2 (s : string) : string :=
  match s with
  | EmptyString => "00"
  | String c EmptyString => String "0" s
  | _ => s
  end.

(** [generateSessionToken] on the 32 bytes the random generator gave. *)
Definition generateSessionToken (array : list nat) : string :=
  join "" (map (fun byte => padStart2 (toString16 byte)) array).

Definition tokenPattern : RegExp := mkRegExp "^[a-f0-9]+$" "".

Definition validateSessionToken (token : string) : bool :=
  truthy token && (length token =? 64) && test tokenPattern token.

End SecurityManager.

(** ** AuditLogger *)
Module AuditLogger.

Definition maxLogEntries : nat := 1000.

(** [auditLog.slice(-n)]: the last [n] entries. *)
Definition lastEntries {A : Type} (n : nat) (l : list A) : list A :=
  skipn (List.length l - n) l.

(** [logEvent] on the stored log, for the entry it builds. *)
Definition logEvent {A : Type} (logEntry : A) (auditLog : list A) : list A :=
  let auditLog := (auditLog ++ [logEntry])%list in
  if maxLogEntries <? List.length auditLog
  then lastEntries maxLogEntries auditLog
  else auditLog.

End AuditLogger.

(** ** Further vocabulary of the statements *)
Module Notions.
Import JS Regex Data Obj AIProcessor Terms.
Local Open Scope Q_scope.

(** The number of mappings, as the divisor of the average. *)
Definition count (mappings : list Mapping) : Q :=
  inject_Z (Z.of_nat (List.length mappings)).

(** A continuation-passing matcher that only ever moves forward inside
    the text: when it succeeds, it has called its continuation on a state
    inside the text, no earlier than where it started, and the result is
    what the continuation answered there. *)
Definition forward (t : string)
  (mt : mstate -> (mstate -> option mstate) -> option mstate) : Prop :=
  forall st k x,
    inside t st -> mt st k = Some x ->
    exists st', inside t st' /\ tail_of (rest st') (rest st) /\ k st' = Some x.

(** Every entry of an object satisfies [Q]. *)
Definition every {V : Type} (Q : string -> V -> Prop) (o : list (string * V)) : Prop :=
  forall k v, Obj.get o k = Some v -> Q k v.

(** The two keys a labelled line can create outside the pattern library:
    the string forms of the members found under the labels "constructor"
    and "__proto__". *)
Definition strayKeys : list string :=
  [memberString "constructor"; memberString "__proto__"].

(** The ways an entry of the extracted object comes about. *)
Definition fromLibrary (text k : string) (v : ExtractedValue) : Prop :=
  exists pats p mt,
    Obj.get fieldPatterns k = Some pats /\ In p pats /\ exec p text = Some mt /\
    v = regexEntry p mt.

Definition fromLabelledLine (v : ExtractedValue) : Prop :=
  v = flexibleEntry (value v) 0.7 "flexible_colon" /\
  Terms.trimmed (value v) = true /\
  (0 < length (value v) < 200)%nat.

Definition fromStandaloneEmail (k : string) (v : ExtractedValue) : Prop :=
  k = "email" /\ v = flexibleEntry (value v) 0.9 "standalone_email".

Definition fromStandalonePhone (k : string) (v : ExtractedValue) : Prop :=
  k = "phone" /\ v = flexibleEntry (value v) 0.8 "standalone_phone" /\
  (10 <= length (filter_chars is_digit (value v)))%nat.

(** A lower-case hexadecimal digit. *)
Definition is_hex (c : ascii) : bool := in_range 97 102 c || in_range 48 57 c.

(** The timestamps of [l] that lie less than [timeWindow] before [now]. *)
Definition recent (timeWindow now : Z) (l : list Z) : list Z :=
  filter (fun timestamp => (now - timestamp <? timeWindow)%Z) l.

(** A clock that never goes back. *)
Fixpoint nondecreasing (times : list Z) : bool :=
  match times with
  | [] => true
  | t :: times' =>
      match times' with
      | [] => true
      | u :: _ => (t <=? u)%Z && nondecreasing times'
      end
  end.

End Notions.

(** ** Further sample inputs *)
Module Samples.
Import JS Regex Data AIProcessor LearningSystem.
Local Open Scope Q_scope.

(** [<input type="text" name="contact" id="contact">]: "contact" is a
    keyword of the phone, the email and the full name alike. *)
Definition contactField : FormField :=
  mkField "contact" "contact" "text" "" "" "contact contact" (Some CatGeneral).

Definition phoneEntry : ExtractedValue :=
  mkExtracted "(555) 123-4567" 0.7 "standalone_phone" "flexible".

(** A phone and an email, the phone created first. *)
Definition contactData : Extracted :=
  [("phone", phoneEntry); ("email", Examples.emailEntry)].

(** A date field categorized as an identifier, with no word of its own. *)
Definition bareField : FormField :=
  mkField "f1" "f1" "date" "" "" "f1 f1" (Some CatIdentifier).

Definition licenseData : Extracted :=
  [("licenseNumber", mkExtracted "MD-12345" 0.8 "p" "regex")].

(** A text whose only line is labelled with the name of an inherited member. *)
Definition constructorText : string := "Constructor: Object".

(** A correct prediction for the field "email" of the site "site1". *)
Definition goodInteraction : Recorder.Interaction :=
  Recorder.mkInteraction "site1" "email"
    (JString "jane@hosp.org") (JString "jane@hosp.org") true JOther (Some 0.9).

(** Nothing recorded yet. *)
Definition freshState : Recorder.State := Recorder.mkState [] [].

(** Thirty-two bytes. *)
Definition someBytes : list nat :=
  [0; 1; 15; 16; 17; 31; 32; 64; 100; 127; 128; 160; 171; 200; 254; 255;
   9; 10; 11; 12; 13; 14; 99; 101; 102; 103; 104; 105; 106; 107; 108; 109]%nat.

End Samples.
(** ** Binary64 numbers *)

(** The IEEE 754 double-precision numbers of JavaScript, with the
    round-to-nearest-even operations of [SpecFloat]. *)
Module Binary64.
Import SpecFloat.

Definition prec : Z := 53%Z.
Definition emax : Z := 1024%Z.

Definition ofInteger (z : Z) : spec_float := binary_normalize prec emax z 0 false.

(** The value of a decimal literal [n/d] of the source: the double nearest
    to the fraction. *)
Definition literal (n d : Z) : spec_float :=
  SFdiv prec emax (ofInteger n) (ofInteger d).

Definition add (x y : spec_float) : spec_float := SFadd prec emax x y.
Definition sub (x y : spec_float) : spec_float := SFsub prec emax x y.

(** [Math.min(x, y)] *)
Definition min (x y : spec_float) : spec_float :=
  match SFcompare x y with
  | Some Lt => x
  | Some _ => y
  | None => S754_nan
  end.

Definition finite (x : spec_float) : bool :=
  match x with
  | S754_zero _ | S754_finite _ _ _ => true
  | _ => false
  end.

(** The rational a finite double stands for (0 for the others). *)
Definition valueOf (x : spec_float) : Q :=
  match x with
  | S754_finite s m e =>
      (inject_Z (if s then Z.neg m else Z.pos m) * Qpower (2 # 1) e)%Q
  | _ => 0%Q
  end.

End Binary64.

(** ** ConfidenceCalculator in binary64 *)

(** [calculatePatternConfidence] as the engine computes it: every literal
    and every sum is a double. *)
Module Doubles.
Import JS Regex Data Binary64.

Definition calculatePatternConfidence (pattern : RegExp) (mt : MatchResult)
  : SpecFloat.spec_float :=
  let confidence := literal 5 10 in
  let confidence :=
    if includes (source pattern) "\d" then add confidence (literal 2 10) else confidence in
  let confidence :=
    if includes (source pattern) "+" then add confidence (literal 1 10) else confidence in
  let confidence :=
    if includes (source pattern) "[A-Z]" then add confidence (literal 1 10) else confidence in
  let confidence :=
    if includes (flags pattern) "i" then sub confidence (literal 5 100) else confidence in
  let confidence :=
    if ConfidenceCalculator.group1_longer_than 3 mt
    then add confidence (literal 1 10) else confidence in
  let confidence :=
    if ConfidenceCalculator.group1_longer_than 10 mt
    then add confidence (literal 1 10) else confidence in
  min confidence (literal 10 10).

End Doubles.
(** ** The shape of a pattern *)

(** What a pattern requires, read off its parsed form rather than off the
    text of its source. *)
Module PatternShape.
Import JS Regex Data.
Local Open Scope Q_scope.

(** Some part of the pattern is repeated: [*], [+], [?] or [{n,m}]. *)
Fixpoint has_quantifier (r : re) : bool :=
  match r with
  | Rep _ _ _ => true
  | Seq a b | Alt a b => has_quantifier a || has_quantifier b
  | Group _ a => has_quantifier a
  | _ => false
  end.

(** [\d], or a range of digits such as [0-9]. *)
Definition digit_item (it : citem) : bool :=
  match it with
  | CDigit true => true
  | CRange lo hi => is_digit lo && is_digit hi
  | _ => false
  end.

(** A range of upper-case letters such as [A-Z]. *)
Definition upper_item (it : citem) : bool :=
  match it with
  | CRange lo hi => is_upper lo && is_upper hi
  | _ => false
  end.

(** Some class of the pattern, not negated, has an item of the kind. *)
Fixpoint has_class (f : citem -> bool) (r : re) : bool :=
  match r with
  | Atom false items => existsb f items
  | Rep _ _ a | Group _ a => has_class f a
  | Seq a b | Alt a b => has_class f a || has_class f b
  | _ => false
  end.

Definition shapeOf (pattern : RegExp) : re :=
  match parse (source pattern) with
  | Some (r, _) => r
  | None => Empty
  end.

(** The confidence by the shape of the pattern: 0.5, plus 0.2 for a digit
    class, 0.1 for a quantifier, 0.1 for an upper-case class, minus 0.05
    when case is ignored, plus 0.1 for a captured value longer than 3 and
    0.1 more for one longer than 10, at most 1. *)
Definition shapeConfidence (pattern : RegExp) (mt : MatchResult) : Q :=
  let r := shapeOf pattern in
  Qmin (0.5
        + Shape.bonus (has_class digit_item r) 0.2
        + Shape.bonus (has_quantifier r) 0.1
        + Shape.bonus (has_class upper_item r) 0.1
        - Shape.bonus (ignoreCase pattern) 0.05
        + Shape.bonus (ConfidenceCalculator.group1_longer_than 3 mt) 0.1
        + Shape.bonus (ConfidenceCalculator.group1_longer_than 10 mt) 0.1) 1.

End PatternShape.
(** ** The words of a text *)
Module Words.
Import JS.

Definition is_letter_or_digit (c : ascii) : bool :=
  is_digit c || is_upper c || is_lower c.

(** The lower case of an ASCII letter; any other unit is left alone. *)
Definition lower_ascii (c : ascii) : ascii :=
  if is_upper c then ascii_of_nat (code c + 32) else c.

(** The pieces of a text between the units that are not kept, each unit
    kept being passed through [f]: one piece more than there are
    separators, so some pieces may be empty. *)
Fixpoint piecesBy (keep : ascii -> bool) (f : ascii -> ascii) (s : string)
  : list string :=
  match s with
  | EmptyString => [EmptyString]
  | String c s' =>
      if keep c then
        match piecesBy keep f s' with
        | p :: ps => String (f c) p :: ps
        | [] => [String (f c) EmptyString]
        end
      else EmptyString :: piecesBy keep f s'
  end.

(** The maximal runs of ASCII letters and digits of a text, in lower
    case. *)
Definition alnumWords (s : string) : list string :=
  filter truthy (piecesBy is_letter_or_digit lower_ascii s).

(** The pieces between white space. *)
Definition spaced (s : string) : list string :=
  filter truthy (piecesBy (fun c => negb (is_ws c)) (fun c => c) s).

(** The reading "lowercased, with non-alphanumerics stripped and
    whitespace collapsed": the units that are neither letters, digits nor
    white space are deleted. *)
Definition strippedText (s : string) : string :=
  trim (FormFiller.collapse_ws
          (filter_chars (fun c => Shape.is_alnum_lower c || is_ws c) (toLowerCase s))).

End Words.

(** ** Further sample inputs *)
Module Cases.
Import JS Regex Data.

(** The first pattern of the library for a phone number: it repeats its
    classes with [*], [?] and [{10,}] and has no plus sign. *)
Definition phonePattern1 : RegExp :=
  mkRegExp "phone[:\s]*(\(?[\d\s\-\.\(\)]{10,})" "i".

(** Its match on [Examples.profileText]; the class of group 1 takes the
    end of the line with it. *)
Definition phoneMatch : MatchResult :=
  mkMatch 60 ("Phone: (555) 123-4567" ++ Examples.nl)
    [Some ("(555) 123-4567" ++ Examples.nl)].

(** [<input type="text" name="user_e-mail" id="First-Name">] *)
Definition labelledInput : FormFiller.Element :=
  FormFiller.mkElement "user_e-mail" "First-Name" "" "" "text" "" [].

End Cases.

(** * Properties *)

Import JS Regex Data.

(** ** White space *)

Lemma is_ws_units (c : ascii) : is_ws c = true -> In c ws_units.
Proof.
  intros H.
  rewrite <- (ascii_nat_embedding c).
  unfold is_ws, in_range, code in H.
  assert (Hb : nat_of_ascii c < 256) by apply nat_ascii_bounded.
  destruct (Nat.eq_dec (nat_of_ascii c) 32) as [-> | N32]; [vm_compute; tauto |].
  destruct (Nat.eq_dec (nat_of_ascii c) 160) as [-> | N160]; [vm_compute; tauto |].
  apply Nat.eqb_neq in N32, N160.
  rewrite N32, N160, !orb_false_r in H.
  apply andb_true_iff in H as [Hlo Hhi].
  apply Nat.leb_le in Hlo, Hhi.
  assert (Hc : nat_of_ascii c = 9 \/ nat_of_ascii c = 10 \/ nat_of_ascii c = 11 \/
               nat_of_ascii c = 12 \/ nat_of_ascii c = 13) by lia.
  destruct Hc as [-> | [-> | [-> | [-> | ->]]]]; vm_compute; tauto.
Qed.

Lemma trim_start_blank (s : string) : all_chars is_ws s = true -> trim_start s = "".
Proof.
  induction s as [| c s IH]; simpl; [reflexivity |].
  intros H. apply andb_true_iff in H as [Hc Hs]. now rewrite Hc; apply IH.
Qed.

Lemma trim_blank (s : string) : all_chars is_ws s = true -> trim s = "".
Proof. intros H. unfold trim. now rewrite (trim_start_blank s H). Qed.

Lemma split_on_blank (sep : ascii) (s : string) :
  all_chars is_ws s = true ->
  Forall (fun piece => all_chars is_ws piece = true) (split_on sep s).
Proof.
  induction s as [| c s IH]; simpl; intros H.
  - repeat constructor.
  - apply andb_true_iff in H as [Hc Hs]. specialize (IH Hs).
    destruct (Ascii.eqb c sep).
    + constructor; [reflexivity | exact IH].
    + destruct (split_on sep s) as [| p ps].
      * repeat constructor. simpl. now rewrite Hc.
      * inversion IH; subst. constructor; [simpl; now rewrite Hc | assumption].
Qed.

(** ** The matcher on blank text *)

Module BlankText.

Lemma blank_clear gs st : blank st -> blank (clear_caps gs st).
Proof. exact (fun H => H). Qed.

Section RepeatBlank.

Variable body : mstate -> (mstate -> option mstate) -> option mstate.
Variable gs : list nat.
Variable k : mstate -> option mstate.

(** [body] reaches its continuation on blank states only. *)
Hypothesis body_blank :
  forall st k', blank st -> (forall st', blank st' -> k' st' = None) -> body st k' = None.
Hypothesis k_blank : forall st, blank st -> k st = None.

Lemma optional_blank fuel : forall mx st, blank st -> optional body gs k fuel mx st = None.
Proof.
  induction fuel as [| fuel IH]; intros mx st Hst; simpl.
  - now apply k_blank.
  - destruct (max_is_zero mx); [now apply k_blank |].
    rewrite body_blank.
    + now apply k_blank.
    + now apply blank_clear.
    + intros st' Hst'. destruct (length (rest st') <? length (rest st)); [| reflexivity].
      now apply IH.
Qed.

Lemma required_blank n : forall mx st, blank st -> required body gs k n mx st = None.
Proof.
  induction n as [| n IH]; intros mx st Hst; simpl.
  - now apply optional_blank.
  - destruct (max_is_zero mx); [now apply k_blank |].
    apply body_blank; [now apply blank_clear |].
    intros st' Hst'. now apply IH.
Qed.

End RepeatBlank.

(** A continuation that fails on every blank state makes the matcher fail
    from a blank state: the matcher only moves forward in the text. *)
Lemma m_blank_cont ic (r : re) :
  forall st k, blank st -> (forall st', blank st' -> k st' = None) -> m ic r st k = None.
Proof.
  induction r as [| neg items | a IHa b IHb | a IHa b IHb | mn mx a IHa | i a IHa | | | p];
    intros st k Hst Hk; simpl.
  - now apply Hk.
  - destruct (rest st) as [| c tl] eqn:E; [reflexivity |].
    destruct (atom_match ic neg items c); [| reflexivity].
    apply Hk. unfold blank in *. rewrite E in Hst. simpl in *.
    now apply andb_true_iff in Hst as [_ Htl].
  - apply IHa; [assumption |]. intros st' Hst'. now apply IHb.
  - rewrite IHa by assumption. now apply IHb.
  - apply required_blank; assumption.
  - apply IHa; [assumption |]. intros st' Hst'. now apply Hk.
  - destruct (prev st); [reflexivity | now apply Hk].
  - destruct (rest st); [now apply Hk | reflexivity].
  - destruct (Bool.eqb p (at_word_boundary st)); [now apply Hk | reflexivity].
Qed.

Lemma required_needs_nonspace body gs k :
  (forall st k', blank st -> body st k' = None) ->
  forall n mx st, 0 < n -> max_is_zero mx = false -> blank st ->
  required body gs k n mx st = None.
Proof.
  intros Hbody n mx st Hn Hmx Hst. destruct n as [| n]; [lia |]. simpl.
  rewrite Hmx. apply Hbody. now apply blank_clear.
Qed.

(** A pattern that needs a unit other than white space fails from every
    blank state, whatever the continuation. *)
Lemma m_needs_nonspace ic (r : re) :
  needs_nonspace ic r = true -> forall st k, blank st -> m ic r st k = None.
Proof.
  induction r as [| neg items | a IHa b IHb | a IHa b IHb | mn mx a IHa | i a IHa | | | p];
    intros Hr st k Hst; cbn [needs_nonspace] in Hr; cbn [m]; try discriminate.
  - destruct (rest st) as [| c tl] eqn:E; [reflexivity |].
    destruct (atom_match ic neg items c) eqn:Ec; [| reflexivity].
    exfalso. apply negb_true_iff in Hr.
    assert (Hin : In c ws_units).
    { apply is_ws_units. unfold blank in Hst. rewrite E in Hst. simpl in Hst.
      now apply andb_true_iff in Hst as [Hc _]. }
    assert (Hex : existsb (atom_match ic neg items) ws_units = true)
      by (apply existsb_exists; eauto).
    congruence.
  - apply orb_true_iff in Hr as [Ha | Hb].
    + now apply IHa.
    + apply m_blank_cont; [assumption |]. intros st' Hst'. now apply IHb.
  - apply andb_true_iff in Hr as [Ha Hb].
    rewrite IHa by assumption. now apply IHb.
  - apply andb_true_iff in Hr as [Hmn Ha]. apply andb_true_iff in Hmn as [Hmn Hmx].
    apply Nat.ltb_lt in Hmn. apply negb_true_iff in Hmx.
    apply required_needs_nonspace; auto.
  - now apply IHa.
Qed.

Lemma search_blank ic r n :
  needs_nonspace ic r = true ->
  forall s p idx, all_chars is_ws s = true -> search ic r n p s idx = None.
Proof.
  intros Hr s. induction s as [| c s IH]; intros p idx Hs; simpl.
  - now rewrite m_needs_nonspace.
  - rewrite m_needs_nonspace by assumption.
    simpl in Hs. apply andb_true_iff in Hs as [_ Hs]. now apply IH.
Qed.

Lemma exec_blank (p : RegExp) (text : string) :
  pattern_needs_nonspace p = true -> all_chars is_ws text = true -> exec p text = None.
Proof.
  unfold pattern_needs_nonspace, exec. intros Hp Ht.
  destruct (parse (source p)) as [[r n] |]; [| reflexivity].
  now apply search_blank.
Qed.

End BlankText.

(** ** Dictionaries *)

Module ObjFacts.
Import Obj.

Section Dict.
Context {V : Type}.
Implicit Types (o : list (string * V)) (k : string) (v : V).

Lemma get_set_same o k v : get (set o k v) k = Some v.
Proof.
  induction o as [| [k' v'] o IH]; simpl.
  - now rewrite String.eqb_refl.
  - destruct (String.eqb k' k) eqn:E; simpl.
    + now rewrite String.eqb_refl.
    + now rewrite E.
Qed.

Lemma get_set_other o k v k' : k <> k' -> get (set o k v) k' = get o k'.
Proof.
  intros Hne. induction o as [| [k0 v0] o IH]; simpl.
  - apply String.eqb_neq in Hne. now rewrite Hne.
  - destruct (String.eqb k0 k) eqn:E; simpl.
    + apply String.eqb_eq in E. subst k0.
      apply String.eqb_neq in Hne. now rewrite Hne.
    + now rewrite IH.
Qed.

Lemma get_none_not_key o k : get o k = None <-> ~ In k (keys o).
Proof.
  induction o as [| [k' v'] o IH]; simpl.
  - tauto.
  - destruct (String.eqb k' k) eqn:E.
    + apply String.eqb_eq in E. split; [discriminate | tauto].
    + apply String.eqb_neq in E. rewrite IH. tauto.
Qed.

Lemma has_false_get o k : has o k = false <-> get o k = None.
Proof. unfold has. destruct (get o k); split; congruence. Qed.

Lemma keys_set o k v :
  keys (set o k v) = keys o \/ (~ In k (keys o) /\ keys (set o k v) = (keys o ++ [k])%list).
Proof.
  induction o as [| [k' v'] o IH]; simpl.
  - right. tauto.
  - destruct (String.eqb k' k) eqn:E; simpl.
    + apply String.eqb_eq in E. subst. now left.
    + apply String.eqb_neq in E.
      destruct IH as [-> | [Hn ->]]; [now left | right].
      split; [tauto | reflexivity].
Qed.

(** A property has at most one value: assignment keeps the keys distinct. *)
Lemma keys_set_NoDup o k v : NoDup (keys o) -> NoDup (keys (set o k v)).
Proof.
  intros H. destruct (keys_set o k v) as [-> | [Hn ->]]; [assumption |].
  apply NoDup_app; [assumption | repeat constructor; simpl; tauto | ].
  intros x Hx [<- | []]. contradiction.
Qed.

Lemma get_in o k v : get o k = Some v -> In (k, v) o.
Proof.
  induction o as [| [k' v'] o IH]; simpl; [discriminate |].
  destruct (String.eqb k' k) eqn:E.
  - apply String.eqb_eq in E. intros [= ->]. subst. now left.
  - intros H. right. now apply IH.
Qed.

(** Assigning a property that is absent changes no other lookup. *)
Lemma get_set_fresh o k v k' v' :
  has o k = false -> get o k' = Some v' -> get (set o k v) k' = Some v'.
Proof.
  intros Hk Hk'. rewrite get_set_other; [assumption |].
  intros ->. apply has_false_get in Hk. congruence.
Qed.

End Dict.
End ObjFacts.

(** ** The order of [Object.entries] *)

Module MatcherOrder.
Import Obj.

(** An object none of whose keys is an array index is listed in creation
    order. *)
Lemma entries_creation_order {V : Type} (o : list (string * V)) :
  forallb (fun k => negb (is_array_index k)) (keys o) = true -> entries o = o.
Proof.
  intros H. unfold entries.
  assert (Hidx : filter (fun e => is_array_index (fst e)) o = []).
  { induction o as [| e o IH]; simpl in *; [reflexivity |].
    apply andb_true_iff in H as [He Ho]. apply negb_true_iff in He.
    rewrite He. now apply IH. }
  assert (Hoth : filter (fun e => negb (is_array_index (fst e))) o = o).
  { induction o as [| e o IH]; simpl in *; [reflexivity |].
    apply andb_true_iff in H as [He Ho]. rewrite He. f_equal. apply IH; [assumption |].
    simpl in Hidx. apply negb_true_iff in He. rewrite He in Hidx. assumption. }
  now rewrite Hidx, Hoth.
Qed.

End MatcherOrder.

(** ** The extractor *)

Module ExtractorFacts.
Import Obj ObjFacts AIProcessor Shape.

Lemma fieldPatterns_keys_NoDup : NoDup (keys fieldPatterns).
Proof.
  apply (NoDup_count_occ' string_dec).
  intros k Hk. vm_compute in Hk.
  repeat (destruct Hk as [<- | Hk]; [vm_compute; reflexivity |]). destruct Hk.
Qed.

(** Every pattern of the program is within the supported syntax: the
    library, the three patterns of the flexible pass and the word tests of
    the keywords. *)
Lemma patterns_parse :
  forallb (fun e : string * list RegExp =>
             forallb (fun p => match parse (source p) with Some _ => true | None => false end)
               (snd e))
    fieldPatterns = true /\
  forallb (fun p => match parse (source p) with Some _ => true | None => false end)
    [colonPattern; emailPattern; phonePattern] = true /\
  forallb (fun e : string * list string =>
             forallb (fun keyword =>
                        match parse (source (wordRegex keyword)) with
                        | Some _ => true
                        | None => false
                        end) (snd e))
    keywords = true.
Proof. repeat split; vm_compute; reflexivity. Qed.

Lemma fieldPatterns_need_nonspace :
  Forall (fun e : string * list RegExp =>
            Forall (fun p => pattern_needs_nonspace p = true) (snd e)) fieldPatterns.
Proof.
  apply Forall_forall. intros e He. apply Forall_forall. intros p Hp.
  assert (H : forallb (fun e : string * list RegExp => forallb pattern_needs_nonspace (snd e))
                fieldPatterns = true) by (vm_compute; reflexivity).
  rewrite forallb_forall in H. specialize (H e He).
  rewrite forallb_forall in H. now apply H.
Qed.

Section OneText.
Variable text : string.

Lemma firstMatch_skip (pre rest : list RegExp) :
  Forall (fun q => exec q text = None) pre ->
  firstMatch text (pre ++ rest) = firstMatch text rest.
Proof.
  induction 1 as [| q pre Hq _ IH]; simpl; [reflexivity |]. now rewrite Hq.
Qed.

(** The first pattern that matches decides the entry. *)
Lemma firstMatch_first (pre post : list RegExp) (p : RegExp) (mt : MatchResult) :
  Forall (fun q => exec q text = None) pre ->
  exec p text = Some mt ->
  firstMatch text (pre ++ p :: post) = Some (regexEntry p mt).
Proof. intros Hpre Hp. rewrite firstMatch_skip by assumption. simpl. now rewrite Hp. Qed.

Lemma firstMatch_method (patterns : list RegExp) (v : ExtractedValue) :
  firstMatch text patterns = Some v -> method v = "regex".
Proof.
  induction patterns as [| p ps IH]; simpl; [discriminate |].
  destruct (exec p text); [intros [= <-]; reflexivity | exact IH].
Qed.

Lemma strictPassFrom_cons ft pats (table : list (string * list RegExp)) ex :
  strictPassFrom ((ft, pats) :: table) text ex =
  strictPassFrom table text
    match firstMatch text pats with Some v => set ex ft v | None => ex end.
Proof. reflexivity. Qed.

Lemma strictPassFrom_other (table : list (string * list RegExp)) :
  forall ex k, ~ In k (keys table) -> get (strictPassFrom table text ex) k = get ex k.
Proof.
  induction table as [| [ft pats] table IH]; intros ex k Hk; [reflexivity |].
  simpl in Hk. rewrite strictPassFrom_cons, IH by tauto.
  destruct (firstMatch text pats); [| reflexivity].
  apply get_set_other. tauto.
Qed.

Lemma strictPassFrom_get (table : list (string * list RegExp)) :
  NoDup (keys table) ->
  forall ex ft pats, In (ft, pats) table ->
  get (strictPassFrom table text ex) ft =
  match firstMatch text pats with Some v => Some v | None => get ex ft end.
Proof.
  induction table as [| [ft0 pats0] table IH]; intros Hnd ex ft pats Hin; [destruct Hin |].
  simpl in Hnd. inversion Hnd as [| ? ? Hnotin Hnd']; subst.
  destruct Hin as [[= -> ->] | Hin].
  - rewrite strictPassFrom_cons, strictPassFrom_other by assumption.
    destruct (firstMatch text pats); [apply get_set_same | reflexivity].
  - rewrite strictPassFrom_cons, (IH Hnd' _ ft pats Hin).
    destruct (firstMatch text pats); [reflexivity |].
    destruct (firstMatch text pats0); [| reflexivity].
    apply get_set_other. intros ->. apply Hnotin.
    change (In ft (map fst table)). apply in_map_iff. now exists (ft, pats).
Qed.

Lemma strictPassFrom_NoDup (table : list (string * list RegExp)) :
  forall ex, NoDup (keys ex) -> NoDup (keys (strictPassFrom table text ex)).
Proof.
  induction table as [| [ft pats] table IH]; intros ex Hex; [assumption |].
  rewrite strictPassFrom_cons.
  apply IH. destruct (firstMatch text pats); [now apply keys_set_NoDup | assumption].
Qed.

Lemma strictPassFrom_method (table : list (string * list RegExp)) :
  forall ex,
  (forall k v, get ex k = Some v -> method v = "regex") ->
  forall k v, get (strictPassFrom table text ex) k = Some v -> method v = "regex".
Proof.
  induction table as [| [ft pats] table IH]; intros ex Hex k v; [apply Hex |].
  rewrite strictPassFrom_cons.
  apply IH. destruct (firstMatch text pats) as [v0 |] eqn:E; [| exact Hex].
  intros k' v'. destruct (string_dec ft k') as [-> | Hne].
  - rewrite get_set_same. intros [= <-]. eapply firstMatch_method; eauto.
  - rewrite get_set_other by assumption. apply Hex.
Qed.

Lemma strictPass_method k v : get (strictPass text) k = Some v -> method v = "regex".
Proof. apply strictPassFrom_method. discriminate. Qed.

End OneText.

(** *** The second pass never overwrites *)

Lemma extends_refl ex : extends ex ex.
Proof. intros H. repeat split; auto. Qed.

Lemma extends_trans a b c : extends a b -> extends b c -> extends a c.
Proof.
  intros Hab Hbc Ha. destruct (Hab Ha) as (Hb & Hab1 & Hab2).
  destruct (Hbc Hb) as (Hc & Hbc1 & Hbc2). repeat split; auto.
  intros k v Hk. destruct (Hbc2 k v Hk) as [Hb' | [Hb' Hm]].
  - apply Hab2. assumption.
  - right. split; [| assumption].
    destruct (get a k) as [va |] eqn:Ea; [| reflexivity].
    apply Hab1 in Ea. congruence.
Qed.

(** Filling a property that is absent, with a flexible entry. *)
Lemma extends_fill ex k v c p :
  has ex k = false -> extends ex (set ex k (flexibleEntry v c p)).
Proof.
  intros Hk Hnd. split; [now apply keys_set_NoDup | split].
  - intros k' v' Hk'. now apply get_set_fresh.
  - intros k' v'. destruct (string_dec k k') as [-> | Hne].
    + rewrite get_set_same. intros [= <-]. right.
      split; [now apply has_false_get | reflexivity].
    + rewrite get_set_other by assumption. now left.
Qed.

Lemma flexibleColon_extends line ex : extends ex (flexibleColon line ex).
Proof.
  unfold flexibleColon.
  destruct (exec colonPattern line); [| apply extends_refl].
  destruct (_ && _); [| apply extends_refl].
  destruct (getFieldMapping _); [| apply extends_refl].
  destruct (has ex s) eqn:E; cbn [negb]; [apply extends_refl | now apply extends_fill].
Qed.

Lemma flexibleEmail_extends line ex : extends ex (flexibleEmail line ex).
Proof.
  unfold flexibleEmail.
  destruct (has ex "email") eqn:E; cbn [negb]; [apply extends_refl |].
  destruct (exec emailPattern line); [now apply extends_fill | apply extends_refl].
Qed.

Lemma flexiblePhone_extends line ex : extends ex (flexiblePhone line ex).
Proof.
  unfold flexiblePhone.
  destruct (has ex "phone") eqn:E; cbn [negb]; [apply extends_refl |].
  destruct (exec phonePattern line); [| apply extends_refl].
  match goal with |- context [Nat.leb ?a ?b] => destruct (Nat.leb a b) end;
    [now apply extends_fill | apply extends_refl].
Qed.

Lemma flexibleLine_extends ex line : extends ex (flexibleLine ex line).
Proof.
  unfold flexibleLine.
  eapply extends_trans; [apply flexibleColon_extends |].
  eapply extends_trans; [apply flexibleEmail_extends | apply flexiblePhone_extends].
Qed.

Lemma extractFlexiblePatterns_extends text ex :
  extends ex (extractFlexiblePatterns text ex).
Proof.
  unfold extractFlexiblePatterns. generalize (nonEmptyLines text). intros lines.
  revert ex. induction lines as [| l ls IH]; intros ex; simpl; [apply extends_refl |].
  eapply extends_trans; [apply flexibleLine_extends | apply IH].
Qed.

(** *** The keys of an extracted object *)

Lemma knownKeys_own :
  forallb (fun k => negb (inherited k) && negb (is_array_index k)) knownKeys = true.
Proof. vm_compute. reflexivity. Qed.

Lemma getFieldMapping_known key fieldMapping :
  getFieldMapping key = Some fieldMapping -> In fieldMapping knownKeys.
Proof.
  unfold getFieldMapping, knownKeys. intros H.
  apply in_or_app. right. apply in_or_app.
  destruct (get mappings key) as [fm |] eqn:E.
  - left. injection H as <-. apply get_in in E.
    apply in_map_iff. now exists (key, fm).
  - right. apply in_or_app. left.
    destruct (inherited key) eqn:Ek; [| discriminate]. injection H as <-.
    unfold inherited in Ek. apply existsb_exists in Ek as (k & Hin & Hk).
    apply String.eqb_eq in Hk. subst k. now apply in_map.
Qed.

Lemma keys_set_incl {V : Type} (o : list (string * V)) k v (K : list string) :
  In k K -> incl (keys o) K -> incl (keys (set o k v)) K.
Proof.
  intros Hk Ho. destruct (keys_set o k v) as [-> | [_ ->]]; [assumption |].
  intros x Hx. apply in_app_or in Hx as [Hx | [<- | []]]; auto.
Qed.

Lemma strictPassFrom_keys text (table : list (string * list RegExp)) (K : list string) :
  incl (keys table) K ->
  forall ex, incl (keys ex) K -> incl (keys (strictPassFrom table text ex)) K.
Proof.
  induction table as [| [ft pats] table IH]; intros Ht ex Hex; [assumption |].
  rewrite strictPassFrom_cons. apply IH.
  - intros x Hx. apply Ht. now right.
  - destruct (firstMatch text pats); [| assumption].
    apply keys_set_incl; [apply Ht; now left | assumption].
Qed.

Lemma flexibleLine_keys ex line :
  incl (keys ex) knownKeys -> incl (keys (flexibleLine ex line)) knownKeys.
Proof.
  intros Hex. unfold flexibleLine.
  assert (H1 : incl (keys (flexibleColon line ex)) knownKeys).
  { unfold flexibleColon.
    destruct (exec colonPattern line); [| assumption].
    destruct (_ && _); [| assumption].
    destruct (getFieldMapping _) as [fm |] eqn:E; [| assumption].
    destruct (negb (has ex fm)); [| assumption].
    apply keys_set_incl; [now apply getFieldMapping_known in E | assumption]. }
  assert (H2 : incl (keys (flexibleEmail line (flexibleColon line ex))) knownKeys).
  { unfold flexibleEmail.
    destruct (negb (has _ "email")); [| assumption].
    destruct (exec emailPattern line); [| assumption].
    apply keys_set_incl; [| assumption].
    unfold knownKeys. do 3 (apply in_or_app; right). simpl. tauto. }
  unfold flexiblePhone.
  destruct (negb (has _ "phone")); [| assumption].
  destruct (exec phonePattern line); [| assumption].
  match goal with |- context [Nat.leb ?a ?b] => destruct (Nat.leb a b) end;
    [| assumption].
  apply keys_set_incl; [| assumption].
  unfold knownKeys. do 3 (apply in_or_app; right). simpl. tauto.
Qed.

Lemma extractStructuredData_keys text :
  incl (keys (extractStructuredData text)) knownKeys.
Proof.
  unfold extractStructuredData, extractFlexiblePatterns.
  assert (Hs : incl (keys (strictPass text)) knownKeys).
  { apply strictPassFrom_keys; [| intros x []].
    unfold knownKeys. intros x Hx. apply in_or_app. now left. }
  revert Hs. generalize (strictPass text). generalize (nonEmptyLines text).
  intros lines. induction lines as [| l ls IH]; intros ex Hex; simpl; [assumption |].
  apply IH. now apply flexibleLine_keys.
Qed.

(** The keys of an extracted object are its own and are no array indices:
    the tables are read with own-property lookups, and [Object.entries]
    lists the object in creation order. *)
Lemma extractStructuredData_own_keyed text :
  own_keyed (extractStructuredData text) = true /\
  entries (extractStructuredData text) = extractStructuredData text.
Proof.
  pose proof (extractStructuredData_keys text) as Hk.
  pose proof knownKeys_own as Hown. rewrite forallb_forall in Hown.
  split.
  - unfold own_keyed. apply forallb_forall. intros k Hin.
    specialize (Hown k (Hk k Hin)). now apply andb_true_iff in Hown as [H _].
  - apply MatcherOrder.entries_creation_order. apply forallb_forall. intros k Hin.
    specialize (Hown k (Hk k Hin)). now apply andb_true_iff in Hown as [_ H].
Qed.

(** *** Blank text *)

Lemma firstMatch_blank text (patterns : list RegExp) :
  all_chars is_ws text = true ->
  Forall (fun p => pattern_needs_nonspace p = true) patterns ->
  firstMatch text patterns = None.
Proof.
  intros Ht. induction 1 as [| p ps Hp _ IH]; simpl; [reflexivity |].
  now rewrite BlankText.exec_blank.
Qed.

Lemma strictPassFrom_blank text (table : list (string * list RegExp)) :
  all_chars is_ws text = true ->
  Forall (fun e : string * list RegExp =>
            Forall (fun p => pattern_needs_nonspace p = true) (snd e)) table ->
  forall ex, strictPassFrom table text ex = ex.
Proof.
  intros Ht. induction 1 as [| [ft pats] table Hp _ IH]; intros ex; [reflexivity |].
  simpl in Hp. rewrite strictPassFrom_cons, (firstMatch_blank text pats Ht Hp). apply IH.
Qed.

Lemma nonEmptyLines_blank text : all_chars is_ws text = true -> nonEmptyLines text = [].
Proof.
  intros Ht. unfold nonEmptyLines.
  pose proof (split_on_blank LF text Ht) as H.
  induction H as [| piece pieces Hp _ IH]; simpl; [reflexivity |].
  now rewrite (trim_blank piece Hp).
Qed.

End ExtractorFacts.

(** ** The matcher *)

Module MatcherFacts.
Import Obj ObjFacts AIProcessor Shape.
Local Open Scope Q_scope.

Lemma Qgtb_true (a b : Q) : Qgtb a b = true <-> b < a.
Proof.
  unfold Qgtb. rewrite negb_true_iff. split; intros H.
  - apply Qnot_le_lt. intros Hle. apply Qle_bool_iff in Hle. congruence.
  - destruct (Qle_bool a b) eqn:E; [| reflexivity].
    apply Qle_bool_iff in E. exfalso. now apply (Qlt_not_le b a).
Qed.

Lemma Qgtb_false (a b : Q) : Qgtb a b = false <-> a <= b.
Proof.
  unfold Qgtb. rewrite negb_false_iff. apply Qle_bool_iff.
Qed.

(** *** When the scoring returns and when it throws *)

Lemma table_keys_own (table : list (string * list string)) (dataType : string) :
  own_keyed table = true -> inherited dataType = true -> get table dataType = None.
Proof.
  intros Hown Hinh. apply get_none_not_key. intros Hin.
  unfold own_keyed in Hown. rewrite forallb_forall in Hown.
  specialize (Hown dataType Hin). rewrite Hinh in Hown. discriminate.
Qed.

Lemma listFor_own table dataType :
  inherited dataType = false -> exists l, listFor table dataType = Returns l.
Proof.
  intros H. unfold listFor. rewrite H. destruct (get table dataType); eauto.
Qed.

Lemma boostedScore_own formField dataType :
  inherited dataType = false ->
  boostedScore formField dataType = Returns (scoreOf formField dataType).
Proof.
  intros H. unfold scoreOf, boostedScore, calculateFieldMatchScore.
  destruct (listFor_own keywords dataType H) as [ks ->].
  destruct (listFor_own abbreviations dataType H) as [abs ->].
  reflexivity.
Qed.

Lemma boostedScore_inherited formField dataType :
  inherited dataType = true -> boostedScore formField dataType = Throws.
Proof.
  intros H. unfold boostedScore, calculateFieldMatchScore, listFor.
  rewrite (table_keys_own keywords dataType eq_refl H), H. reflexivity.
Qed.

Lemma entries_in {V : Type} (o : list (string * V)) (e : string * V) :
  In e (entries o) <-> In e o.
Proof.
  unfold entries. rewrite in_app_iff, filter_In.
  assert (Hsort : forall l : list (string * V), In e (fold_right insert_index [] l) <-> In e l).
  { induction l as [| x l IH]; simpl; [tauto |]. rewrite <- IH.
    generalize (fold_right insert_index [] l). intros s.
    induction s as [| y s IHs]; simpl; [tauto |].
    destruct (index_value (fst x) <=? index_value (fst y))%N; simpl; tauto. }
  rewrite Hsort, filter_In.
  destruct (is_array_index (fst e)); simpl; intuition discriminate.
Qed.

Lemma own_keyed_entry {V : Type} (o : list (string * V)) (e : string * V) :
  own_keyed o = true -> In e (entries o) -> inherited (fst e) = false.
Proof.
  unfold own_keyed. rewrite forallb_forall. intros Hown Hin.
  apply (proj1 (entries_in o e)) in Hin. apply negb_true_iff, Hown.
  unfold keys. apply in_map_iff. exists e. split; [reflexivity | exact Hin].
Qed.

Section OneField.
Variable formField : FormField.

(** On own keys the loop never throws and is the loop of [chooseStep]. *)
Lemma loop_own (l : list (string * ExtractedValue)) :
  (forall e, In e l -> inherited (fst e) = false) ->
  forall acc,
  fold_left (bestStep formField) l (Returns acc) =
  Returns (fold_left (chooseStep formField) l acc).
Proof.
  induction l as [| e l IH]; intros Hl acc; simpl; [reflexivity |].
  rewrite (boostedScore_own formField (fst e)) by (apply Hl; now left).
  simpl. apply IH. intros e' He'. apply Hl. now right.
Qed.

Lemma loop_throws (l : list (string * ExtractedValue)) :
  fold_left (bestStep formField) l Throws = Throws.
Proof. induction l as [| e l IH]; simpl; [reflexivity | exact IH]. Qed.

(** An inherited key makes the loop throw. *)
Lemma loop_inherited (l : list (string * ExtractedValue)) :
  (exists e, In e l /\ inherited (fst e) = true) ->
  forall acc, fold_left (bestStep formField) l acc = Throws.
Proof.
  induction l as [| e l IH]; intros (x & Hin & Hx) acc; [destruct Hin |].
  simpl. destruct Hin as [-> | Hin].
  - unfold bestStep at 2. destruct acc; simpl; [| apply loop_throws].
    rewrite (boostedScore_inherited formField (fst x) Hx). apply loop_throws.
  - apply IH. now exists x.
Qed.

Lemma chosen_step seen acc e :
  chosen_from formField seen acc ->
  chosen_from formField (seen ++ [e])%list (chooseStep formField acc e).
Proof.
  unfold chosen_from, chooseStep, keepBest. intros H.
  destruct (Qgtb (scoreOf formField (fst e)) (snd acc) &&
            Qgtb (scoreOf formField (fst e)) 0.15) eqn:T.
  - apply andb_true_iff in T as [_ T]. apply Qgtb_true in T. cbn [fst snd].
    cbn [spread bm_confidence bm_fieldType].
    repeat split; try assumption.
    + exists (snd e). split; [| reflexivity].
      apply in_or_app. right. left. now destruct e.
    + exists e. split; [apply in_or_app; right; now left | assumption].
  - destruct (fst acc) as [b |].
    + destruct H as (H1 & H2 & (data & Hin & Hb) & (e0 & He0 & Hs0)).
      repeat split; try assumption.
      * exists data. split; [apply in_or_app; now left | assumption].
      * exists e0. split; [apply in_or_app; now left | assumption].
    + destruct H as [H0 Hall]. split; [assumption |].
      intros e' He'. apply in_app_or in He' as [He' | [<- | []]]; [now apply Hall |].
      rewrite H0 in T. apply andb_false_iff in T as [T | T]; apply Qgtb_false in T.
      * apply Qle_trans with 0; [assumption | discriminate].
      * assumption.
Qed.

Lemma chosen_fold l : forall seen acc,
  chosen_from formField seen acc ->
  chosen_from formField (seen ++ l)%list (fold_left (chooseStep formField) l acc).
Proof.
  induction l as [| e l IH]; intros seen acc H; simpl.
  - now rewrite app_nil_r.
  - replace (seen ++ e :: l)%list with ((seen ++ [e]) ++ l)%list
      by (now rewrite <- app_assoc).
    apply IH. now apply chosen_step.
Qed.

Variable extractedData : Extracted.
Hypothesis own : own_keyed extractedData = true.

(** On an object with own keys [findBestMatch] returns, and what it
    returns is what the loop of [chooseStep] chose. *)
Lemma findBestMatch_own :
  findBestMatch formField extractedData =
  Returns (fst (fold_left (chooseStep formField) (entries extractedData) (None, 0))).
Proof.
  unfold findBestMatch. rewrite loop_own; [reflexivity |].
  intros e He. now apply (own_keyed_entry extractedData).
Qed.

Lemma findBestMatch_chosen :
  chosen_from formField (entries extractedData)
    (fold_left (chooseStep formField) (entries extractedData) (None, 0)).
Proof.
  apply (chosen_fold (entries extractedData) [] (None, 0)).
  split; [reflexivity | intros e []].
Qed.

(** The result when a match is returned. *)
Lemma findBestMatch_some b :
  findBestMatch formField extractedData = Returns (Some b) ->
  0.15 < bm_confidence b /\
  exists data, In (bm_fieldType b, data) (entries extractedData) /\
               b = spread data (bm_fieldType b) (scoreOf formField (bm_fieldType b)).
Proof.
  rewrite findBestMatch_own. intros [= H].
  pose proof findBestMatch_chosen as C.
  unfold chosen_from in C. rewrite H in C. tauto.
Qed.

Lemma findBestMatch_none :
  findBestMatch formField extractedData = Returns None <->
  forall e, In e (entries extractedData) -> scoreOf formField (fst e) <= 0.15.
Proof.
  rewrite findBestMatch_own.
  pose proof findBestMatch_chosen as C.
  unfold chosen_from in C.
  destruct (fst (fold_left (chooseStep formField) (entries extractedData) (None, 0)))
    as [b |].
  - destruct C as (_ & _ & _ & (e & He & Hs)).
    split; [discriminate |]. intros Hall. exfalso.
    apply (Qlt_not_le _ _ Hs). now apply Hall.
  - split; [intros _; apply C | reflexivity].
Qed.

End OneField.

(** An object with a key that names an inherited member makes
    [findBestMatch] throw. *)
Lemma findBestMatch_inherited formField (extractedData : Extracted) :
  own_keyed extractedData = false -> findBestMatch formField extractedData = Throws.
Proof.
  intros H. unfold findBestMatch. rewrite loop_inherited; [reflexivity |].
  unfold own_keyed in H.
  assert (Hex : exists k, In k (keys extractedData) /\ inherited k = true).
  { induction (keys extractedData) as [| k ks IH]; simpl in H; [discriminate |].
    destruct (inherited k) eqn:Ek.
    - exists k. split; [now left | assumption].
    - destruct (IH H) as (k' & Hin & Hk'). exists k'. split; [now right | assumption]. }
  destruct Hex as (k & Hin & Hk). apply in_map_iff in Hin as (e & <- & He).
  exists e. split; [now apply entries_in | assumption].
Qed.

Section Mappings.
Variable extractedData : Extracted.
Hypothesis own : own_keyed extractedData = true.

Lemma generateFieldMappings_own (fields : list FormField) :
  exists ms, generateFieldMappings fields extractedData = Returns ms.
Proof.
  induction fields as [| f fields [ms IH]]; simpl; [eauto |].
  rewrite (findBestMatch_own f extractedData own), IH. simpl. eauto.
Qed.

Lemma generateFieldMappings_app (pre post : list FormField) ms1 ms2 :
  generateFieldMappings pre extractedData = Returns ms1 ->
  generateFieldMappings post extractedData = Returns ms2 ->
  generateFieldMappings (pre ++ post) extractedData = Returns (ms1 ++ ms2)%list.
Proof.
  revert ms1. induction pre as [| f pre IH]; intros ms1; simpl.
  - now intros [= <-].
  - rewrite (findBestMatch_own f extractedData own). simpl.
    destruct (generateFieldMappings pre extractedData) as [ms |] eqn:E; [| discriminate].
    simpl. intros [= <-] H2. rewrite (IH ms eq_refl H2). simpl.
    destruct (fst _); reflexivity.
Qed.

Lemma generateFieldMappings_in (fields : list FormField) ms (mp : Mapping) :
  generateFieldMappings fields extractedData = Returns ms ->
  In mp ms ->
  exists field b, In field fields /\
                  findBestMatch field extractedData = Returns (Some b) /\
                  mp = mappingOf field b.
Proof.
  revert ms. induction fields as [| f fields IH]; intros ms; simpl.
  - intros [= <-] [].
  - destruct (findBestMatch f extractedData) as [[b |] |] eqn:E; simpl;
      [| | discriminate].
    + destruct (generateFieldMappings fields extractedData) as [ms' |]; [| discriminate].
      simpl. intros [= <-] [<- | H].
      * exists f, b. tauto.
      * destruct (IH ms' eq_refl H) as (f' & b' & Hf & Hb & Hm). exists f', b'. tauto.
    + destruct (generateFieldMappings fields extractedData) as [ms' |]; [| discriminate].
      simpl. intros [= <-] H.
      destruct (IH ms' eq_refl H) as (f' & b' & Hf & Hb & Hm). exists f', b'. tauto.
Qed.

End Mappings.

(** *** Scores and their bounds *)

Lemma scoreOf_bound formField dataType :
  inherited dataType = false ->
  0 <= 1.3 - scoreOf formField dataType /\
  (categoryMatches (fieldCategoryOf formField) dataType = false ->
   scoreOf formField dataType <= 1).
Proof.
  intros H. unfold scoreOf, boostedScore, calculateFieldMatchScore.
  destruct (listFor_own keywords dataType H) as [ks ->].
  destruct (listFor_own abbreviations dataType H) as [abs ->].
  cbn [bind].
  match goal with |- context [Qmin ?x 1.0] => pose proof (Q.le_min_r x 1.0) as Hmin;
    generalize dependent (Qmin x 1.0) end.
  intros q Hq.
  destruct (categoryMatches (fieldCategoryOf formField) dataType).
  - split; [lra | discriminate].
  - split; [lra | intros _; lra].
Qed.

(** *** The entries of an object whose values are rewritten *)

Section MapValues.
Context {V W : Type} (h : V -> W).

Lemma insert_index_map e (l : list (string * V)) :
  map_values h (insert_index e l) = insert_index (fst e, h (snd e)) (map_values h l).
Proof.
  induction l as [| e' l IH]; simpl; [reflexivity |].
  destruct (index_value (fst e) <=? index_value (fst e'))%N; simpl; [reflexivity |].
  now rewrite <- IH.
Qed.

Lemma filter_map_values (f : string -> bool) (o : list (string * V)) :
  filter (fun e => f (fst e)) (map_values h o) =
  map_values h (filter (fun e => f (fst e)) o).
Proof.
  induction o as [| e o IH]; simpl; [reflexivity |].
  destruct (f (fst e)); simpl; now rewrite IH.
Qed.

Lemma entries_map_values (o : list (string * V)) :
  entries (map_values h o) = map_values h (entries o).
Proof.
  unfold entries.
  rewrite (filter_map_values is_array_index).
  rewrite (filter_map_values (fun k => negb (is_array_index k))).
  unfold map_values. rewrite map_app. f_equal.
  induction (filter (fun e => is_array_index (fst e)) o) as [| e l IH]; simpl;
    [reflexivity |].
  rewrite IH. symmetry. apply insert_index_map.
Qed.

Lemma keys_map_values (o : list (string * V)) : keys (map_values h o) = keys o.
Proof. unfold keys, map_values. rewrite map_map. reflexivity. Qed.

End MapValues.

End MatcherFacts.

(** ** Normalized search text *)

Module SearchTextFacts.
Import FormFiller Shape.

Ltac each_unit c :=
  destruct c as [[] [] [] [] [] [] [] []]; vm_compute; try reflexivity; try discriminate.

Lemma clean_ws_is_space (c : ascii) : is_clean c = true -> is_ws c = true -> c = " "%char.
Proof. each_unit c. Qed.

Lemma clean_lower_char (c : ascii) : is_clean c = true -> lower_char c = c.
Proof. each_unit c. Qed.

Lemma clean_strip_char (c : ascii) : is_clean c = true -> strip_char c = c.
Proof. each_unit c. Qed.

Lemma strip_lower_clean_or_ws (c : ascii) :
  is_alnum_lower (strip_char c) = true \/ is_ws (strip_char c) = true.
Proof. each_unit c; tauto. Qed.

Lemma alnum_not_ws (c : ascii) : is_alnum_lower c = true -> is_ws c = false.
Proof. each_unit c. Qed.

Lemma alnum_clean (c : ascii) : is_alnum_lower c = true -> is_clean c = true.
Proof. unfold is_clean. now intros ->. Qed.

Lemma stripped_units (s : string) : all_chars alnum_or_ws (map_chars strip_char s) = true.
Proof.
  induction s as [| c s IH]; simpl; [reflexivity |].
  rewrite IH, andb_true_r. unfold alnum_or_ws.
  destruct (strip_lower_clean_or_ws c) as [-> | ->]; [reflexivity | apply orb_true_r].
Qed.

Lemma collapse_ws_cons (c : ascii) (s : string) :
  collapse_ws (String c s) =
  if is_ws c
  then if starts_ws s then collapse_ws s else String " " (collapse_ws s)
  else String c (collapse_ws s).
Proof. destruct s; reflexivity. Qed.

Lemma collapse_clean (s : string) :
  all_chars alnum_or_ws s = true -> all_chars is_clean (collapse_ws s) = true.
Proof.
  induction s as [| c s IH]; [reflexivity |].
  cbn [all_chars]. intros H. apply andb_true_iff in H as [Hc Hs]. specialize (IH Hs).
  rewrite collapse_ws_cons. destruct (is_ws c) eqn:Ec.
  - destruct (starts_ws s); [exact IH |]. cbn [all_chars]. now rewrite IH.
  - cbn [all_chars]. rewrite IH, andb_true_r.
    unfold alnum_or_ws in Hc. rewrite Ec, orb_false_r in Hc. now apply alnum_clean.
Qed.

Lemma collapse_head (s : string) : starts_ws (collapse_ws s) = starts_ws s.
Proof.
  induction s as [| c s IH]; [reflexivity |].
  rewrite collapse_ws_cons. cbn [starts_ws]. destruct (is_ws c) eqn:Ec.
  - destruct (starts_ws s) eqn:Es; [now rewrite IH | reflexivity].
  - exact Ec.
Qed.

Lemma single_spaced_cons (c : ascii) (s : string) :
  single_spaced (String c s) = negb (is_ws c && starts_ws s) && single_spaced s.
Proof. destruct s; simpl; [now rewrite andb_false_r | reflexivity]. Qed.

Lemma collapse_single_spaced (s : string) : single_spaced (collapse_ws s) = true.
Proof.
  induction s as [| c s IH]; [reflexivity |].
  rewrite collapse_ws_cons. destruct (is_ws c) eqn:Ec.
  - destruct (starts_ws s) eqn:Es; [exact IH |].
    now rewrite single_spaced_cons, IH, collapse_head, Es.
  - now rewrite single_spaced_cons, IH, Ec.
Qed.

(** *** Trimming *)

Lemma trim_start_all (P : ascii -> bool) (s : string) :
  all_chars P s = true -> all_chars P (trim_start s) = true.
Proof.
  induction s as [| c s IH]; simpl; [reflexivity |].
  intros H. destruct (is_ws c); [| exact H].
  apply andb_true_iff in H as [_ H]. now apply IH.
Qed.

Lemma trim_end_all (P : ascii -> bool) (s : string) :
  all_chars P s = true -> all_chars P (trim_end s) = true.
Proof.
  induction s as [| c s IH]; simpl; [reflexivity |].
  intros H. apply andb_true_iff in H as [Hc Hs]. specialize (IH Hs).
  destruct (trim_end s) as [| b t].
  - destruct (is_ws c); simpl; [reflexivity | now rewrite Hc].
  - change (P c && all_chars P (String b t) = true). now rewrite Hc, IH.
Qed.

Lemma trim_end_head (s : string) (b : ascii) (t : string) :
  trim_end s = String b t -> exists r, s = String b r.
Proof.
  destruct s as [| c s]; simpl; [discriminate |].
  destruct (trim_end s).
  - destruct (is_ws c); [discriminate |]. intros [= -> _]. now exists s.
  - intros [= -> _]. now exists s.
Qed.

Lemma trim_end_starts (s : string) : starts_ws s = false -> starts_ws (trim_end s) = false.
Proof.
  intros H. destruct (trim_end s) as [| b t] eqn:E; [reflexivity |].
  destruct (trim_end_head s b t E) as [r ->]. exact H.
Qed.

Lemma trim_start_starts (s : string) : starts_ws (trim_start s) = false.
Proof.
  induction s as [| c s IH]; simpl; [reflexivity |].
  destruct (is_ws c) eqn:Ec; [exact IH | simpl; exact Ec].
Qed.

Lemma trim_end_ends (s : string) : ends_ws (trim_end s) = false.
Proof.
  induction s as [| c s IH]; simpl; [reflexivity |].
  destruct (trim_end s) as [| b t].
  - destruct (is_ws c) eqn:Ec; simpl; [reflexivity | exact Ec].
  - exact IH.
Qed.

Lemma trim_start_single_spaced (s : string) :
  single_spaced s = true -> single_spaced (trim_start s) = true.
Proof.
  induction s as [| c s IH]; [reflexivity |].
  intros H. cbn [trim_start]. destruct (is_ws c); [| exact H].
  rewrite single_spaced_cons in H. apply andb_true_iff in H as [_ H]. now apply IH.
Qed.

Lemma trim_end_single_spaced (s : string) :
  single_spaced s = true -> single_spaced (trim_end s) = true.
Proof.
  induction s as [| c s IH]; [reflexivity |].
  rewrite single_spaced_cons. intros H. apply andb_true_iff in H as [Hc Hs].
  specialize (IH Hs). cbn [trim_end].
  destruct (trim_end s) as [| b t] eqn:E.
  - destruct (is_ws c); reflexivity.
  - rewrite single_spaced_cons, IH, andb_true_r.
    destruct (trim_end_head s b t E) as [r ->]. exact Hc.
Qed.

(** The result of [normalize] is in normal form. *)
Lemma normalize_normal_form (s : string) : normal_form (normalize s) = true.
Proof.
  unfold normal_form, normalize, trim.
  set (u := collapse_ws (map_chars strip_char (toLowerCase s))).
  assert (Hclean : all_chars is_clean u = true)
    by (apply collapse_clean, stripped_units).
  assert (Hsp : single_spaced u = true) by apply collapse_single_spaced.
  rewrite (trim_end_all _ _ (trim_start_all _ _ Hclean)).
  rewrite (trim_end_single_spaced _ (trim_start_single_spaced _ Hsp)).
  rewrite (trim_end_starts _ (trim_start_starts u)).
  rewrite trim_end_ends. reflexivity.
Qed.

(** *** Normal forms are fixed points *)

Lemma toLowerCase_clean (s : string) : all_chars is_clean s = true -> toLowerCase s = s.
Proof.
  induction s as [| c s IH]; simpl; [reflexivity |].
  intros H. apply andb_true_iff in H as [Hc Hs].
  now rewrite (clean_lower_char c Hc), IH.
Qed.

Lemma strip_clean (s : string) : all_chars is_clean s = true -> map_chars strip_char s = s.
Proof.
  induction s as [| c s IH]; simpl; [reflexivity |].
  intros H. apply andb_true_iff in H as [Hc Hs].
  now rewrite (clean_strip_char c Hc), IH.
Qed.

Lemma collapse_fixed (s : string) :
  all_chars is_clean s = true -> single_spaced s = true -> collapse_ws s = s.
Proof.
  induction s as [| c s IH]; [reflexivity |].
  rewrite single_spaced_cons, collapse_ws_cons. cbn [all_chars].
  intros Hc Hs. apply andb_true_iff in Hc as [Hc Hcs].
  apply andb_true_iff in Hs as [Hcd Hss]. rewrite (IH Hcs Hss).
  destruct (is_ws c) eqn:Ec; [| reflexivity].
  simpl in Hcd. apply negb_true_iff in Hcd. rewrite Hcd.
  now rewrite (clean_ws_is_space c Hc Ec).
Qed.

Lemma trim_start_fixed (s : string) : starts_ws s = false -> trim_start s = s.
Proof. destruct s as [| c s]; simpl; [reflexivity | now intros ->]. Qed.

Lemma trim_end_fixed (s : string) : ends_ws s = false -> trim_end s = s.
Proof.
  induction s as [| c s IH]; [reflexivity |].
  cbn [trim_end ends_ws]. destruct s as [| d r].
  - simpl. now intros ->.
  - intros H. rewrite (IH H). reflexivity.
Qed.

Lemma normalize_fixed (s : string) : normal_form s = true -> normalize s = s.
Proof.
  unfold normal_form, normalize, trim. intros H.
  apply andb_true_iff in H as [H He]. apply andb_true_iff in H as [H Hs].
  apply andb_true_iff in H as [Hc Hsp].
  apply negb_true_iff in He, Hs.
  rewrite (toLowerCase_clean s Hc), (strip_clean s Hc), (collapse_fixed s Hc Hsp).
  now rewrite (trim_start_fixed s Hs), (trim_end_fixed s He).
Qed.

(** *** Tokens joined by single spaces *)

Lemma all_chars_app (P : ascii -> bool) (a b : string) :
  all_chars P (a ++ b) = all_chars P a && all_chars P b.
Proof. induction a as [| c a IH]; simpl; [reflexivity | now rewrite IH, andb_assoc]. Qed.

Lemma token_facts (t : string) :
  is_token t = true ->
  all_chars is_clean t = true /\ single_spaced t = true /\
  starts_ws t = false /\ ends_ws t = false /\ t <> "".
Proof.
  unfold is_token. intros H. apply andb_true_iff in H as [Hne H].
  destruct t as [| c t]; [discriminate |]. clear Hne.
  revert c H. induction t as [| d t IH]; intros c H.
  - simpl in H. rewrite andb_true_r in H.
    pose proof (alnum_not_ws c H) as Hw. pose proof (alnum_clean c H) as Hcl.
    simpl. rewrite Hcl, Hw. repeat split; discriminate.
  - cbn [all_chars] in H. apply andb_true_iff in H as [Hc H].
    destruct (IH d H) as (I1 & I2 & I3 & I4 & _).
    pose proof (alnum_not_ws c Hc) as Hw. pose proof (alnum_clean c Hc) as Hcl.
    repeat split; try discriminate.
    + change (is_clean c && all_chars is_clean (String d t) = true).
      now rewrite Hcl, I1.
    + rewrite single_spaced_cons, I2, Hw. reflexivity.
    + simpl. exact Hw.
    + exact I4.
Qed.

Lemma ends_ws_app (a b : string) : b <> "" -> ends_ws (a ++ b) = ends_ws b.
Proof.
  intros Hb. induction a as [| c a IH]; [reflexivity |].
  cbn [append ends_ws]. destruct (a ++ b) eqn:E; [| exact IH].
  destruct a; simpl in E; [contradiction | discriminate].
Qed.

Lemma starts_ws_app (a b : string) : a <> "" -> starts_ws (a ++ b) = starts_ws a.
Proof. destruct a; [contradiction | reflexivity]. Qed.

Lemma single_spaced_app (a b : string) :
  single_spaced a = true -> single_spaced b = true ->
  ends_ws a = false -> single_spaced (a ++ b) = true.
Proof.
  induction a as [| c a IH]; intros Ha Hb He; [exact Hb |].
  change (String c a ++ b) with (String c (a ++ b)).
  rewrite single_spaced_cons in *. apply andb_true_iff in Ha as [Hc Ha].
  destruct a as [| d a'].
  - simpl in He. simpl. rewrite He, Hb. reflexivity.
  - rewrite (IH Ha Hb He), andb_true_r. exact Hc.
Qed.

Lemma join_tokens_normal (tokens : list string) :
  Forall (fun t => is_token t = true) tokens -> normal_form (join " " tokens) = true.
Proof.
  intros H.
  enough (E : all_chars is_clean (join " " tokens) = true /\
              single_spaced (join " " tokens) = true /\
              starts_ws (join " " tokens) = false /\
              ends_ws (join " " tokens) = false).
  { unfold normal_form. destruct E as (-> & -> & -> & ->). reflexivity. }
  induction H as [| t ts Ht Hts IH]; [repeat split; reflexivity |].
  destruct (token_facts t Ht) as (T1 & T2 & T3 & T4 & T5).
  destruct ts as [| t' ts']; [simpl; tauto |].
  change (join " " (t :: t' :: ts')) with (t ++ String " " (join " " (t' :: ts'))).
  destruct IH as (I1 & I2 & I3 & I4).
  repeat split.
  - rewrite all_chars_app, T1. cbn [all_chars]. now rewrite I1.
  - apply single_spaced_app; [assumption | | assumption].
    rewrite single_spaced_cons, I2, I3. reflexivity.
  - now rewrite starts_ws_app.
  - rewrite ends_ws_app by discriminate. cbn [ends_ws].
    destruct (join " " (t' :: ts')) eqn:E; [| exact I4].
    exfalso. inversion Hts as [| ? ? Ht' _]; subst.
    destruct (token_facts t' Ht') as (_ & _ & _ & _ & Hne).
    destruct ts'; simpl in E; [contradiction |].
    destruct t'; [contradiction | discriminate].
Qed.

Lemma token_kept (t : string) : is_token t = true -> truthy t && (0 <? length (trim t)) = true.
Proof.
  intros Ht. destruct (token_facts t Ht) as (_ & _ & T3 & T4 & T5).
  unfold trim. rewrite (trim_start_fixed t T3), (trim_end_fixed t T4).
  destruct t; [contradiction | reflexivity].
Qed.

Lemma filter_parts_tokens (parts : list string) :
  forallb blank_or_token parts = true ->
  filter (fun part => truthy part && (0 <? length (trim part))) parts = filter truthy parts /\
  Forall (fun t => is_token t = true) (filter truthy parts).
Proof.
  induction parts as [| p ps IH]; simpl; [now split |].
  intros H. apply andb_true_iff in H as [Hp Hps]. destruct (IH Hps) as [IH1 IH2].
  destruct p as [| c p]; [simpl; tauto |].
  cbn [blank_or_token] in Hp. rewrite (token_kept _ Hp). cbn [truthy].
  split; [now rewrite IH1 | now constructor].
Qed.

End SearchTextFacts.

(** ** Pattern statistics *)

Module LearningFacts.
Import Obj ObjFacts LearningSystem Shape.

Lemma get_in_iff {V : Type} (o : list (string * V)) k v :
  NoDup (keys o) -> (In (k, v) o <-> get o k = Some v).
Proof.
  intros Hnd. split; [| apply get_in].
  induction o as [| [k' v'] o IH]; simpl; [intros [] |].
  inversion Hnd as [| ? ? Hnotin Hnd']; subst.
  intros [[= -> ->] | Hin].
  - now rewrite String.eqb_refl.
  - destruct (String.eqb k' k) eqn:E; [| now apply IH].
    apply String.eqb_eq in E. subst k'. exfalso. apply Hnotin.
    unfold keys. apply in_map_iff. now exists (k, v).
Qed.

Lemma bump_same o k n : holds o k n -> holds (bump o k) k (S n).
Proof.
  unfold holds, bump. intros H. rewrite get_set_same, H. now destruct n.
Qed.

Lemma bump_other o k k' n : k <> k' -> holds o k' n -> holds (bump o k) k' n.
Proof. unfold holds, bump. intros Hne H. now rewrite get_set_other. Qed.

Lemma bump_NoDup o k : NoDup (keys o) -> NoDup (keys (bump o k)).
Proof. apply keys_set_NoDup. Qed.

Lemma countValue_holds acc v k np ns :
  holds (fst acc) k np -> holds (snd acc) k ns ->
  holds (fst (countValue acc v)) k
    (np + (if counted prefixOf k v then 1 else 0)) /\
  holds (snd (countValue acc v)) k
    (ns + (if counted suffixOf k v then 1 else 0)).
Proof.
  intros Hp Hs. destruct v as [s |]; simpl;
    [| rewrite !Nat.add_0_r; now split].
  destruct (3 <? length s); simpl; [| rewrite !Nat.add_0_r; now split].
  fold (prefixOf s). fold (suffixOf s). split.
  - destruct (String.eqb (prefixOf s) k) eqn:E.
    + apply String.eqb_eq in E. subst k. rewrite Nat.add_1_r. now apply bump_same.
    + apply String.eqb_neq in E. rewrite Nat.add_0_r. now apply bump_other.
  - destruct (String.eqb (suffixOf s) k) eqn:E.
    + apply String.eqb_eq in E. subst k. rewrite Nat.add_1_r. now apply bump_same.
    + apply String.eqb_neq in E. rewrite Nat.add_0_r. now apply bump_other.
Qed.

Lemma countValue_NoDup acc v :
  NoDup (keys (fst acc)) /\ NoDup (keys (snd acc)) ->
  NoDup (keys (fst (countValue acc v))) /\ NoDup (keys (snd (countValue acc v))).
Proof.
  intros [Hp Hs]. destruct v as [s |]; simpl; [| now split].
  destruct (3 <? length s); simpl; [| now split].
  split; now apply bump_NoDup.
Qed.

Lemma occurrences_cons window k v values :
  occurrences window k (v :: values) =
  (if counted window k v then 1 else 0) + occurrences window k values.
Proof. unfold occurrences. simpl. now destruct (counted window k v). Qed.

Lemma counts_hold k values : forall acc np ns,
  holds (fst acc) k np -> holds (snd acc) k ns ->
  holds (fst (fold_left countValue values acc)) k (np + occurrences prefixOf k values) /\
  holds (snd (fold_left countValue values acc)) k (ns + occurrences suffixOf k values).
Proof.
  induction values as [| v values IH]; intros acc np ns Hp Hs.
  - unfold occurrences. simpl. rewrite !Nat.add_0_r. now split.
  - simpl fold_left. rewrite !occurrences_cons, !Nat.add_assoc.
    destruct (countValue_holds acc v k np ns Hp Hs) as [Hp' Hs'].
    now apply IH.
Qed.

Lemma counts_NoDup values : forall acc,
  NoDup (keys (fst acc)) /\ NoDup (keys (snd acc)) ->
  NoDup (keys (fst (fold_left countValue values acc))) /\
  NoDup (keys (snd (fold_left countValue values acc))).
Proof.
  induction values as [| v values IH]; intros acc H; [exact H |].
  simpl. apply IH. now apply countValue_NoDup.
Qed.

(** Both tallies are right: each window is counted as often as it occurs
    among the recorded strings longer than 3 units. *)
Lemma tallies (values : list JSValue) (k : string) (n : nat) :
  (In (k, S n) (prefixCounts values) <-> occurrences prefixOf k values = S n) /\
  (In (k, S n) (suffixCounts values) <-> occurrences suffixOf k values = S n).
Proof.
  unfold prefixCounts, suffixCounts.
  destruct (counts_NoDup values ([], [])) as [Np Ns]; [split; constructor |].
  destruct (counts_hold k values ([], []) 0 0 eq_refl eq_refl) as [Hp Hs].
  simpl in Hp, Hs. unfold holds in Hp, Hs.
  rewrite (get_in_iff _ k (S n) Np), (get_in_iff _ k (S n) Ns), Hp, Hs.
  split.
  - destruct (occurrences prefixOf k values); split; congruence.
  - destruct (occurrences suffixOf k values); split; congruence.
Qed.

(** The returned list is exactly the prefixes that occur at least twice,
    each with its count; it never holds a suffix. *)
Lemma extractCommonPatterns_prefixes (values : list JSValue) (p : CommonPattern) :
  In p (extractCommonPatterns values) <->
  type p = "prefix" /\
  2 <= frequency p /\
  occurrences prefixOf (pattern p) values = frequency p.
Proof.
  unfold extractCommonPatterns. rewrite in_flat_map. split.
  - intros ([k n] & Hin & Hp). cbn [fst snd] in Hp.
    destruct (2 <=? n) eqn:E; [| destruct Hp].
    destruct Hp as [<- | []]. apply Nat.leb_le in E. cbn [type frequency pattern].
    apply (proj1 (MatcherFacts.entries_in _ _)) in Hin.
    destruct n as [| n]; [lia |].
    apply (proj1 (tallies values k n)) in Hin. tauto.
  - intros (Ht & Hf & Ho). destruct p as [t k n]. cbn [type frequency pattern] in *.
    subst t. destruct n as [| n]; [lia |].
    exists (k, S n). split.
    + apply (proj2 (MatcherFacts.entries_in _ _)). now apply (proj1 (tallies values k n)).
    + cbn [fst snd]. apply Nat.leb_le in Hf. rewrite Hf. now left.
Qed.

End LearningFacts.

(** ** The scenarios of the specification *)

Module Scenarios.
Import AIProcessor.
Local Open Scope Q_scope.

(** The three labelled lines are extracted by the strict pass, in the
    order of the pattern library.  The last digits of the phone number, the
    line break and the next line match the street pattern of "address".  The
    fax line has no number and is filled by the flexible pass. *)
Example extraction_of_profile :
  map (fun e => (fst e, value (snd e), method (snd e)))
    (extractStructuredData Examples.profileText) =
  [ ("principalInvestigator", "Dr. Jane Smith", "regex");
    ("phone", "(555) 123-4567", "regex");
    ("email", "jane@hosp.org", "regex");
    ("address", "4567" ++ Examples.nl ++ "Fax: n/a", "regex");
    ("fax", "n/a", "flexible") ].
Proof. vm_compute. reflexivity. Qed.

(** An email field takes the extracted email. *)
Example email_field_takes_email :
  option_map (fun b => (bm_fieldType b, bm_value b))
    match findBestMatch Examples.emailField (extractStructuredData Examples.profileText) with
    | Returns r => r
    | Throws => None
    end = Some ("email", "jane@hosp.org").
Proof. vm_compute. reflexivity. Qed.

(** A date field takes nothing: the factor 0.2 keeps every score low. *)
Example date_field_takes_nothing :
  findBestMatch Examples.dobField (extractStructuredData Examples.profileText)
  = Returns None.
Proof. vm_compute. reflexivity. Qed.

(** The search text of a bare [<input type="email" name="email" id="email">]. *)
Example search_text_of_email_input :
  FormFiller.buildSearchText
    (FormFiller.mkElement "email" "email" "" "" "email" "" []) "" ""
  = f_searchText Examples.emailField.
Proof. vm_compute. reflexivity. Qed.

End Scenarios.

(** ** The search text as a list of words *)

Module WordFacts.
Import FormFiller Shape Words SearchTextFacts.

Lemma pieces_nonempty keep f (s : string) : exists p ps, piecesBy keep f s = p :: ps.
Proof.
  destruct s as [| c s]; cbn [piecesBy]; [eauto |].
  destruct (keep c); [| eauto].
  destruct (piecesBy keep f s); eauto.
Qed.

Lemma pieces_head_ws (s : string) (ps : list string) (p : string) :
  piecesBy (fun c => negb (is_ws c)) (fun c => c) s = p :: ps ->
  (starts_ws s = true -> p = "") /\ (p = "" -> s = "" \/ starts_ws s = true).
Proof.
  destruct s as [| c s]; cbn [piecesBy starts_ws].
  - intros [= <- <-]. split; [reflexivity | now left].
  - destruct (is_ws c); cbn [negb].
    + intros [= <- _]. split; [reflexivity | now right].
    + destruct (piecesBy _ _ s); intros [= <- _]; split; discriminate.
Qed.

Lemma join_cons_unit (c : ascii) (p : string) (l : list string) :
  join " " (String c p :: l) = String c (join " " (p :: l)).
Proof. destruct l; reflexivity. Qed.

Lemma join_empty_head (l : list string) :
  join " " ("" :: l) = match l with [] => "" | _ => " " ++ join " " l end.
Proof. destruct l; reflexivity. Qed.

Lemma join_truthy (w : string) (l : list string) :
  truthy w = true -> join " " (w :: l) <> "".
Proof. destruct w; [discriminate |]. destruct l; discriminate. Qed.

Lemma trim_end_unit (c : ascii) (x : string) :
  is_ws c = false -> trim_end (String c x) = String c (trim_end x).
Proof. intros H. cbn [trim_end]. destruct (trim_end x); [now rewrite H | reflexivity]. Qed.

Lemma trim_end_space (x : string) :
  trim_end (String " " x) = match trim_end x with "" => "" | y => String " " y end.
Proof. cbn [trim_end]. destruct (trim_end x); reflexivity. Qed.

(** The text without its trailing space, once the white space is
    collapsed, is its pieces joined by single spaces, after one space when
    the text begins with white space. *)
Lemma collapsed_words (t : string) :
  trim_end (collapse_ws t) =
  if starts_ws t
  then match spaced t with [] => "" | _ => " " ++ join " " (spaced t) end
  else join " " (spaced t).
Proof.
  induction t as [| c t IH]; [reflexivity |].
  rewrite collapse_ws_cons. unfold spaced in *. cbn [piecesBy starts_ws].
  destruct (pieces_nonempty (fun c => negb (is_ws c)) (fun c => c) t) as (p & ps & Hp).
  destruct (pieces_head_ws t ps p Hp) as [Hws Hempty].
  rewrite Hp in *.
  destruct (is_ws c) eqn:Ec; cbn [negb].
  - change (filter truthy ("" :: p :: ps)) with (filter truthy (p :: ps)).
    destruct (starts_ws t) eqn:Et.
    + exact IH.
    + rewrite trim_end_space, IH.
      destruct (filter truthy (p :: ps)) as [| w l] eqn:F; [reflexivity |].
      assert (Hw : truthy w = true).
      { assert (Hin : In w (filter truthy (p :: ps))) by (rewrite F; now left).
        now apply filter_In in Hin. }
      pose proof (join_truthy w l Hw) as Hne.
      destruct (join " " (w :: l)); [contradiction | reflexivity].
  - rewrite (trim_end_unit c _ Ec), IH.
    cbn [filter truthy]. rewrite join_cons_unit. f_equal.
    destruct p as [| d p].
    + cbn [filter truthy]. rewrite join_empty_head.
      destruct (starts_ws t) eqn:Et; [reflexivity |].
      destruct (Hempty eq_refl) as [-> | H]; [| congruence].
      cbn [piecesBy] in Hp. injection Hp as <-. reflexivity.
    + destruct (starts_ws t) eqn:Et; [specialize (Hws eq_refl); discriminate |].
      reflexivity.
Qed.

Lemma trim_start_collapse (t : string) :
  trim_start (collapse_ws t) = collapse_ws (trim_start t).
Proof.
  induction t as [| c t IH]; [reflexivity |].
  rewrite collapse_ws_cons. cbn [trim_start].
  destruct (is_ws c) eqn:Ec.
  - destruct (starts_ws t); [exact IH |].
    cbn [trim_start]. change (is_ws " ") with true. cbv iota. exact IH.
  - cbn [trim_start]. rewrite Ec. now rewrite collapse_ws_cons, Ec.
Qed.

Lemma spaced_trim_start (t : string) : spaced (trim_start t) = spaced t.
Proof.
  unfold spaced. induction t as [| c t IH]; [reflexivity |].
  cbn [trim_start]. destruct (is_ws c) eqn:Ec; [| reflexivity].
  cbn [piecesBy]. rewrite Ec. cbn [negb filter truthy]. exact IH.
Qed.

Lemma unit_kept (c : ascii) :
  is_letter_or_digit c = true ->
  is_ws (strip_char (lower_char c)) = false /\ strip_char (lower_char c) = lower_ascii c.
Proof. destruct c as [[] [] [] [] [] [] [] []]; vm_compute; intros H; try discriminate; split; reflexivity. Qed.

Lemma unit_separates (c : ascii) :
  is_letter_or_digit c = false -> is_ws (strip_char (lower_char c)) = true.
Proof. destruct c as [[] [] [] [] [] [] [] []]; vm_compute; intros H; try discriminate; reflexivity. Qed.

Lemma pieces_stripped (s : string) :
  piecesBy (fun c => negb (is_ws c)) (fun c => c) (map_chars strip_char (toLowerCase s)) =
  piecesBy is_letter_or_digit lower_ascii s.
Proof.
  induction s as [| c s IH]; [reflexivity |].
  cbn [toLowerCase map_chars piecesBy]. rewrite IH.
  destruct (is_letter_or_digit c) eqn:E.
  - destruct (unit_kept c E) as [-> ->]. reflexivity.
  - rewrite (unit_separates c E). reflexivity.
Qed.

(** The normalization of a text is its words joined by single spaces. *)
Lemma normalize_words (s : string) : normalize s = join " " (alnumWords s).
Proof.
  unfold normalize, trim, alnumWords.
  rewrite trim_start_collapse, collapsed_words, trim_start_starts, spaced_trim_start.
  unfold spaced. now rewrite pieces_stripped.
Qed.

Lemma pieces_app keep f (a b : string) (sep : ascii) :
  keep sep = false ->
  piecesBy keep f (a ++ String sep b) = (piecesBy keep f a ++ piecesBy keep f b)%list.
Proof.
  intros Hsep. induction a as [| c a IH]; cbn [append piecesBy].
  - now rewrite Hsep.
  - rewrite IH. destruct (keep c); [| reflexivity].
    destruct (pieces_nonempty keep f a) as (p & ps & ->). reflexivity.
Qed.

Lemma alnumWords_app (a b : string) :
  alnumWords (a ++ " " ++ b) = (alnumWords a ++ alnumWords b)%list.
Proof.
  unfold alnumWords. change (" " ++ b) with (String " " b).
  rewrite pieces_app by reflexivity. apply filter_app.
Qed.

Lemma alnumWords_join (parts : list string) :
  alnumWords (join " " parts) = flat_map alnumWords parts.
Proof.
  induction parts as [| a [| b parts] IH]; [reflexivity | |].
  - cbn [join flat_map]. now rewrite app_nil_r.
  - change (join " " (a :: b :: parts)) with (a ++ " " ++ join " " (b :: parts)).
    rewrite alnumWords_app, IH. reflexivity.
Qed.

Lemma trim_end_empty (s : string) : trim_end s = "" -> all_chars is_ws s = true.
Proof.
  induction s as [| c s IH]; [reflexivity |].
  cbn [trim_end all_chars]. destruct (trim_end s); [| discriminate].
  destruct (is_ws c); [| discriminate]. intros _. now apply IH.
Qed.

Lemma trim_start_ws (s : string) :
  all_chars is_ws (trim_start s) = true -> all_chars is_ws s = true.
Proof.
  induction s as [| c s IH]; [reflexivity |].
  cbn [trim_start all_chars]. destruct (is_ws c) eqn:E; [exact IH |].
  cbn [all_chars]. now rewrite E.
Qed.

Lemma ws_separates (c : ascii) : is_ws c = true -> is_letter_or_digit c = false.
Proof. destruct c as [[] [] [] [] [] [] [] []]; vm_compute; intros H; try discriminate; reflexivity. Qed.

Lemma alnumWords_blank (s : string) : all_chars is_ws s = true -> alnumWords s = [].
Proof.
  unfold alnumWords. induction s as [| c s IH]; [reflexivity |].
  cbn [all_chars piecesBy]. intros H. apply andb_true_iff in H as [Hc Hs].
  rewrite (ws_separates c Hc). cbn [filter truthy]. now apply IH.
Qed.

(** The parts the filter drops have no word. *)
Lemma alnumWords_dropped (part : string) :
  truthy part && (0 <? length (trim part))%nat = false -> alnumWords part = [].
Proof.
  intros H. apply alnumWords_blank.
  destruct part as [| c part]; [reflexivity |].
  cbn [truthy andb] in H. apply Nat.ltb_ge in H.
  destruct (trim (String c part)) eqn:E; [| cbn in H; lia].
  apply trim_start_ws, trim_end_empty. exact E.
Qed.

Lemma words_of_kept (parts : list string) :
  flat_map alnumWords
    (filter (fun part => truthy part && (0 <? length (trim part))%nat) parts) =
  flat_map alnumWords parts.
Proof.
  induction parts as [| a parts IH]; [reflexivity |].
  cbn [filter flat_map].
  destruct (truthy a && (0 <? length (trim a))%nat) eqn:E.
  - cbn [flat_map]. now rewrite IH.
  - rewrite (alnumWords_dropped a E). exact IH.
Qed.

(** The search text is the words of the parts, in the order of the parts. *)
Lemma buildSearchText_words (element : Element) (label context : string) :
  buildSearchText element label context =
  join " " (flat_map alnumWords (searchParts element label context)).
Proof.
  unfold buildSearchText. now rewrite normalize_words, alnumWords_join, words_of_kept.
Qed.

End WordFacts.

(** * The claims *)

Import Obj ObjFacts AIProcessor ConfidenceCalculator Shape ExtractorFacts MatcherFacts.
Local Open Scope Q_scope.

(** ** Extractor *)

(** C9.  On an empty or white-space-only text the extractor returns the
    empty object: the strict pass matches no pattern of any field type, the
    flexible pass has no line to scan, and the result of
    [extractStructuredData] is [{}] (a value, the function being total). *)
Theorem extractStructuredData_blank (text : string) :
  all_chars is_ws text = true ->
  strictPass text = [] /\
  extractFlexiblePatterns text [] = [] /\
  extractStructuredData text = [].
Proof.
  intros Ht.
  assert (Hs : strictPass text = [])
    by (apply strictPassFrom_blank; [assumption | apply fieldPatterns_need_nonspace]).
  assert (Hf : extractFlexiblePatterns text [] = [])
    by (unfold extractFlexiblePatterns; now rewrite nonEmptyLines_blank).
  unfold extractStructuredData. rewrite Hs. auto.
Qed.

Lemma extractStructuredData_blank_witness :
  extractStructuredData "" = [] /\ extractStructuredData Examples.blankText = [].
Proof.
  split.
  - apply (extractStructuredData_blank ""). reflexivity.
  - apply (extractStructuredData_blank Examples.blankText). reflexivity.
Defined.

(** C2.  The extracted object has at most one entry per field type.  In
    the strict pass the first pattern of a field type that matches gives the
    entry and the later ones are not tried; the flexible pass keeps every
    entry of the strict pass and only adds entries, marked "flexible", under
    keys the strict pass left absent (key-value lines, standalone email and
    phone alike). *)
Theorem extractStructuredData_one_per_type (text : string) :
  NoDup (keys (extractStructuredData text)) /\
  (forall fieldType pre p post mt,
     In (fieldType, (pre ++ p :: post)%list) fieldPatterns ->
     Forall (fun q => exec q text = None) pre ->
     exec p text = Some mt ->
     get (strictPass text) fieldType = Some (regexEntry p mt) /\
     get (extractStructuredData text) fieldType = Some (regexEntry p mt)) /\
  (forall k v,
     get (strictPass text) k = Some v -> get (extractStructuredData text) k = Some v) /\
  (forall k v,
     get (extractStructuredData text) k = Some v ->
     get (strictPass text) k = Some v \/
     (get (strictPass text) k = None /\ method v = "flexible")).
Proof.
  assert (Hnd : NoDup (keys (strictPass text)))
    by (apply strictPassFrom_NoDup; constructor).
  destruct (extractFlexiblePatterns_extends text (strictPass text) Hnd)
    as (Hnd' & Hkeep & Hnew).
  split; [exact Hnd' | split; [| split; [exact Hkeep | exact Hnew]]].
  intros ft pre p post mt Hin Hpre Hp.
  assert (Hstrict : get (strictPass text) ft = Some (regexEntry p mt)).
  { unfold strictPass.
    rewrite (strictPassFrom_get text fieldPatterns fieldPatterns_keys_NoDup
               [] ft _ Hin).
    now rewrite (firstMatch_first text pre post p mt Hpre Hp). }
  split; [exact Hstrict | now apply Hkeep].
Qed.

Lemma extractStructuredData_one_per_type_witness :
  get (extractStructuredData Examples.profileText) "email"
    = Some (regexEntry Examples.emailPattern1 Examples.emailMatch) /\
  get (extractStructuredData Examples.profileText) "phone"
    = get (strictPass Examples.profileText) "phone" /\
  get (strictPass Examples.profileText) "fax" = None.
Proof.
  pose proof (extractStructuredData_one_per_type Examples.profileText)
    as (_ & Hfirst & Hkeep & Hflex).
  split; [| split].
  - refine (proj2 (Hfirst "email" [] Examples.emailPattern1 _ Examples.emailMatch _ _ _)).
    + vm_compute. do 5 right. left. reflexivity.
    + constructor.
    + vm_compute. reflexivity.
  - destruct (get (strictPass Examples.profileText) "phone") as [v |] eqn:E.
    + apply (Hkeep "phone" v E).
    + vm_compute in E. discriminate E.
  - destruct (Hflex "fax" (flexibleEntry "n/a" 0.7 "flexible_colon")) as [H | [H _]].
    + vm_compute. reflexivity.
    + vm_compute in H. discriminate H.
    + exact H.
Defined.

(** ** Matcher *)

(** C1 (the code departs from the claim).  [calculateFieldMatchScore]
    clamps its result to at most 1, but [findBestMatch] adds the category
    boost of 0.3 after the clamp: for the email field and an extracted
    email the returned confidence is 1.3, and so are the confidence of the
    mapping and the overall confidence of the list. *)
Theorem findBestMatch_confidence_above_one :
  (exists clamped,
     calculateFieldMatchScore (fieldTextOf Examples.emailField) "email" "email" CatEmail
       = Returns clamped /\ clamped == 1) /\
  (exists b,
     findBestMatch Examples.emailField Examples.emailOnly = Returns (Some b) /\
     bm_fieldType b = "email" /\
     bm_confidence b == 1.3 /\
     1 < bm_confidence b) /\
  (exists mp,
     generateFieldMappings [Examples.emailField] Examples.emailOnly = Returns [mp] /\
     mapping_confidence mp == 1.3 /\
     calculateOverallConfidence [mp] == 1.3).
Proof.
  split; [| split].
  - eexists. split; vm_compute; reflexivity.
  - eexists. split; [vm_compute; reflexivity |].
    repeat split; vm_compute; reflexivity.
  - eexists. split; [vm_compute; reflexivity |].
    split; vm_compute; reflexivity.
Qed.

(** C3.  On an extracted object (its keys are its own) [findBestMatch]
    returns normally.  It returns a match only when the score of some
    extracted field type exceeds 0.15, and returns [null] exactly when no
    score does; a field without a match contributes no entry to the list of
    [generateFieldMappings].  The whole path from a text to the list of
    mappings never throws. *)
Theorem findBestMatch_threshold (formField : FormField) (extractedData : Extracted) :
  own_keyed extractedData = true ->
  (exists r, findBestMatch formField extractedData = Returns r) /\
  (forall b, findBestMatch formField extractedData = Returns (Some b) ->
     0.15 < bm_confidence b /\
     boostedScore formField (bm_fieldType b) = Returns (bm_confidence b) /\
     In (bm_fieldType b) (keys extractedData)) /\
  (findBestMatch formField extractedData = Returns None <->
   forall k score, In k (keys extractedData) ->
                   boostedScore formField k = Returns score -> score <= 0.15) /\
  (findBestMatch formField extractedData = Returns None ->
   forall pre post ms1 ms2,
     generateFieldMappings pre extractedData = Returns ms1 ->
     generateFieldMappings post extractedData = Returns ms2 ->
     generateFieldMappings (pre ++ formField :: post)%list extractedData =
     Returns (ms1 ++ ms2)%list) /\
  (forall fields text, exists r, processFormData fields text = Returns r).
Proof.
  intros Hown.
  assert (Hkey : forall e, In e (entries extractedData) -> In (fst e) (keys extractedData)).
  { intros e He. apply (proj1 (entries_in extractedData e)) in He.
    unfold keys. apply in_map_iff. now exists e. }
  split; [| split; [| split; [| split]]].
  - rewrite (findBestMatch_own formField extractedData Hown). eauto.
  - intros b Hb.
    destruct (findBestMatch_some formField extractedData Hown b Hb)
      as (Hgt & data & Hin & Heq).
    pose proof (own_keyed_entry extractedData _ Hown Hin) as Hk. cbn [fst] in Hk.
    split; [assumption | split].
    + rewrite (boostedScore_own formField _ Hk). f_equal.
      rewrite Heq at 2. reflexivity.
    + apply (Hkey _ Hin).
  - rewrite (findBestMatch_none formField extractedData Hown). split.
    + intros Hall k score Hk Hs.
      unfold keys in Hk. apply in_map_iff in Hk as (e & <- & He).
      apply (proj2 (entries_in extractedData e)) in He.
      specialize (Hall e He). unfold scoreOf in Hall. now rewrite Hs in Hall.
    + intros Hall e He. apply (Hall (fst e) _ (Hkey e He)).
      apply boostedScore_own. now apply (own_keyed_entry extractedData).
  - intros Hnone pre post ms1 ms2 H1 H2.
    apply (generateFieldMappings_app extractedData Hown); [assumption |].
    simpl. now rewrite Hnone, H2.
  - intros fields text. unfold processFormData.
    destruct (generateFieldMappings_own (extractStructuredData text)
                (proj1 (extractStructuredData_own_keyed text)) fields) as [ms ->].
    simpl. eauto.
Qed.

Lemma findBestMatch_threshold_witness :
  generateFieldMappings [Examples.emailField; Examples.dobField; Examples.emailField]
    Examples.emailOnly =
  Returns
    [mappingOf Examples.emailField
       (spread Examples.emailEntry "email" (scoreOf Examples.emailField "email"));
     mappingOf Examples.emailField
       (spread Examples.emailEntry "email" (scoreOf Examples.emailField "email"))] /\
  0.15 < scoreOf Examples.emailField "email".
Proof.
  pose proof (findBestMatch_threshold Examples.dobField Examples.emailOnly eq_refl)
    as (_ & _ & Hnone & Hskip & _).
  pose proof (findBestMatch_threshold Examples.emailField Examples.emailOnly eq_refl)
    as (_ & Hsome & _).
  split.
  - apply (Hskip
             (proj2 Hnone
                ltac:(intros k score [<- | []] [= <-]; vm_compute; discriminate))
             [Examples.emailField] [Examples.emailField]
             [mappingOf Examples.emailField
                (spread Examples.emailEntry "email" (scoreOf Examples.emailField "email"))]
             [mappingOf Examples.emailField
                (spread Examples.emailEntry "email" (scoreOf Examples.emailField "email"))]);
      vm_compute; reflexivity.
  - destruct (Hsome (spread Examples.emailEntry "email" (scoreOf Examples.emailField "email")))
      as (Hgt & _ & _).
    + vm_compute. reflexivity.
    + exact Hgt.
Defined.

(** C10.  The confidence of a returned match, and of the mapping built
    from it, is the match score of the field and the chosen field type; the
    value is the value of that extracted entry, unchanged.  The confidence
    computed at extraction time plays no part: replacing every extraction
    confidence by any other number leaves the result the same. *)
Theorem findBestMatch_overwrites_confidence
  (formFields : list FormField) (extractedData : Extracted) :
  own_keyed extractedData = true ->
  (forall formField b, findBestMatch formField extractedData = Returns (Some b) ->
     exists data,
       In (bm_fieldType b, data) extractedData /\
       bm_value b = value data /\
       boostedScore formField (bm_fieldType b) = Returns (bm_confidence b)) /\
  (forall ms mp,
     generateFieldMappings formFields extractedData = Returns ms -> In mp ms ->
     exists formField data,
       In formField formFields /\ fieldId mp = f_id formField /\
       In (extractedFrom mp, data) extractedData /\
       mappedValue mp = value data /\
       boostedScore formField (extractedFrom mp) = Returns (mapping_confidence mp)) /\
  (forall (c : ExtractedValue -> Q),
     generateFieldMappings formFields
       (map_values (fun d => mkExtracted (value d) (c d) (pattern d) (method d))
          extractedData) =
     generateFieldMappings formFields extractedData).
Proof.
  intros Hown.
  assert (Hsome : forall formField b,
     findBestMatch formField extractedData = Returns (Some b) ->
     exists data,
       In (bm_fieldType b, data) extractedData /\
       bm_value b = value data /\
       boostedScore formField (bm_fieldType b) = Returns (bm_confidence b)).
  { intros formField b Hb.
    destruct (findBestMatch_some formField extractedData Hown b Hb)
      as (_ & data & Hin & Heq).
    pose proof (own_keyed_entry extractedData _ Hown Hin) as Hk. cbn [fst] in Hk.
    exists data. split; [now apply (proj1 (entries_in extractedData _)) |]. split.
    - rewrite Heq. reflexivity.
    - rewrite (boostedScore_own formField _ Hk). f_equal. rewrite Heq at 2. reflexivity. }
  split; [exact Hsome | split].
  - intros ms mp Hms Hmp.
    destruct (generateFieldMappings_in extractedData formFields ms mp Hms Hmp)
      as (formField & b & Hf & Hb & ->).
    destruct (Hsome formField b Hb) as (data & Hin & Hv & Hc).
    exists formField, data. simpl. tauto.
  - intros c.
    assert (Hfind : forall formField,
      findBestMatch formField
        (map_values (fun d => mkExtracted (value d) (c d) (pattern d) (method d))
           extractedData) = findBestMatch formField extractedData).
    { intros formField. unfold findBestMatch. rewrite entries_map_values.
      f_equal. generalize (entries extractedData). intros l.
      generalize (Returns (@None BestMatch, 0)). revert l.
      induction l as [| e l IH]; intros acc; simpl; [reflexivity |].
      rewrite <- IH. reflexivity. }
    induction formFields as [| f fs IH]; simpl; [reflexivity |].
    rewrite Hfind, IH. reflexivity.
Qed.

Lemma findBestMatch_overwrites_confidence_witness :
  (exists data,
     In ("email", data) Examples.emailOnly /\
     value data = "jane@hosp.org" /\
     confidence data == 0.75 /\
     boostedScore Examples.emailField "email"
       = Returns (scoreOf Examples.emailField "email") /\
     scoreOf Examples.emailField "email" == 1.3) /\
  (exists formField data,
     In formField [Examples.dobField; Examples.emailField] /\
     f_id formField = "email" /\
     In ("email", data) Examples.emailOnly /\
     value data = "jane@hosp.org").
Proof.
  pose proof (findBestMatch_overwrites_confidence
                [Examples.dobField; Examples.emailField] Examples.emailOnly eq_refl)
    as (Hbest & Hmapping & _).
  split.
  - destruct (Hbest Examples.emailField
                (spread Examples.emailEntry "email" (scoreOf Examples.emailField "email")))
      as (data & Hin & Hv & Hc).
    + vm_compute. reflexivity.
    + exists data. split; [exact Hin |].
      destruct Hin as [[= <-] | []].
      split; [reflexivity | split; [vm_compute; reflexivity | split]].
      * exact Hc.
      * vm_compute. reflexivity.
  - destruct (Hmapping
                [mappingOf Examples.emailField
                   (spread Examples.emailEntry "email"
                      (scoreOf Examples.emailField "email"))]
                (mappingOf Examples.emailField
                   (spread Examples.emailEntry "email"
                      (scoreOf Examples.emailField "email"))))
      as (formField & data & Hf & Hid & Hin & Hv & _).
    + vm_compute. reflexivity.
    + now left.
    + exists formField, data. cbn in Hid, Hin, Hv. repeat split; auto.
Defined.

(** C8 (as amended).  For a declared type and a data type that are not
    names every object inherits: the factor of an email field for the data
    type email is 1.0; a text field has the flat factor 0.9; a declared type
    that is a row of the table has the entry of its row for the data type,
    else the entry "*" of the row, else 0.4 (an email field and the data
    type phone: 0.4); a declared type that is no row has the row "input",
    0.8 for every data type; every factor lies between 0.2 and 1. *)
Theorem getTypeCompatibility_table :
  getTypeCompatibility "email" "email" == 1.0 /\
  (forall dataType,
     inherited dataType = false ->
     getTypeCompatibility "text" dataType == 0.9) /\
  (forall formFieldType dataType row,
     get compatibility formFieldType = Some row ->
     inherited formFieldType = false ->
     inherited dataType = false ->
     getTypeCompatibility formFieldType dataType ==
       match get row dataType with
       | Some factor => factor
       | None => match get row "*" with Some factor => factor | None => 0.4 end
       end) /\
  getTypeCompatibility "email" "phone" == 0.4 /\
  (forall formFieldType dataType,
     get compatibility formFieldType = None ->
     inherited formFieldType = false ->
     inherited dataType = false ->
     getTypeCompatibility formFieldType dataType == 0.8) /\
  (forall formFieldType dataType,
     inherited formFieldType = false ->
     inherited dataType = false ->
     0.2 <= getTypeCompatibility formFieldType dataType <= 1).
Proof.
  split; [reflexivity | split; [| split; [| split; [reflexivity | split]]]].
  - intros dataType _. unfold getTypeCompatibility.
    change (compatibilityRow "text") with (Some [("*", 0.9)]).
    cbn [get]. destruct (String.eqb "*" dataType); [reflexivity |].
    rewrite String.eqb_refl. reflexivity.
  - intros formFieldType dataType row Hrow _ _.
    unfold getTypeCompatibility, compatibilityRow. rewrite Hrow.
    destruct (get row dataType); [reflexivity |].
    destruct (get row "*"); reflexivity.
  - intros formFieldType dataType Hrow Hinh _.
    unfold getTypeCompatibility, compatibilityRow at 1. rewrite Hrow, Hinh.
    change (compatibilityRow "input") with (Some [("*", 0.8)]).
    cbn [get]. destruct (String.eqb "*" dataType); [reflexivity |].
    rewrite String.eqb_refl. reflexivity.
  - intros formFieldType dataType Hinh _.
    unfold getTypeCompatibility.
    change (compatibilityRow "input") with (Some [("*", 0.8)]).
    unfold compatibilityRow, compatibility. rewrite Hinh. cbn [get].
    repeat match goal with
           | |- context [String.eqb ?a formFieldType] =>
               destruct (String.eqb a formFieldType)
           end;
      cbn [get];
      repeat match goal with
             | |- context [String.eqb ?a dataType] => destruct (String.eqb a dataType)
             end;
      split; vm_compute; discriminate.
Qed.

Lemma getTypeCompatibility_table_witness :
  getTypeCompatibility "text" "phone" == 0.9 /\
  getTypeCompatibility "tel" "fax" == 0.9 /\
  getTypeCompatibility "select-one" "country" == 0.8 /\
  0.2 <= getTypeCompatibility "date" "email" <= 1.
Proof.
  pose proof getTypeCompatibility_table as (_ & Htext & Hrow & _ & Hunknown & Hbound).
  split; [| split; [| split]].
  - apply (Htext "phone"). reflexivity.
  - rewrite (Hrow "tel" "fax"
               [("phone", 1.0); ("fax", 0.9); ("npiNumber", 0.7); ("licenseNumber", 0.6)]);
      reflexivity.
  - apply (Hunknown "select-one" "country"); reflexivity.
  - apply (Hbound "date" "email"); reflexivity.
Defined.

(** C8 as stated fails: "select-one", the type of a drop-down, is no row
    of the table, and its factor for email is 0.8, not near 0.6. *)
Lemma getTypeCompatibility_unknown_type_not_neutral :
  get compatibility "select-one" = None /\
  getTypeCompatibility "select-one" "email" == 0.8 /\
  ~ (0.5 <= getTypeCompatibility "select-one" "email" <= 0.7).
Proof.
  split; [reflexivity | split; [reflexivity |]].
  intros [_ H]. vm_compute in H. now apply H.
Qed.

(** ** ConfidenceCalculator *)

(** C4 (as amended).  The pattern confidence is 0.5, plus 0.2 when the
    source contains a backslash followed by d, plus 0.1 when it contains a
    plus sign, plus 0.1 when it contains the text [A-Z], minus 0.05 when the
    flags contain i, plus 0.1 when group 1 is not empty and longer than 3
    units and 0.1 more when longer than 10, capped at 1.  This is the exact
    value; the number computed in binary64 is finite, differs from it by at
    most 2^-52 and, like it, lies between 0.45 and 1. *)
Theorem calculatePatternConfidence_formula (pattern : RegExp) (mt : MatchResult) :
  calculatePatternConfidence pattern mt ==
    Qmin (0.5
          + bonus (includes (source pattern) "\d") 0.2
          + bonus (includes (source pattern) "+") 0.1
          + bonus (includes (source pattern) "[A-Z]") 0.1
          - bonus (includes (flags pattern) "i") 0.05
          + bonus (group1_longer_than 3 mt) 0.1
          + bonus (group1_longer_than 10 mt) 0.1) 1 /\
  0.45 <= calculatePatternConfidence pattern mt <= 1 /\
  Binary64.finite (Doubles.calculatePatternConfidence pattern mt) = true /\
  - (1 # 4503599627370496) <=
    Binary64.valueOf (Doubles.calculatePatternConfidence pattern mt)
    - calculatePatternConfidence pattern mt <= 1 # 4503599627370496 /\
  0.45 <= Binary64.valueOf (Doubles.calculatePatternConfidence pattern mt) <= 1.
Proof.
  unfold calculatePatternConfidence, Doubles.calculatePatternConfidence, bonus.
  destruct (includes (source pattern) "\d"), (includes (source pattern) "+"),
    (includes (source pattern) "[A-Z]"), (includes (flags pattern) "i"),
    (group1_longer_than 3 mt), (group1_longer_than 10 mt);
    (split; [reflexivity |
     split; [split; vm_compute; discriminate |
     split; [reflexivity |
     split; split; vm_compute; discriminate]]]).
Qed.

Lemma calculatePatternConfidence_formula_witness :
  calculatePatternConfidence Cases.phonePattern1 Cases.phoneMatch == 0.85 /\
  - (1 # 4503599627370496) <=
    Binary64.valueOf
      (Doubles.calculatePatternConfidence Cases.phonePattern1 Cases.phoneMatch)
    - 0.85 <= 1 # 4503599627370496.
Proof.
  pose proof (calculatePatternConfidence_formula Cases.phonePattern1 Cases.phoneMatch)
    as (Hexact & _ & _ & Hnear & _).
  split.
  - rewrite Hexact. reflexivity.
  - rewrite Hexact in Hnear. exact Hnear.
Defined.

(** C4 as stated fails: the first phone pattern of the library repeats its
    classes with [*], [?] and [{10,}], so it has quantifiers, but its source
    has no plus sign, and the 0.1 is not added.  On the phone line of the
    sample profile the confidence is 0.85 (in binary64, a number below
    0.86) where the stated rule gives 0.95. *)
Lemma calculatePatternConfidence_quantifier_not_counted :
  nth_error (match get fieldPatterns "phone" with Some l => l | None => [] end) 0
    = Some Cases.phonePattern1 /\
  exec Cases.phonePattern1 Examples.profileText = Some Cases.phoneMatch /\
  parse (source Cases.phonePattern1) <> None /\
  PatternShape.has_quantifier (PatternShape.shapeOf Cases.phonePattern1) = true /\
  includes (source Cases.phonePattern1) "+" = false /\
  PatternShape.shapeConfidence Cases.phonePattern1 Cases.phoneMatch == 0.95 /\
  calculatePatternConfidence Cases.phonePattern1 Cases.phoneMatch == 0.85 /\
  Binary64.valueOf
    (Doubles.calculatePatternConfidence Cases.phonePattern1 Cases.phoneMatch) < 0.86 /\
  ~ calculatePatternConfidence Cases.phonePattern1 Cases.phoneMatch ==
    PatternShape.shapeConfidence Cases.phonePattern1 Cases.phoneMatch.
Proof.
  repeat split; try (vm_compute; reflexivity); try (vm_compute; discriminate).
Qed.

Lemma reduce_total (mappings : list Mapping) : forall start,
  fold_left (fun sum mapping => sum + mapping_confidence mapping) mappings start
  == start + total mappings.
Proof.
  induction mappings as [| mp mappings IH]; intros start; simpl.
  - lra.
  - rewrite IH. lra.
Qed.

Lemma total_all_one (mappings : list Mapping) :
  Forall (fun mp => mapping_confidence mp == 1) mappings ->
  total mappings == inject_Z (Z.of_nat (List.length mappings)).
Proof.
  induction 1 as [| mp mappings Hmp _ IH].
  - reflexivity.
  - cbn [total fold_right List.length]. fold (total mappings).
    rewrite Hmp, IH, Nat2Z.inj_succ, <- Z.add_1_l, inject_Z_plus. reflexivity.
Qed.

(** C5.  The overall confidence is 0 for the empty list and otherwise the
    sum of the confidences divided by their number; when every confidence of
    a non-empty list is 1 it is 1. *)
Theorem calculateOverallConfidence_mean :
  calculateOverallConfidence [] = 0 /\
  (forall mappings, mappings <> [] ->
     calculateOverallConfidence mappings ==
     total mappings / inject_Z (Z.of_nat (List.length mappings))) /\
  (forall mappings, mappings <> [] ->
     Forall (fun mp => mapping_confidence mp == 1) mappings ->
     calculateOverallConfidence mappings == 1).
Proof.
  assert (Hmean : forall mappings, mappings <> [] ->
     calculateOverallConfidence mappings ==
     total mappings / inject_Z (Z.of_nat (List.length mappings))).
  { intros mappings Hne. unfold calculateOverallConfidence.
    destruct mappings as [| mp mappings]; [contradiction |].
    cbn [List.length Nat.eqb]. rewrite reduce_total. 
    apply Qdiv_comp; [lra | reflexivity]. }
  split; [reflexivity | split; [exact Hmean |]].
  intros mappings Hne Hall.
  rewrite (Hmean mappings Hne), (total_all_one mappings Hall).
  destruct mappings as [| mp mappings]; [contradiction |].
  apply Qmult_inv_r.
  unfold Qeq. simpl. lia.
Qed.

Lemma calculateOverallConfidence_mean_witness :
  calculateOverallConfidence
    [mkMapping "a" "a" "text" "x" 1 "email"; mkMapping "b" "b" "text" "y" 1 "phone"] == 1 /\
  calculateOverallConfidence
    [mkMapping "a" "a" "text" "x" 1.3 "email"; mkMapping "b" "b" "text" "y" 0.5 "phone"]
  == total [mkMapping "a" "a" "text" "x" 1.3 "email"; mkMapping "b" "b" "text" "y" 0.5 "phone"]
     / inject_Z 2.
Proof.
  pose proof calculateOverallConfidence_mean as (_ & Hmean & Hones).
  split.
  - apply Hones; [discriminate | repeat constructor].
  - apply (Hmean [mkMapping "a" "a" "text" "x" 1.3 "email";
                  mkMapping "b" "b" "text" "y" 0.5 "phone"]).
    discriminate.
Defined.

(** ** LearningSystem *)

(** C7 (the code departs from the claim).  With three accepted values that
    share the suffix "abc", the suffix is counted three times, yet the list
    [extractCommonPatterns] returns, and [updateSuccessPatterns] stores, is
    empty: only the prefix counts are turned into patterns. *)
Theorem extractCommonPatterns_drops_suffixes :
  occurrences suffixOf "abc" Examples.acceptedValues = 3%nat /\
  LearningSystem.suffixCounts Examples.acceptedValues = [("abc", 3%nat)] /\
  LearningSystem.extractCommonPatterns Examples.acceptedValues = [] /\
  get (LearningSystem.updateSuccessPatterns
         [("f1", LearningSystem.mkFieldPatterns
                   [LearningSystem.JString "xxxabc"; LearningSystem.JString "yyyabc"] [])]
         "f1" (LearningSystem.JString "zzzabc")) "f1" =
  Some (LearningSystem.mkFieldPatterns Examples.acceptedValues []).
Proof.
  split; [reflexivity | split; [reflexivity | split]].
  - vm_compute. reflexivity.
  - vm_compute. reflexivity.
Qed.

(** ** Search text *)

(** C6 (as amended).  [buildSearchText] is a function of the slot
    metadata alone: two elements with the same name, id, placeholder, class
    names and data-label, aria-label and title attributes give the same
    text for the same label and context, whatever else differs.  For
    metadata of Latin-1 units the text is the words of the nine parts, in
    the listed order, joined by single spaces, a word being a maximal run of
    ASCII letters and digits put in lower case: any other unit is not
    removed but ends a word.  The text consists of lower-case letters,
    digits and single spaces, with no space at either end. *)
Theorem buildSearchText_deterministic
  (element : FormFiller.Element) (label context : string) :
  (forall element',
     FormFiller.name element' = FormFiller.name element ->
     FormFiller.id element' = FormFiller.id element ->
     FormFiller.placeholder element' = FormFiller.placeholder element ->
     FormFiller.className element' = FormFiller.className element ->
     (forall a, In a ["data-label"; "aria-label"; "title"] ->
                FormFiller.getAttribute element' a = FormFiller.getAttribute element a) ->
     FormFiller.buildSearchText element' label context =
     FormFiller.buildSearchText element label context) /\
  FormFiller.buildSearchText element label context =
    join " "
      (flat_map Words.alnumWords
         [ FormFiller.name element; FormFiller.id element;
           FormFiller.placeholder element; label; context;
           FormFiller.className element;
           FormFiller.getAttribute element "data-label";
           FormFiller.getAttribute element "aria-label";
           FormFiller.getAttribute element "title" ]) /\
  Shape.normal_form (FormFiller.buildSearchText element label context) = true.
Proof.
  split; [| split].
  - intros element' Hn Hi Hp Hc Ha.
    unfold FormFiller.buildSearchText, FormFiller.searchParts.
    rewrite Hn, Hi, Hp, Hc.
    rewrite (Ha "data-label"), (Ha "aria-label"), (Ha "title") by (simpl; tauto).
    reflexivity.
  - apply WordFacts.buildSearchText_words.
  - apply SearchTextFacts.normalize_normal_form.
Qed.

Lemma buildSearchText_deterministic_witness :
  FormFiller.buildSearchText Examples.emailInputTyped "email" "" =
    FormFiller.buildSearchText Examples.emailInput "email" "" /\
  FormFiller.buildSearchText Examples.emailInput "email" "" =
    "email contact email field work" /\
  FormFiller.buildSearchText Cases.labelledInput "E-Mail:" "" =
    "user e mail first name e mail".
Proof.
  pose proof (buildSearchText_deterministic Examples.emailInput "email" "")
    as (Hsame & Hwords & _).
  pose proof (buildSearchText_deterministic Cases.labelledInput "E-Mail:" "")
    as (_ & Hwords' & _).
  split; [| split].
  - apply (Hsame Examples.emailInputTyped); try reflexivity.
    intros a [<- | [<- | [<- | []]]]; reflexivity.
  - rewrite Hwords; reflexivity.
  - rewrite Hwords'; reflexivity.
Defined.

(** C6 as stated fails: the units that are neither letters nor digits are
    not stripped.  For the name "user_e-mail" and the id "First-Name" the
    text is "user e mail first name"; with those units removed it would be
    "useremail firstname". *)
Lemma buildSearchText_separators_not_stripped :
  FormFiller.buildSearchText Cases.labelledInput "" "" = "user e mail first name" /\
  Words.strippedText
    (join " "
       (filter (fun part => truthy part && (0 <? length (trim part)))%nat
          (FormFiller.searchParts Cases.labelledInput "" ""))) =
    "useremail firstname" /\
  FormFiller.buildSearchText Cases.labelledInput "" "" <>
  Words.strippedText
    (join " "
       (filter (fun part => truthy part && (0 <? length (trim part)))%nat
          (FormFiller.searchParts Cases.labelledInput "" ""))).
Proof.
  split; [reflexivity | split; [reflexivity | discriminate]].
Qed.

(** * Further properties of the matcher *)

Module MatcherMore.
Import Terms Notions.

Lemma compat_bounds formFieldType dataType :
  0.2 <= getTypeCompatibility formFieldType dataType <= 1.
Proof.
  unfold getTypeCompatibility.
  change (compatibilityRow "input") with (Some [("*", 0.8)]).
  unfold compatibilityRow, compatibility. cbn [get].
  repeat match goal with
         | |- context [String.eqb ?a formFieldType] =>
             destruct (String.eqb a formFieldType)
         end;
    try destruct (inherited formFieldType);
    cbn [get];
    repeat match goal with
           | |- context [String.eqb ?a dataType] => destruct (String.eqb a dataType)
           end;
    split; vm_compute; discriminate.
Qed.

Lemma keywordScore_grows fieldText score keyword :
  score <= keywordScore fieldText score keyword.
Proof.
  unfold keywordScore. destruct (includes fieldText keyword); [| lra].
  destruct (Regex.test _ _); lra.
Qed.

Lemma abbrevScore_grows fieldText score abbrev :
  score <= abbrevScore fieldText score abbrev.
Proof. unfold abbrevScore. destruct (includes fieldText abbrev); lra. Qed.

Lemma fold_grows (step : Q -> string -> Q) (l : list string) :
  (forall q x, q <= step q x) -> forall q, q <= fold_left step l q.
Proof.
  intros Hstep. induction l as [| x l IH]; intros q; simpl; [lra |].
  apply Qle_trans with (step q x); [apply Hstep | apply IH].
Qed.

Lemma fold_keywords_none fieldText (l : list string) q :
  existsb (includes fieldText) l = false ->
  fold_left (keywordScore fieldText) l q = q.
Proof.
  revert q. induction l as [| x l IH]; intros q; simpl; [reflexivity |].
  intros H. apply orb_false_iff in H as [Hx Hl].
  unfold keywordScore at 2. rewrite Hx. now apply IH.
Qed.

Lemma fold_abbrevs_none fieldText (l : list string) q :
  existsb (includes fieldText) l = false ->
  fold_left (abbrevScore fieldText) l q = q.
Proof.
  revert q. induction l as [| x l IH]; intros q; simpl; [reflexivity |].
  intros H. apply orb_false_iff in H as [Hx Hl].
  unfold abbrevScore at 2. rewrite Hx. now apply IH.
Qed.

Lemma listFor_listOf table dataType :
  inherited dataType = false -> listFor table dataType = Returns (listOf table dataType).
Proof.
  intros H. unfold listFor, listOf. rewrite H. now destruct (get table dataType).
Qed.

(** The score on an own key, written out. *)
Lemma scoreOf_unfold formField dataType :
  inherited dataType = false ->
  scoreOf formField dataType =
  let fieldText := fieldTextOf formField in
  let s1 := fold_left (keywordScore fieldText) (listOf keywords dataType) 0 in
  let s2 := if includes fieldText (toLowerCase dataType) then s1 + 0.6 else s1 in
  let s3 := fold_left (abbrevScore fieldText) (listOf abbreviations dataType) s2 in
  let s4 := s3 * getTypeCompatibility (f_type formField) dataType in
  let s5 := if categoryMatches (fieldCategoryOf formField) dataType then s4 + 0.2 else s4 in
  let s6 := Qmin s5 1.0 in
  if categoryMatches (fieldCategoryOf formField) dataType then s6 + 0.3 else s6.
Proof.
  intros H. unfold scoreOf, boostedScore, calculateFieldMatchScore.
  rewrite !(listFor_listOf _ _ H). reflexivity.
Qed.

Lemma scoreOf_range formField dataType :
  inherited dataType = false ->
  0 <= scoreOf formField dataType <= 1.3 /\
  (categoryMatches (fieldCategoryOf formField) dataType = false ->
   scoreOf formField dataType <= 1) /\
  (categoryMatches (fieldCategoryOf formField) dataType = true ->
   0.5 <= scoreOf formField dataType) /\
  (evidence (fieldTextOf formField) dataType = false ->
   categoryMatches (fieldCategoryOf formField) dataType = false ->
   scoreOf formField dataType == 0).
Proof.
  intros H. rewrite (scoreOf_unfold formField dataType H). cbv zeta.
  set (fieldText := fieldTextOf formField).
  set (s1 := fold_left (keywordScore fieldText) (listOf keywords dataType) 0).
  set (s2 := if includes fieldText (toLowerCase dataType) then s1 + 0.6 else s1).
  set (s3 := fold_left (abbrevScore fieldText) (listOf abbreviations dataType) s2).
  set (c := getTypeCompatibility (f_type formField) dataType).
  assert (H1 : 0 <= s1)
    by (apply fold_grows; intros; apply keywordScore_grows).
  assert (H2 : 0 <= s2) by (unfold s2; destruct (includes _ _); lra).
  assert (H3 : 0 <= s3).
  { apply Qle_trans with s2; [assumption |].
    apply fold_grows. intros; apply abbrevScore_grows. }
  pose proof (compat_bounds (f_type formField) dataType) as [Hc _]. fold c in Hc.
  assert (H4 : 0 <= s3 * c) by (apply Qmult_le_0_compat; lra).
  assert (Hev : evidence fieldText dataType = false -> s3 * c == 0).
  { unfold evidence. intros He.
    apply orb_false_iff in He as [He Hab]. apply orb_false_iff in He as [Hkw Hname].
    unfold s3, s2, s1. rewrite Hname.
    rewrite (fold_keywords_none _ _ _ Hkw), (fold_abbrevs_none _ _ _ Hab). lra. }
  destruct (categoryMatches (fieldCategoryOf formField) dataType).
  - set (s5 := s3 * c + 0.2).
    assert (H5 : 0.2 <= s5) by (unfold s5; lra).
    pose proof (Q.le_min_r s5 1.0) as Hr.
    destruct (Q.min_spec s5 1.0) as [[_ Hm] | [_ Hm]];
      repeat split; try discriminate; try lra.
  - pose proof (Q.le_min_r (s3 * c) 1.0) as Hr.
    destruct (Q.min_spec (s3 * c) 1.0) as [[Hlt Hm] | [Hle Hm]].
    + repeat split; try discriminate; try lra.
      intros He _. rewrite Hm. now apply Hev.
    + repeat split; try discriminate; try lra.
      intros He _. specialize (Hev He). lra.
Qed.

(** *** The best entry *)

Lemma leading_step formField seen acc e :
  leading formField seen acc ->
  leading formField (seen ++ [e])%list (chooseStep formField acc e).
Proof.
  unfold leading, chooseStep, keepBest. intros H.
  destruct (Qgtb (scoreOf formField (fst e)) (snd acc) &&
            Qgtb (scoreOf formField (fst e)) 0.15) eqn:T.
  - apply andb_true_iff in T as [T1 T2]. apply Qgtb_true in T1, T2.
    cbn [fst snd spread bm_confidence bm_fieldType].
    split; [reflexivity | split; [assumption |]].
    exists seen, (snd e), []. split; [now destruct e | split; [reflexivity | split]].
    + intros x Hx. destruct (fst acc) as [b |].
      * destruct H as (Hs & Hgt & pre & data & post & -> & Hb & Hpre & Hpost).
        rewrite Hs in T1.
        apply in_app_or in Hx as [Hx | [<- | Hx]].
        -- specialize (Hpre x Hx). lra.
        -- cbn [fst]. rewrite Hb in T1 at 1. cbn [bm_confidence spread] in T1. exact T1.
        -- specialize (Hpost x Hx). lra.
      * destruct H as [_ Hall]. specialize (Hall x Hx). lra.
    + intros x [].
  - destruct (fst acc) as [b |].
    + destruct H as (Hs & Hgt & pre & data & post & -> & Hb & Hpre & Hpost).
      split; [assumption | split; [assumption |]].
      exists pre, data, (post ++ [e])%list.
      split; [now rewrite <- app_assoc | split; [assumption | split; [assumption |]]].
      intros x Hx. apply in_app_or in Hx as [Hx | [<- | []]]; [now apply Hpost |].
      rewrite Hs in T. apply andb_false_iff in T as [T | T]; apply Qgtb_false in T; lra.
    + destruct H as [H0 Hall]. split; [assumption |].
      intros x Hx. apply in_app_or in Hx as [Hx | [<- | []]]; [now apply Hall |].
      rewrite H0 in T. apply andb_false_iff in T as [T | T]; apply Qgtb_false in T; lra.
Qed.

Lemma leading_fold formField l : forall seen acc,
  leading formField seen acc ->
  leading formField (seen ++ l)%list (fold_left (chooseStep formField) l acc).
Proof.
  induction l as [| e l IH]; intros seen acc H; simpl.
  - now rewrite app_nil_r.
  - replace (seen ++ e :: l)%list with ((seen ++ [e]) ++ l)%list
      by (now rewrite <- app_assoc).
    apply IH. now apply leading_step.
Qed.

End MatcherMore.

Import Terms Notions MatcherMore.

(** ** Matcher: further properties *)

(** X1.  When [findBestMatch] returns a match, no entry of the extracted
    object scores higher: the match names an entry, its confidence is the
    score of that entry, and the score of every entry is at most that
    confidence.  (Which of several entries with the highest score is taken
    is not stated.) *)
Theorem findBestMatch_highest_score
  (formField : FormField) (extractedData : Extracted) (b : BestMatch) :
  findBestMatch formField extractedData = Returns (Some b) ->
  (exists data, In (bm_fieldType b, data) (entries extractedData)) /\
  bm_confidence b == scoreOf formField (bm_fieldType b) /\
  (forall e, In e (entries extractedData) ->
     scoreOf formField (fst e) <= bm_confidence b).
Proof.
  intros H.
  destruct (own_keyed extractedData) eqn:Hown;
    [| rewrite (findBestMatch_inherited _ _ Hown) in H; discriminate].
  rewrite (findBestMatch_own _ _ Hown) in H. injection H as H.
  pose proof (leading_fold formField (entries extractedData) [] (None, 0)) as L.
  cbn [app] in L. unfold leading in L at 2. rewrite H in L.
  destruct L as (_ & _ & pre & data & post & Hsplit & Hb & Hpre & Hpost);
    [split; [reflexivity | intros e []] |].
  split; [| split].
  - exists data. rewrite Hsplit. apply in_or_app. right. now left.
  - rewrite Hb at 1. cbn [spread bm_confidence]. reflexivity.
  - intros e He. rewrite Hsplit in He.
    apply in_app_or in He as [He | [<- | He]].
    + apply Qlt_le_weak. now apply Hpre.
    + cbn [fst]. rewrite Hb at 2. cbn [spread bm_confidence]. apply Qle_refl.
    + now apply Hpost.
Qed.

Lemma findBestMatch_highest_score_witness :
  (exists data, In ("phone", data) (entries Samples.contactData)) /\
  scoreOf Samples.contactField "phone" == scoreOf Samples.contactField "phone" /\
  (forall e, In e (entries Samples.contactData) ->
     scoreOf Samples.contactField (fst e) <= scoreOf Samples.contactField "phone").
Proof.
  apply (findBestMatch_highest_score Samples.contactField Samples.contactData
           (spread Samples.phoneEntry "phone" (scoreOf Samples.contactField "phone"))).
  vm_compute. reflexivity.
Defined.

(** X2.  The confidence of a returned match lies above 0.15 and at most at
    1.3.  It exceeds 1 only when the category of the field lists the chosen
    data type, and then it is at least 0.5. *)
Theorem findBestMatch_confidence_range
  (formField : FormField) (extractedData : Extracted) (b : BestMatch) :
  findBestMatch formField extractedData = Returns (Some b) ->
  0.15 < bm_confidence b <= 1.3 /\
  (categoryMatches (fieldCategoryOf formField) (bm_fieldType b) = false ->
   bm_confidence b <= 1) /\
  (categoryMatches (fieldCategoryOf formField) (bm_fieldType b) = true ->
   0.5 <= bm_confidence b).
Proof.
  intros H.
  destruct (own_keyed extractedData) eqn:Hown;
    [| rewrite (findBestMatch_inherited _ _ Hown) in H; discriminate].
  destruct (findBestMatch_some formField extractedData Hown b H)
    as (Hgt & data & Hin & Hb).
  assert (Hk : inherited (bm_fieldType b) = false)
    by (apply (own_keyed_entry extractedData (bm_fieldType b, data) Hown Hin)).
  destruct (scoreOf_range formField (bm_fieldType b) Hk) as ([_ Hhi] & Hno & Hyes & _).
  assert (Hc : bm_confidence b = scoreOf formField (bm_fieldType b))
    by (rewrite Hb at 1; reflexivity).
  rewrite Hc in *. tauto.
Qed.

Lemma findBestMatch_confidence_range_witness :
  0.15 < scoreOf Examples.emailField "email" <= 1.3 /\
  0.5 <= scoreOf Examples.emailField "email".
Proof.
  destruct (findBestMatch_confidence_range Examples.emailField Examples.emailOnly
              (spread Examples.emailEntry "email" (scoreOf Examples.emailField "email")))
    as (Hr & _ & Hyes).
  - vm_compute. reflexivity.
  - split; [exact Hr | apply Hyes; reflexivity].
Defined.

(** X3.  A field whose category lists an extracted data type always gets a
    match, of confidence 0.5 or more, whatever its text and its declared
    type: the category bonus 0.2 and the boost 0.3 alone pass the
    threshold. *)
Theorem findBestMatch_category_suffices
  (formField : FormField) (extractedData : Extracted)
  (dataType : string) (data : ExtractedValue) :
  own_keyed extractedData = true ->
  In (dataType, data) extractedData ->
  categoryMatches (fieldCategoryOf formField) dataType = true ->
  exists b, findBestMatch formField extractedData = Returns (Some b) /\
            0.5 <= bm_confidence b /\
            scoreOf formField dataType <= bm_confidence b.
Proof.
  intros Hown Hin Hcat.
  apply (proj2 (entries_in extractedData (dataType, data))) in Hin.
  assert (Hk : inherited dataType = false)
    by (apply (own_keyed_entry extractedData (dataType, data) Hown Hin)).
  destruct (scoreOf_range formField dataType Hk) as (_ & _ & Hyes & _).
  specialize (Hyes Hcat).
  destruct (findBestMatch formField extractedData) as [[b |] |] eqn:E.
  - exists b. split; [reflexivity |].
    assert (Hle : scoreOf formField dataType <= bm_confidence b).
    { rewrite (findBestMatch_own _ _ Hown) in E. injection E as E.
      pose proof (leading_fold formField (entries extractedData) [] (None, 0)) as L.
      cbn [app] in L. unfold leading in L at 2. rewrite E in L.
      destruct L as (_ & _ & pre & d & post & Heq & Hb & Hpre & Hpost);
        [split; [reflexivity | intros e []] |].
      rewrite Heq in Hin. apply in_app_or in Hin as [Hin | [Hin | Hin]].
      - apply Qlt_le_weak. apply (Hpre _ Hin).
      - injection Hin as <- _. rewrite Hb at 2. cbn [bm_confidence spread]. lra.
      - apply (Hpost _ Hin). }
    split; [lra | exact Hle].
  - exfalso.
    pose proof (proj1 (findBestMatch_none formField extractedData Hown) E _ Hin) as Hlow.
    cbn [fst] in Hlow. lra.
  - rewrite (findBestMatch_own _ _ Hown) in E. discriminate.
Qed.

Lemma findBestMatch_category_suffices_witness :
  exists b, findBestMatch Samples.bareField Samples.licenseData = Returns (Some b) /\
            0.5 <= bm_confidence b /\
            scoreOf Samples.bareField "licenseNumber" <= bm_confidence b.
Proof.
  apply (findBestMatch_category_suffices Samples.bareField Samples.licenseData
           "licenseNumber" (mkExtracted "MD-12345" 0.8 "p" "regex")).
  - reflexivity.
  - left. reflexivity.
  - reflexivity.
Defined.

(** X4.  A match needs a reason: the text of the field contains a keyword
    of the chosen data type, its name in lower case or one of its
    abbreviations, or the category of the field lists the data type.  The
    declared type of the field and the extracted value never make a match
    on their own. *)
Theorem findBestMatch_needs_evidence
  (formField : FormField) (extractedData : Extracted) (b : BestMatch) :
  findBestMatch formField extractedData = Returns (Some b) ->
  evidence (fieldTextOf formField) (bm_fieldType b) = true \/
  categoryMatches (fieldCategoryOf formField) (bm_fieldType b) = true.
Proof.
  intros H.
  destruct (own_keyed extractedData) eqn:Hown;
    [| rewrite (findBestMatch_inherited _ _ Hown) in H; discriminate].
  destruct (findBestMatch_some formField extractedData Hown b H)
    as (Hgt & data & Hin & Hb).
  assert (Hk : inherited (bm_fieldType b) = false)
    by (apply (own_keyed_entry extractedData (bm_fieldType b, data) Hown Hin)).
  destruct (scoreOf_range formField (bm_fieldType b) Hk) as (_ & _ & _ & Hzero).
  assert (Hc : bm_confidence b = scoreOf formField (bm_fieldType b))
    by (rewrite Hb at 1; reflexivity).
  destruct (evidence (fieldTextOf formField) (bm_fieldType b)); [now left |].
  destruct (categoryMatches (fieldCategoryOf formField) (bm_fieldType b)); [now right |].
  exfalso. specialize (Hzero eq_refl eq_refl). rewrite Hc in Hgt. lra.
Qed.

Lemma findBestMatch_needs_evidence_witness :
  evidence (fieldTextOf Samples.contactField) "phone" = true \/
  categoryMatches (fieldCategoryOf Samples.contactField) "phone" = true.
Proof.
  apply (findBestMatch_needs_evidence Samples.contactField Samples.contactData
           (spread Samples.phoneEntry "phone" (scoreOf Samples.contactField "phone"))).
  vm_compute. reflexivity.
Defined.

(** X5.  [findBestMatch] throws exactly when a key of the extracted object
    names a member every object inherits: the keyword table then yields
    that member instead of a list, and the loop over it fails.  On every
    other object it returns. *)
Theorem findBestMatch_throws_iff (formField : FormField) (extractedData : Extracted) :
  findBestMatch formField extractedData = Throws <-> own_keyed extractedData = false.
Proof.
  split.
  - intros H. destruct (own_keyed extractedData) eqn:Hown; [| reflexivity].
    rewrite (findBestMatch_own _ _ Hown) in H. discriminate.
  - apply findBestMatch_inherited.
Qed.

(** X6.  [generateFieldMappings] keeps the order of the form fields and
    gives each field at most one mapping: the identifiers, names and types
    of the mappings are those of the fields, with some fields left out. *)
Theorem generateFieldMappings_in_field_order
  (formFields : list FormField) (extractedData : Extracted) (ms : list Mapping) :
  generateFieldMappings formFields extractedData = Returns ms ->
  Subsequence (map (fun mp => (fieldId mp, fieldName mp, fieldType mp)) ms)
              (map (fun f => (f_id f, f_name f, f_type f)) formFields) /\
  (List.length ms <= List.length formFields)%nat.
Proof.
  revert ms. induction formFields as [| f fs IH]; intros ms; simpl.
  - intros [= <-]. split; [constructor | reflexivity].
  - destruct (findBestMatch f extractedData) as [bm |]; [| discriminate].
    cbn [bind].
    destruct (generateFieldMappings fs extractedData) as [ms' |]; [| discriminate].
    cbn [bind]. intros [= <-]. destruct (IH ms' eq_refl) as [Hs Hl].
    destruct bm as [b |]; cbn [pushMapping map List.length].
    + split; [now apply sub_keep | lia].
    + split; [now apply sub_skip | lia].
Qed.

Lemma generateFieldMappings_in_field_order_witness :
  Subsequence [("email", "email", "email"); ("email", "email", "email")]
              [("email", "email", "email"); ("dob", "dob", "date");
               ("email", "email", "email")] /\
  (2 <= 3)%nat.
Proof.
  apply (generateFieldMappings_in_field_order
           [Examples.emailField; Examples.dobField; Examples.emailField]
           Examples.emailOnly
           [mappingOf Examples.emailField
              (spread Examples.emailEntry "email" (scoreOf Examples.emailField "email"));
            mappingOf Examples.emailField
              (spread Examples.emailEntry "email" (scoreOf Examples.emailField "email"))]).
  vm_compute. reflexivity.
Defined.

(** ** Overall confidence: further properties *)

Module ConfidenceMore.
Import Notions.

Lemma count_cons mp mappings : count (mp :: mappings) == count mappings + 1.
Proof.
  unfold count. cbn [List.length]. rewrite Nat2Z.inj_succ, <- Z.add_1_r.
  now rewrite inject_Z_plus.
Qed.

Lemma count_pos mappings : mappings <> [] -> 0 < count mappings.
Proof.
  destruct mappings as [| mp mappings]; [contradiction |]. intros _.
  unfold count, Qlt. simpl. lia.
Qed.

Lemma fold_total (mappings : list Mapping) : forall start,
  fold_left (fun sum mapping => sum + mapping_confidence mapping) mappings start
  == start + total mappings.
Proof.
  induction mappings as [| mp mappings IH]; intros start; simpl; [lra |].
  rewrite IH. lra.
Qed.

Lemma overall_is_mean mappings :
  mappings <> [] ->
  calculateOverallConfidence mappings == total mappings / count mappings.
Proof.
  intros Hne. unfold calculateOverallConfidence, count.
  destruct mappings as [| mp mappings]; [contradiction |].
  cbn [List.length Nat.eqb]. rewrite fold_total.
  apply Qdiv_comp; [lra | reflexivity].
Qed.

Lemma total_above lo mappings :
  mappings <> [] ->
  (forall mp, In mp mappings -> lo < mapping_confidence mp) ->
  lo * count mappings < total mappings.
Proof.
  induction mappings as [| mp mappings IH]; intros Hne H; [contradiction |].
  rewrite count_cons. cbn [total fold_right]. fold (total mappings).
  pose proof (H mp (or_introl eq_refl)) as H1.
  destruct mappings as [| mp' mappings].
  - change (lo * (0 + 1) < mapping_confidence mp + 0). lra.
  - assert (I : lo * count (mp' :: mappings) < total (mp' :: mappings))
      by (apply IH; [discriminate | intros x Hx; apply H; now right]).
    lra.
Qed.

Lemma overall_above lo mappings :
  mappings <> [] ->
  (forall mp, In mp mappings -> lo < mapping_confidence mp) ->
  lo < calculateOverallConfidence mappings.
Proof.
  intros Hne H. rewrite (overall_is_mean mappings Hne).
  apply Qlt_shift_div_l; [now apply count_pos | now apply total_above].
Qed.

Lemma extracted_NoDup text : NoDup (keys (extractStructuredData text)).
Proof.
  assert (Hnd : NoDup (keys (strictPass text)))
    by (apply strictPassFrom_NoDup; constructor).
  apply (extractFlexiblePatterns_extends text (strictPass text) Hnd).
Qed.

End ConfidenceMore.

Import ConfidenceMore.

(** X8.  [processFormData] returns for every list of fields and every text.
    Every mapping it returns has a confidence above 0.15 and at most 1.3 and
    names an entry of the extracted object, whose value it carries; the
    overall confidence is 0 when there is no mapping and positive
    otherwise. *)
Theorem processFormData_confidence_range (fields : list FormField) (data : string) :
  exists p, processFormData fields data = Returns p /\
    p_extractedData p = extractStructuredData data /\
    (forall mp, In mp (p_mappings p) ->
       0.15 < mapping_confidence mp <= 1.3 /\
       exists v, get (p_extractedData p) (extractedFrom mp) = Some v /\
                 mappedValue mp = value v) /\
    (p_mappings p = [] -> p_confidence p = 0) /\
    (p_mappings p <> [] -> 0 < p_confidence p).
Proof.
  unfold processFormData.
  destruct (extractStructuredData_own_keyed data) as [Hown Hnd].
  destruct (generateFieldMappings_own _ Hown fields) as [ms Hms].
  rewrite Hms. cbn [bind]. eexists. split; [reflexivity |].
  cbn [p_extractedData p_mappings p_confidence].
  assert (Hall : forall mp, In mp ms ->
            0.15 < mapping_confidence mp <= 1.3 /\
            exists v, get (extractStructuredData data) (extractedFrom mp) = Some v /\
                      mappedValue mp = value v).
  { intros mp Hin.
    destruct (generateFieldMappings_in _ fields ms mp Hms Hin)
      as (f & b & _ & Hb & ->).
    cbn [mappingOf mapping_confidence extractedFrom mappedValue].
    destruct (findBestMatch_some f _ Hown b Hb) as (Hgt & d & Hd & Hspread).
    split.
    - split; [exact Hgt |].
      rewrite Hspread. cbn [spread bm_confidence].
      pose proof (own_keyed_entry _ _ Hown Hd) as Hk. cbn [fst] in Hk.
      destruct (scoreOf_range f (bm_fieldType b) Hk) as ([_ Hhi] & _). exact Hhi.
    - exists d. split.
      + apply (proj1 (entries_in _ _)) in Hd.
        apply (LearningFacts.get_in_iff _ _ _ (extracted_NoDup data)). exact Hd.
      + rewrite Hspread. reflexivity. }
  split; [reflexivity | split; [exact Hall | split]].
  - intros ->. reflexivity.
  - intros Hne.
    apply overall_above; [exact Hne |].
    intros mp Hin. destruct (Hall mp Hin) as [[H1 _] _]. lra.
Qed.

(** X9.  A blank text fills nothing: for an empty or white-space-only
    text and any list of fields, [processFormData] returns the empty
    extracted object, no mapping and the overall confidence 0. *)
Theorem processFormData_blank (fields : list FormField) (data : string) :
  all_chars is_ws data = true ->
  processFormData fields data = Returns (mkProcessed [] [] 0).
Proof.
  intros Hb. unfold processFormData.
  assert (He : extractStructuredData data = []).
  { unfold extractStructuredData, extractFlexiblePatterns.
    rewrite (nonEmptyLines_blank data Hb). cbn [fold_left].
    apply strictPassFrom_blank; [exact Hb | apply fieldPatterns_need_nonspace]. }
  rewrite He.
  assert (Hm : generateFieldMappings fields [] = Returns []).
  { induction fields as [| f fields IH]; [reflexivity |].
    cbn [generateFieldMappings]. rewrite IH. reflexivity. }
  rewrite Hm. reflexivity.
Qed.

Lemma processFormData_blank_witness :
  processFormData [Examples.emailField; Examples.dobField] Examples.blankText
  = Returns (mkProcessed [] [] 0).
Proof.
  apply (processFormData_blank [Examples.emailField; Examples.dobField] Examples.blankText).
  reflexivity.
Defined.

(** ** Where matches come from *)

Module StringFacts.
Import Terms.

Lemma append_assoc (a b c : string) : (a ++ b) ++ c = a ++ (b ++ c).
Proof. induction a as [| x a IH]; simpl; [reflexivity | now rewrite IH]. Qed.

Lemma append_nil_r (a : string) : a ++ "" = a.
Proof. induction a as [| x a IH]; simpl; [reflexivity | now rewrite IH]. Qed.

Lemma length_append (a b : string) : length (a ++ b) = (length a + length b)%nat.
Proof. induction a as [| x a IH]; simpl; [reflexivity | now rewrite IH]. Qed.

Lemma infix_refl (t : string) : infix t t.
Proof. exists "", "". now rewrite append_nil_r. Qed.

Lemma infix_trans (a b c : string) : infix a b -> infix b c -> infix a c.
Proof.
  intros (x & y & ->) (u & v & ->). exists (u ++ x), (y ++ v).
  now rewrite !append_assoc.
Qed.

Lemma tail_infix (s t : string) : tail_of s t -> infix s t.
Proof. intros (a & ->). exists a, "". now rewrite append_nil_r. Qed.

Lemma prefix_infix (a b : string) : infix a (a ++ b).
Proof. now exists "", b. Qed.

Lemma infix_cons (c : ascii) (v t : string) : infix v t -> infix v (String c t).
Proof. intros (a & b & ->). now exists (String c a), b. Qed.

Lemma tail_refl (t : string) : tail_of t t.
Proof. now exists "". Qed.

Lemma tail_trans (a b c : string) : tail_of a b -> tail_of b c -> tail_of a c.
Proof. intros (x & ->) (y & ->). exists (y ++ x). now rewrite append_assoc. Qed.

Lemma tail_cons (c : ascii) (s : string) : tail_of s (String c s).
Proof. now exists (String c ""). Qed.

Lemma substring_prefix (a b : string) : substring 0 (length a) (a ++ b) = a.
Proof.
  induction a as [| x a IH]; simpl.
  - now destruct b.
  - now rewrite IH.
Qed.

(** What a matcher consumed between two states, the later one a tail of
    the earlier. *)
Lemma consumed_tail (st st' : mstate) :
  tail_of (rest st') (rest st) ->
  exists a, consumed st st' = a /\ rest st = a ++ rest st'.
Proof.
  intros (a & Ha). exists a. split; [| exact Ha].
  unfold consumed. rewrite Ha, length_append.
  replace (length a + length (rest st') - length (rest st'))%nat with (length a) by lia.
  apply substring_prefix.
Qed.

Lemma trim_start_tail (s : string) : tail_of (trim_start s) s.
Proof.
  induction s as [| c s IH]; simpl; [apply tail_refl |].
  destruct (is_ws c); [| apply tail_refl].
  eapply tail_trans; [exact IH | apply tail_cons].
Qed.

Lemma trim_end_prefix (s : string) : exists b, s = trim_end s ++ b.
Proof.
  induction s as [| c s [b IH]]; simpl; [now exists "" |].
  destruct (trim_end s) as [| d t] eqn:E.
  - destruct (is_ws c).
    + now exists (String c s).
    + exists s. reflexivity.
  - exists b. simpl. now rewrite IH at 1.
Qed.

Lemma trim_infix (s : string) : infix (trim s) s.
Proof.
  unfold trim. apply infix_trans with (trim_start s).
  - destruct (trim_end_prefix (trim_start s)) as [b Hb].
    rewrite Hb at 2. apply prefix_infix.
  - apply tail_infix, trim_start_tail.
Qed.

Lemma split_on_shape (sep : ascii) (s : string) :
  exists p ps, split_on sep s = p :: ps /\
               (exists b, s = p ++ b) /\
               forall q, In q ps -> infix q s.
Proof.
  induction s as [| c s (p & ps & Heq & [b Hb] & Hps)]; simpl.
  - exists "", []. split; [reflexivity | split; [now exists "" | intros q []]].
  - destruct (Ascii.eqb c sep).
    + exists "", (split_on sep s). split; [reflexivity | split].
      * now exists (String c s).
      * intros q Hq. apply infix_cons. rewrite Heq in Hq.
        destruct Hq as [<- | Hq]; [| now apply Hps].
        rewrite Hb. apply prefix_infix.
    + rewrite Heq. exists (String c p), ps. split; [reflexivity | split].
      * exists b. simpl. now rewrite Hb at 1.
      * intros q Hq. now apply infix_cons, Hps.
Qed.

Lemma split_on_infix (sep : ascii) (s piece : string) :
  In piece (split_on sep s) -> infix piece s.
Proof.
  destruct (split_on_shape sep s) as (p & ps & -> & [b Hb] & Hps).
  intros [<- | H]; [| now apply Hps].
  rewrite Hb. apply prefix_infix.
Qed.

Lemma starts_with_prefix (p s : string) :
  starts_with p s = true <-> exists b, s = p ++ b.
Proof.
  revert s. induction p as [| a p IH]; intros s; simpl.
  - split; [intros _; now exists s | reflexivity].
  - destruct s as [| c s].
    + split; [discriminate | intros [b Hb]; discriminate].
    + rewrite andb_true_iff, IH. split.
      * intros [Ha [b ->]]. apply Ascii.eqb_eq in Ha. subst. now exists b.
      * intros [b [= -> ->]]. split; [apply Ascii.eqb_refl | now exists b].
Qed.

Lemma includes_infix (s p : string) : includes s p = true <-> infix p s.
Proof.
  induction s as [| c s IH].
  - cbn [includes]. rewrite orb_false_r, starts_with_prefix. split.
    + intros [b Hb]. now exists "", b.
    + intros (a & b & H). destruct a as [| x a]; [now exists b | discriminate].
  - cbn [includes]. rewrite orb_true_iff, starts_with_prefix, IH. split.
    + intros [[b Hb] | H]; [now exists "", b | now apply infix_cons].
    + intros (a & b & H). destruct a as [| x a].
      * left. now exists b.
      * right. injection H as _ H. now exists a, b.
Qed.

End StringFacts.

Module RegexFacts.
Import Terms Notions StringFacts.

Section InText.
Variable t : string.

Lemma inside_clear gs st : inside t st -> inside t (clear_caps gs st).
Proof.
  intros [Ht Hc]. split; [exact Ht |].
  intros i v Hin. cbn [clear_caps caps] in Hin.
  apply filter_In in Hin as [Hin _]. now apply (Hc i v).
Qed.

Section RepeatForward.
Variable body : mstate -> (mstate -> option mstate) -> option mstate.
Variable gs : list nat.
Hypothesis body_forward : forward t body.

Lemma optional_forward fuel : forall mx, forward t (fun st k => optional body gs k fuel mx st).
Proof.
  induction fuel as [| fuel IH]; intros mx st k x Hst; cbn [optional].
  - intros H. exists st. split; [exact Hst | split; [apply tail_refl | exact H]].
  - destruct (max_is_zero mx).
    + intros H. exists st. split; [exact Hst | split; [apply tail_refl | exact H]].
    + destruct (body (clear_caps gs st) _) as [y |] eqn:E.
      * intros [= ->].
        destruct (body_forward _ _ _ (inside_clear gs st Hst) E)
          as (st1 & H1 & T1 & K1).
        destruct (length (rest st1) <? length (rest st))%nat; [| discriminate].
        destruct (IH (dec_max mx) st1 k x H1 K1) as (st' & H' & T' & K').
        exists st'. split; [exact H' | split; [| exact K']].
        eapply tail_trans; [exact T' | exact T1].
      * intros H. exists st. split; [exact Hst | split; [apply tail_refl | exact H]].
Qed.

Lemma required_forward n : forall mx, forward t (fun st k => required body gs k n mx st).
Proof.
  induction n as [| n IH]; intros mx st k x Hst; cbn [required].
  - apply (optional_forward (length (rest st)) mx st k x Hst).
  - destruct (max_is_zero mx).
    + intros H. exists st. split; [exact Hst | split; [apply tail_refl | exact H]].
    + intros E.
      destruct (body_forward _ _ _ (inside_clear gs st Hst) E) as (st1 & H1 & T1 & K1).
      destruct (IH (dec_max mx) st1 k x H1 K1) as (st' & H' & T' & K').
      exists st'. split; [exact H' | split; [| exact K']].
      eapply tail_trans; [exact T' | exact T1].
Qed.

End RepeatForward.

Lemma m_forward ic (r : re) : forward t (m ic r).
Proof.
  induction r as [| neg items | a IHa b IHb | a IHa b IHb | mn mx a IHa | i a IHa | | | p];
    intros st k x Hst; cbn [m].
  - intros H. exists st. split; [exact Hst | split; [apply tail_refl | exact H]].
  - destruct (rest st) as [| c tl] eqn:Er; [discriminate |].
    destruct (atom_match ic neg items c); [| discriminate].
    intros H. exists (mkState (Some c) tl (caps st)).
    split; [| split; [apply tail_cons | exact H]].
    destruct Hst as [Ht Hc]. split; [| exact Hc].
    cbn [rest]. rewrite Er in Ht. eapply tail_trans; [apply tail_cons | exact Ht].
  - intros H. destruct (IHa _ _ _ Hst H) as (st1 & H1 & T1 & K1).
    destruct (IHb _ _ _ H1 K1) as (st' & H' & T' & K').
    exists st'. split; [exact H' | split; [| exact K']].
    eapply tail_trans; [exact T' | exact T1].
  - destruct (m ic a st k) as [y |] eqn:E.
    + intros [= ->]. apply (IHa _ _ _ Hst E).
    + apply (IHb _ _ _ Hst).
  - apply (required_forward (m ic a) (groups_of a) IHa mn mx st k x Hst).
  - intros H. destruct (IHa _ _ _ Hst H) as (st1 & H1 & T1 & K1).
    exists (set_cap i (consumed st st1) st1).
    split; [| split; [exact T1 | exact K1]].
    destruct H1 as [Ht1 Hc1]. split; [exact Ht1 |].
    intros j v [[= <- <-] | Hin]; [| now apply (Hc1 j v)].
    destruct (consumed_tail st st1 T1) as (a' & -> & Ha).
    destruct Hst as [[pre Hpre] _]. exists pre, (rest st1).
    now rewrite Hpre, Ha.
  - destruct (prev st); [discriminate |].
    intros H. exists st. split; [exact Hst | split; [apply tail_refl | exact H]].
  - destruct (rest st) eqn:Er; [| discriminate].
    intros H. exists st. split; [exact Hst | split; [rewrite Er; apply tail_refl | exact H]].
  - destruct (Bool.eqb p (at_word_boundary st)); [| discriminate].
    intros H. exists st. split; [exact Hst | split; [apply tail_refl | exact H]].
Qed.

Lemma get_cap_in cs i v : get_cap cs i = Some v -> In (i, v) cs.
Proof.
  unfold get_cap. destruct (find _ cs) as [[j w] |] eqn:E; [| discriminate].
  intros [= <-]. apply find_some in E as [Hin Hj]. cbn [fst] in Hj.
  apply Nat.eqb_eq in Hj. now subst.
Qed.

Lemma inside_start p s : tail_of s t -> inside t (mkState p s []).
Proof. intros Hs. split; [exact Hs | intros i v []]. Qed.

Lemma result_infix ic r n p s idx st' :
  tail_of s t ->
  m ic r (mkState p s []) Some = Some st' ->
  forall i v, capture (result_of n idx (mkState p s []) st') i = Some v -> infix v t.
Proof.
  intros Hs E i v.
  destruct (m_forward ic r _ _ _ (inside_start p s Hs) E)
    as (st1 & [Ht1 Hc1] & T1 & [= ->]).
  destruct i as [| j]; cbn [capture result_of whole groups].
  - intros [= <-]. destruct (consumed_tail _ _ T1) as (a & -> & Ha).
    cbn [rest] in Ha. destruct Hs as [pre Hpre]. exists pre, (rest st').
    now rewrite Hpre, Ha.
  - intros Hn.
    assert (Hin : In (Some v) (map (fun i => get_cap (caps st') i) (seq 1 n))).
    { rewrite <- Hn. apply nth_In.
      destruct (Nat.lt_ge_cases j
                  (List.length (map (fun i => get_cap (caps st') i) (seq 1 n))))
        as [Hlt | Hge]; [exact Hlt |].
      rewrite (nth_overflow _ _ Hge) in Hn. discriminate. }
    apply in_map_iff in Hin as (g & Hg & _).
    apply (Hc1 g v). now apply get_cap_in.
Qed.

(** The whole match and every capture of a search in a tail of the text
    occur in the text. *)
Lemma search_infix ic r n : forall s p idx mr,
  tail_of s t ->
  search ic r n p s idx = Some mr ->
  forall i v, capture mr i = Some v -> infix v t.
Proof.
  induction s as [| c s IH]; intros p idx mr Hs; cbn [search].
  - destruct (m ic r (mkState p "" []) Some) as [st' |] eqn:E; [| discriminate].
    intros [= <-]. now apply (result_infix ic r n p "" idx st').
  - destruct (m ic r (mkState p (String c s) []) Some) as [st' |] eqn:E.
    + intros [= <-]. now apply (result_infix ic r n p (String c s) idx st').
    + apply IH. eapply tail_trans; [apply tail_cons | exact Hs].
Qed.

End InText.

(** [match[i]], when defined, occurs in the text matched. *)
Lemma exec_infix (p : RegExp) (text : string) (mr : MatchResult) (i : nat) (v : string) :
  exec p text = Some mr -> capture mr i = Some v -> infix v text.
Proof.
  unfold exec. destruct (parse (source p)) as [[r n] |]; [| discriminate].
  intros H. apply (search_infix text _ _ _ _ _ _ _ (tail_refl text) H).
Qed.

End RegexFacts.

(** ** Extractor: further properties *)

Module ExtractorMore.
Import Terms Notions StringFacts RegexFacts.

Lemma every_set {V : Type} (Q : string -> V -> Prop) o k v :
  every Q o -> Q k v -> every Q (set o k v).
Proof.
  intros Ho Hv k' v'. destruct (string_dec k k') as [-> | Hne].
  - rewrite get_set_same. now intros [= <-].
  - rewrite get_set_other by assumption. apply Ho.
Qed.

Lemma firstMatch_some text (patterns : list RegExp) (v : ExtractedValue) :
  firstMatch text patterns = Some v ->
  exists p mt, In p patterns /\ exec p text = Some mt /\ v = regexEntry p mt.
Proof.
  induction patterns as [| p ps IH]; simpl; [discriminate |].
  destruct (exec p text) as [mt |] eqn:E.
  - intros [= <-]. exists p, mt. tauto.
  - intros H. destruct (IH H) as (q & mt & Hq & Hm & Hv). exists q, mt. tauto.
Qed.

Section EntryInvariant.
Variable text : string.
Variable Q : string -> ExtractedValue -> Prop.

Lemma strictPassFrom_every (table : list (string * list RegExp)) :
  (forall ft pats p mt, In (ft, pats) table -> In p pats -> exec p text = Some mt ->
                        Q ft (regexEntry p mt)) ->
  forall ex, every Q ex -> every Q (strictPassFrom table text ex).
Proof.
  induction table as [| [ft pats] table IH]; intros HQ ex Hex; [exact Hex |].
  rewrite strictPassFrom_cons. apply IH.
  - intros ft' pats' p mt Hin. apply HQ. now right.
  - destruct (firstMatch text pats) as [v |] eqn:E; [| exact Hex].
    apply every_set; [exact Hex |].
    destruct (firstMatch_some text pats v E) as (p & mt & Hp & Hm & ->).
    apply (HQ ft pats p mt); [now left | assumption | assumption].
Qed.

Hypothesis colon_ok : forall line mt fieldMapping,
  In line (nonEmptyLines text) ->
  exec colonPattern line = Some mt ->
  ((0 <? length (trim (group mt 2))) && (length (trim (group mt 2)) <? 200))%nat = true ->
  getFieldMapping (toLowerCase (trim (group mt 1))) = Some fieldMapping ->
  Q fieldMapping (flexibleEntry (trim (group mt 2)) 0.7 "flexible_colon").

Hypothesis email_ok : forall line mt,
  In line (nonEmptyLines text) ->
  exec emailPattern line = Some mt ->
  Q "email" (flexibleEntry (group mt 1) 0.9 "standalone_email").

Hypothesis phone_ok : forall line mt,
  In line (nonEmptyLines text) ->
  exec phonePattern line = Some mt ->
  (10 <=? length (filter_chars is_digit (group mt 1)))%nat = true ->
  Q "phone" (flexibleEntry (group mt 1) 0.8 "standalone_phone").

Lemma flexibleLine_every line ex :
  In line (nonEmptyLines text) -> every Q ex -> every Q (flexibleLine ex line).
Proof.
  intros Hl Hex. unfold flexibleLine.
  assert (H1 : every Q (flexibleColon line ex)).
  { unfold flexibleColon.
    destruct (exec colonPattern line) as [mt |] eqn:E; [| exact Hex].
    destruct (_ && _) eqn:B; [| exact Hex].
    destruct (getFieldMapping _) as [fm |] eqn:G; [| exact Hex].
    destruct (negb (has ex fm)); [| exact Hex].
    apply every_set; [exact Hex |]. now apply (colon_ok line mt fm). }
  assert (H2 : every Q (flexibleEmail line (flexibleColon line ex))).
  { unfold flexibleEmail.
    destruct (negb (has (flexibleColon line ex) "email")); [| exact H1].
    destruct (exec emailPattern line) as [mt |] eqn:E; [| exact H1].
    apply every_set; [exact H1 |]. now apply (email_ok line mt). }
  unfold flexiblePhone.
  destruct (negb (has (flexibleEmail line (flexibleColon line ex)) "phone")); [| exact H2].
  destruct (exec phonePattern line) as [mt |] eqn:E; [| exact H2].
  match goal with |- context [Nat.leb ?a ?b] => destruct (Nat.leb a b) eqn:D end;
    [| exact H2].
  apply every_set; [exact H2 |]. now apply (phone_ok line mt).
Qed.

Lemma extractFlexiblePatterns_every ex :
  every Q ex -> every Q (extractFlexiblePatterns text ex).
Proof.
  unfold extractFlexiblePatterns.
  assert (Hl : forall l, In l (nonEmptyLines text) -> In l (nonEmptyLines text))
    by auto.
  revert ex Hl. generalize (nonEmptyLines text) at 1 3.
  intros lines. induction lines as [| l ls IH]; intros ex Hl Hex; simpl; [exact Hex |].
  apply IH; [intros x Hx; apply Hl; now right |].
  apply flexibleLine_every; [apply Hl; now left | exact Hex].
Qed.

Hypothesis library_ok : forall ft pats p mt,
  In (ft, pats) fieldPatterns -> In p pats -> exec p text = Some mt ->
  Q ft (regexEntry p mt).

Lemma extractStructuredData_every : every Q (extractStructuredData text).
Proof.
  unfold extractStructuredData. apply extractFlexiblePatterns_every.
  unfold strictPass. apply strictPassFrom_every; [exact library_ok |].
  intros k v. discriminate.
Qed.

End EntryInvariant.

Lemma nonEmptyLines_infix text line : In line (nonEmptyLines text) -> infix line text.
Proof.
  unfold nonEmptyLines. rewrite filter_In, in_map_iff.
  intros [(piece & <- & Hp) _].
  eapply infix_trans; [apply trim_infix | now apply (split_on_infix LF)].
Qed.

Lemma group_infix p text mt i :
  exec p text = Some mt -> infix (group mt i) text.
Proof.
  intros H. unfold group. destruct (capture mt i) as [s |] eqn:E.
  - apply (exec_infix p text mt i s H E).
  - now exists "", text.
Qed.

Lemma matchedValue_infix p text mt :
  exec p text = Some mt -> infix (matchedValue mt) text.
Proof.
  intros H. unfold matchedValue.
  assert (Hw : infix (trim (whole mt)) text).
  { eapply infix_trans; [apply trim_infix |].
    apply (exec_infix p text mt 0 (whole mt) H eq_refl). }
  destruct (capture mt 1) as [s |] eqn:E; [| exact Hw].
  destruct (truthy s); [| exact Hw].
  eapply infix_trans; [apply trim_infix | apply (exec_infix p text mt 1 s H E)].
Qed.

Lemma trim_trimmed s : trimmed (trim s) = true.
Proof.
  unfold trimmed, trim.
  rewrite SearchTextFacts.trim_end_ends.
  rewrite SearchTextFacts.trim_end_starts by apply SearchTextFacts.trim_start_starts.
  reflexivity.
Qed.

Lemma pattern_confidence_range p mt :
  0.45 <= calculatePatternConfidence p mt <= 1.
Proof.
  unfold calculatePatternConfidence.
  destruct (includes (source p) "\d"), (includes (source p) "+"),
    (includes (source p) "[A-Z]"), (includes (flags p) "i"),
    (group1_longer_than 3 mt), (group1_longer_than 10 mt);
    split; vm_compute; discriminate.
Qed.

Lemma lower_char_not_upper (c : ascii) : is_upper (lower_char c) = false.
Proof. destruct c as [[] [] [] [] [] [] [] []]; vm_compute; reflexivity. Qed.

Lemma toLowerCase_no_upper (s : string) :
  all_chars (fun c => negb (is_upper c)) (toLowerCase s) = true.
Proof.
  induction s as [| c s IH]; simpl; [reflexivity |].
  now rewrite lower_char_not_upper, IH.
Qed.

(** The labels in lower case that name an inherited member. *)
Lemma inherited_lower (s : string) :
  inherited (toLowerCase s) = true ->
  toLowerCase s = "constructor" \/ toLowerCase s = "__proto__".
Proof.
  pose proof (toLowerCase_no_upper s) as Hl.
  generalize dependent (toLowerCase s). intros k Hl.
  unfold inherited, prototype_members. cbn [existsb].
  rewrite !orb_true_iff.
  intros H. repeat destruct H as [H | H]; try discriminate;
    apply String.eqb_eq in H; subst k;
    first [now left | now right | (vm_compute in Hl; discriminate)].
Qed.

Lemma getFieldMapping_lower (s fieldMapping : string) :
  getFieldMapping (toLowerCase s) = Some fieldMapping ->
  In fieldMapping (keys fieldPatterns) \/ In fieldMapping strayKeys.
Proof.
  unfold getFieldMapping.
  destruct (get mappings (toLowerCase s)) as [fm |] eqn:E.
  - intros [= <-]. left. apply get_in in E.
    assert (Hall : forallb (fun e => existsb (String.eqb (snd e)) (keys fieldPatterns))
                     mappings = true) by (vm_compute; reflexivity).
    rewrite forallb_forall in Hall. specialize (Hall _ E). cbn [snd] in Hall.
    apply existsb_exists in Hall as (x & Hx & Heq). apply String.eqb_eq in Heq.
    now subst.
  - destruct (inherited (toLowerCase s)) eqn:I; [| discriminate].
    intros [= <-]. right.
    destruct (inherited_lower s I) as [-> | ->]; [now left | right; now left].
Qed.

End ExtractorMore.

Import StringFacts RegexFacts ExtractorMore.

(** X10.  Every value of the extracted object is copied out of the text: it
    occurs in the text as a run of consecutive units, for the strict pass
    (a trimmed capture or match) and the flexible pass (a trimmed capture of
    a trimmed line) alike.  The extractor invents no unit and joins no two
    places of the text. *)
Theorem extractStructuredData_values_from_text (text k : string) (v : ExtractedValue) :
  get (extractStructuredData text) k = Some v -> includes text (value v) = true.
Proof.
  revert k v.
  apply (extractStructuredData_every text
           (fun _ v => includes text (value v) = true)).
  - intros line mt fm Hl Hm _ _. apply includes_infix. cbn [value flexibleEntry].
    eapply infix_trans; [apply trim_infix |].
    eapply infix_trans; [apply (group_infix _ _ _ 2 Hm) | now apply nonEmptyLines_infix].
  - intros line mt Hl Hm. apply includes_infix. cbn [value flexibleEntry].
    eapply infix_trans; [apply (group_infix _ _ _ 1 Hm) | now apply nonEmptyLines_infix].
  - intros line mt Hl Hm _. apply includes_infix. cbn [value flexibleEntry].
    eapply infix_trans; [apply (group_infix _ _ _ 1 Hm) | now apply nonEmptyLines_infix].
  - intros ft pats p mt _ _ Hm. apply includes_infix. cbn [value regexEntry].
    apply (matchedValue_infix p text mt Hm).
Qed.

Lemma extractStructuredData_values_from_text_witness :
  includes Examples.profileText "n/a" = true.
Proof.
  apply (extractStructuredData_values_from_text Examples.profileText "fax"
           (flexibleEntry "n/a" 0.7 "flexible_colon")).
  vm_compute. reflexivity.
Defined.

(** X11.  Every entry of the extracted object has one of four origins: a
    pattern of the library listed under its key that matches the text (method
    "regex", the confidence computed from the pattern); a labelled line
    (confidence 0.7, a trimmed value of 1 to 199 units); a standalone email
    under the key "email" (confidence 0.9); or a standalone phone number
    under the key "phone" (confidence 0.8, at least ten digits in the value).
    In every case the confidence lies between 0.45 and 1. *)
Theorem extractStructuredData_entry_origin (text k : string) (v : ExtractedValue) :
  get (extractStructuredData text) k = Some v ->
  (fromLibrary text k v \/ fromLabelledLine v \/
   fromStandaloneEmail k v \/ fromStandalonePhone k v) /\
  0.45 <= confidence v <= 1.
Proof.
  revert k v.
  apply (extractStructuredData_every text
           (fun k v => (fromLibrary text k v \/ fromLabelledLine v \/
                        fromStandaloneEmail k v \/ fromStandalonePhone k v) /\
                       0.45 <= confidence v <= 1)).
  - intros line mt fm _ _ Hlen _. split; [| split; vm_compute; discriminate].
    right. left. apply andb_true_iff in Hlen as [H1 H2].
    apply Nat.ltb_lt in H1, H2.
    split; [reflexivity | split; [apply trim_trimmed | cbn [value flexibleEntry]; lia]].
  - intros line mt _ _. split; [| split; vm_compute; discriminate].
    right. right. left. split; reflexivity.
  - intros line mt _ _ Hd. split; [| split; vm_compute; discriminate].
    right. right. right. apply Nat.leb_le in Hd.
    split; [reflexivity | split; [reflexivity | exact Hd]].
  - intros ft pats p mt Hin Hp Hm. split; [| apply pattern_confidence_range].
    left. exists pats, p, mt.
    split; [| tauto].
    now apply (LearningFacts.get_in_iff fieldPatterns ft pats fieldPatterns_keys_NoDup).
Qed.

Lemma extractStructuredData_entry_origin_witness :
  (fromLibrary Examples.profileText "fax" (flexibleEntry "n/a" 0.7 "flexible_colon") \/
   fromLabelledLine (flexibleEntry "n/a" 0.7 "flexible_colon") \/
   fromStandaloneEmail "fax" (flexibleEntry "n/a" 0.7 "flexible_colon") \/
   fromStandalonePhone "fax" (flexibleEntry "n/a" 0.7 "flexible_colon")) /\
  0.45 <= 0.7 <= 1.
Proof.
  apply (extractStructuredData_entry_origin Examples.profileText "fax"
           (flexibleEntry "n/a" 0.7 "flexible_colon")).
  vm_compute. reflexivity.
Defined.

(** X12.  The keys of the extracted object come from a closed vocabulary:
    the 24 field types of the pattern library and, besides, only the two
    string forms of inherited members that a line labelled "constructor" or
    "__proto__" (in any case) stores its value under. *)
Theorem extractStructuredData_key_vocabulary (text k : string) :
  In k (keys (extractStructuredData text)) ->
  In k (keys fieldPatterns) \/ In k strayKeys.
Proof.
  intros Hin.
  destruct (get (extractStructuredData text) k) as [v |] eqn:E;
    [| now apply get_none_not_key in E].
  clear Hin. revert k v E.
  apply (extractStructuredData_every text
           (fun k _ => In k (keys fieldPatterns) \/ In k strayKeys)).
  - intros line mt fm _ _ _ Hg. apply (getFieldMapping_lower _ _ Hg).
  - intros line mt _ _. left. vm_compute. tauto.
  - intros line mt _ _ _. left. vm_compute. tauto.
  - intros ft pats p mt Hin _ _. left.
    unfold keys. apply in_map_iff. now exists (ft, pats).
Qed.

Lemma extractStructuredData_key_vocabulary_witness :
  In "function Object() { [native code] }" (keys fieldPatterns) \/
  In "function Object() { [native code] }" strayKeys.
Proof.
  apply (extractStructuredData_key_vocabulary Samples.constructorText
           "function Object() { [native code] }").
  vm_compute. tauto.
Defined.

(** ** LearningSystem and BackgroundService: further properties *)

Module RecorderFacts.
Import LearningSystem Recorder.

Lemma inject_nat_S (n : nat) :
  inject_Z (Z.of_nat (S n)) == inject_Z (Z.of_nat n) + 1.
Proof. rewrite Nat2Z.inj_succ, <- Z.add_1_r. now rewrite inject_Z_plus. Qed.

Lemma inject_nat_nonneg (n : nat) : 0 <= inject_Z (Z.of_nat n).
Proof. unfold Qle. simpl. lia. Qed.

Lemma inject_nat_le (a b : nat) :
  (a <= b)%nat <-> inject_Z (Z.of_nat a) <= inject_Z (Z.of_nat b).
Proof. rewrite <- Zle_Qle. lia. Qed.

Lemma inject_nat_eq (a b : nat) :
  a = b <-> inject_Z (Z.of_nat a) == inject_Z (Z.of_nat b).
Proof. rewrite inject_Z_injective. lia. Qed.

Lemma correct_le (l : list InteractionRecord) :
  (List.length (filter r_wasCorrect l) <= List.length l)%nat.
Proof. apply filter_length_le. Qed.

Lemma correct_all (l : list InteractionRecord) :
  List.length (filter r_wasCorrect l) = List.length l <-> forallb r_wasCorrect l = true.
Proof.
  induction l as [| r l IH]; simpl; [tauto |].
  pose proof (correct_le l). destruct (r_wasCorrect r); simpl.
  - rewrite <- IH. lia.
  - split; [lia | discriminate].
Qed.

Lemma correct_none (l : list InteractionRecord) :
  List.length (filter r_wasCorrect l) = 0%nat <-> existsb r_wasCorrect l = false.
Proof.
  induction l as [| r l IH]; simpl; [tauto |].
  destruct (r_wasCorrect r); simpl; [split; [lia | discriminate] | exact IH].
Qed.

(** The accuracy of a non-empty list as a quotient. *)
Lemma accuracy_quotient (l : list InteractionRecord) :
  l <> [] ->
  calculateSiteAccuracy l =
  inject_Z (Z.of_nat (List.length (filter r_wasCorrect l))) /
  inject_Z (Z.of_nat (List.length l)) /\
  0 < inject_Z (Z.of_nat (List.length l)).
Proof.
  destruct l as [| r l]; [contradiction |]. intros _. split; [reflexivity |].
  unfold Qlt. simpl. lia.
Qed.

Lemma quotient_le (a b c d : Q) :
  0 < b -> 0 < d -> a * d <= c * b -> a / b <= c / d.
Proof.
  intros Hb Hd H. apply Qle_shift_div_r; [exact Hb |].
  unfold Qdiv. rewrite <- Qmult_assoc, (Qmult_comm (/ d)), Qmult_assoc.
  apply Qle_shift_div_l; assumption.
Qed.

Lemma filter_push (r : InteractionRecord) (l : list InteractionRecord) :
  List.length (filter r_wasCorrect (l ++ [r])) =
  (List.length (filter r_wasCorrect l) + if r_wasCorrect r then 1 else 0)%nat.
Proof.
  rewrite filter_app, length_app. simpl. now destruct (r_wasCorrect r).
Qed.

Lemma accuracy_range (l : list InteractionRecord) :
  0 <= calculateSiteAccuracy l <= 1.
Proof.
  destruct l as [| r l]; [split; vm_compute; discriminate |].
  destruct (accuracy_quotient (r :: l)) as [-> Hpos]; [discriminate |].
  pose proof (correct_le (r :: l)) as Hle. apply inject_nat_le in Hle.
  pose proof (inject_nat_nonneg (List.length (filter r_wasCorrect (r :: l)))) as H0.
  split.
  - apply Qle_shift_div_l; [exact Hpos | lra].
  - apply Qle_shift_div_r; [exact Hpos | lra].
Qed.

End RecorderFacts.

Section Learning.
Import LearningSystem Recorder RecorderFacts.

(** X13.  The site accuracy is a fraction between 0 and 1.  It is 1 exactly
    when the list is not empty and every interaction was correct, and 0
    exactly when no interaction was correct, the empty list included. *)
Theorem calculateSiteAccuracy_range (interactions : list InteractionRecord) :
  0 <= calculateSiteAccuracy interactions <= 1 /\
  (calculateSiteAccuracy interactions == 1 <->
   interactions <> [] /\ forallb r_wasCorrect interactions = true) /\
  (calculateSiteAccuracy interactions == 0 <->
   existsb r_wasCorrect interactions = false).
Proof.
  split; [apply accuracy_range |].
  destruct interactions as [| r l].
  - split; split; try reflexivity; try discriminate.
    intros [H _]. now contradiction H.
  - destruct (accuracy_quotient (r :: l)) as [-> Hpos]; [discriminate |].
    rewrite <- correct_all, <- correct_none.
    rewrite (inject_nat_eq _ (List.length (r :: l))), (inject_nat_eq _ 0%nat).
    set (c := inject_Z (Z.of_nat (List.length (filter r_wasCorrect (r :: l))))) in *.
    set (n := inject_Z (Z.of_nat (List.length (r :: l)))) in *.
    change (inject_Z (Z.of_nat 0)) with 0.
    assert (Hn : ~ n == 0) by lra.
    split; split.
    + intros H. split; [discriminate |].
      rewrite <- (Qmult_div_r c n Hn), H. lra.
    + intros [_ H]. rewrite H. now apply Qmult_inv_r.
    + intros H. rewrite <- (Qmult_div_r c n Hn), H. lra.
    + intros H. rewrite H. unfold Qdiv. lra.
Qed.

(** X14.  Recording one more interaction moves the accuracy the right way:
    a correct one never lowers it and an incorrect one never raises it. *)
Theorem calculateSiteAccuracy_push
  (interactions : list InteractionRecord) (r : InteractionRecord) :
  (r_wasCorrect r = true ->
   calculateSiteAccuracy interactions <= calculateSiteAccuracy (interactions ++ [r])) /\
  (r_wasCorrect r = false ->
   calculateSiteAccuracy (interactions ++ [r]) <= calculateSiteAccuracy interactions).
Proof.
  destruct interactions as [| r0 l].
  - split; intros H; cbn [app]; unfold calculateSiteAccuracy; cbn [List.length Nat.eqb filter];
      rewrite H; vm_compute; discriminate.
  - destruct (accuracy_quotient (r0 :: l)) as [-> Hpos]; [discriminate |].
    destruct (accuracy_quotient ((r0 :: l) ++ [r])) as [-> Hpos'];
      [destruct l; discriminate |].
    rewrite filter_push, length_app in *. cbn [List.length] in *.
    pose proof (correct_le (r0 :: l)) as Hle. apply inject_nat_le in Hle.
    pose proof (inject_nat_nonneg (List.length (filter r_wasCorrect (r0 :: l)))) as H0.
    cbn [List.length] in Hle.
    replace (S (List.length l) + 1)%nat with (S (S (List.length l))) in * by lia.
    rewrite (inject_nat_S (S (List.length l))) in *.
    set (c := inject_Z (Z.of_nat (List.length (filter r_wasCorrect (r0 :: l))))) in *.
    set (n := inject_Z (Z.of_nat (S (List.length l)))) in *.
    split; intros H; rewrite H.
    + replace (List.length (filter r_wasCorrect (r0 :: l)) + 1)%nat
        with (S (List.length (filter r_wasCorrect (r0 :: l)))) by lia.
      rewrite inject_nat_S. fold c.
      apply quotient_le; [exact Hpos | exact Hpos' | nra].
    + rewrite Nat.add_0_r. fold c.
      apply quotient_le; [exact Hpos' | exact Hpos | nra].
Qed.

(** X15.  A call of [recordInteraction] that returns has appended the
    record to the list in memory and to the interactions of its site, left
    every other site as it was, and stored for the site the accuracy of the
    new list, a number between 0 and 1; the patterns of the site change only
    when the interaction was correct. *)
Theorem recordInteraction_stores
  (id timestamp : string) (interaction : Interaction) (st st' : State) :
  recordInteraction id timestamp interaction st = (st', Returns tt) ->
  let before :=
    match get (learningData st) (siteId interaction) with
    | Some siteData => siteData
    | None => mkSiteData [] [] 0
    end in
  memory st' = (memory st ++ [recordOf id timestamp interaction])%list /\
  (forall other, other <> siteId interaction ->
     get (learningData st') other = get (learningData st) other) /\
  exists siteData,
    get (learningData st') (siteId interaction) = Some siteData /\
    interactions siteData =
      (interactions before ++ [recordOf id timestamp interaction])%list /\
    accuracy siteData = calculateSiteAccuracy (interactions siteData) /\
    0 <= accuracy siteData <= 1 /\
    (wasCorrect interaction = false -> patterns siteData = patterns before).
Proof.
  unfold recordInteraction, siteEntry. cbv zeta.
  destruct (get (learningData st) (siteId interaction)) as [sd |] eqn:E.
  - cbn [bind].
    destruct (wasCorrect interaction) eqn:W.
    + destruct (updatePatterns _ _ _) as [ps |]; cbn [bind]; [| discriminate].
      intros [= <-]. cbn [memory learningData].
      split; [reflexivity | split].
      * intros other Hne. now apply get_set_other.
      * eexists. split; [apply get_set_same |].
        cbn [interactions accuracy patterns].
        split; [reflexivity | split; [reflexivity | split; [apply accuracy_range |]]].
        discriminate.
    + cbn [bind]. intros [= <-]. cbn [memory learningData].
      split; [reflexivity | split].
      * intros other Hne. now apply get_set_other.
      * eexists. split; [apply get_set_same |].
        cbn [interactions accuracy patterns].
        split; [reflexivity | split; [reflexivity | split; [apply accuracy_range |]]].
        reflexivity.
  - destruct (inherited (siteId interaction)); cbn [bind]; [discriminate |].
    destruct (wasCorrect interaction) eqn:W.
    + destruct (updatePatterns _ _ _) as [ps |]; cbn [bind]; [| discriminate].
      intros [= <-]. cbn [memory learningData].
      split; [reflexivity | split].
      * intros other Hne. now apply get_set_other.
      * eexists. split; [apply get_set_same |].
        cbn [interactions accuracy patterns].
        split; [reflexivity | split; [reflexivity | split; [apply accuracy_range |]]].
        discriminate.
    + cbn [bind]. intros [= <-]. cbn [memory learningData].
      split; [reflexivity | split].
      * intros other Hne. now apply get_set_other.
      * eexists. split; [apply get_set_same |].
        cbn [interactions accuracy patterns].
        split; [reflexivity | split; [reflexivity | split; [apply accuracy_range |]]].
        reflexivity.
Qed.

Lemma recordInteraction_stores_witness :
  exists siteData,
    get (learningData
           (fst (recordInteraction "k1" "2024-01-01T00:00:00.000Z"
                   Samples.goodInteraction Samples.freshState))) "site1"
      = Some siteData /\
    0 <= accuracy siteData <= 1.
Proof.
  destruct (recordInteraction_stores "k1" "2024-01-01T00:00:00.000Z"
              Samples.goodInteraction Samples.freshState
              (fst (recordInteraction "k1" "2024-01-01T00:00:00.000Z"
                      Samples.goodInteraction Samples.freshState)))
    as (_ & _ & siteData & Hget & _ & _ & Hacc & _).
  - vm_compute. reflexivity.
  - exists siteData. split; [exact Hget | exact Hacc].
Defined.

(** X16.  [recordInteraction] throws in two cases only: the site name is a
    name every object inherits and the stored data has no entry of its own
    for it, or the interaction was correct and the same holds of the field
    name in the patterns of the site.  When it throws, the record has still
    been appended to the list in memory, and the stored data is as before. *)
Theorem recordInteraction_throws_iff
  (id timestamp : string) (interaction : Interaction) (st : State) :
  let before :=
    match get (learningData st) (siteId interaction) with
    | Some siteData => siteData
    | None => mkSiteData [] [] 0
    end in
  (snd (recordInteraction id timestamp interaction st) = Throws <->
   (get (learningData st) (siteId interaction) = None /\
    inherited (siteId interaction) = true) \/
   (wasCorrect interaction = true /\
    get (patterns before) (fieldId interaction) = None /\
    inherited (fieldId interaction) = true)) /\
  (snd (recordInteraction id timestamp interaction st) = Throws ->
   fst (recordInteraction id timestamp interaction st) =
   Recorder.mkState (memory st ++ [recordOf id timestamp interaction])%list
     (learningData st)).
Proof.
  unfold recordInteraction, siteEntry, updatePatterns. cbv zeta.
  destruct (get (learningData st) (siteId interaction)) as [sd |] eqn:E.
  - cbn [bind]. destruct (wasCorrect interaction).
    + destruct (get (patterns sd) (fieldId interaction)) eqn:P; cbn [bind snd fst].
      * split; [| discriminate]. split; [discriminate |].
        intros [[H _] | (_ & H & _)]; discriminate.
      * destruct (inherited (fieldId interaction)); cbn [bind snd fst].
        -- split; [| reflexivity]. split; [| reflexivity]. intros _. right. tauto.
        -- split; [| discriminate]. split; [discriminate |].
           intros [[H _] | (_ & _ & H)]; discriminate.
    + cbn [bind snd fst]. split; [| discriminate]. split; [discriminate |].
      intros [[H _] | (H & _)]; discriminate.
  - destruct (inherited (siteId interaction)); cbn [bind snd fst].
    + split; [| reflexivity]. split; [| reflexivity]. intros _. left. tauto.
    + destruct (wasCorrect interaction).
      * cbn [patterns get].
        destruct (inherited (fieldId interaction)); cbn [bind snd fst].
        -- split; [| reflexivity]. split; [| reflexivity]. intros _. right. tauto.
        -- split; [| discriminate]. split; [discriminate |].
           intros [[_ H] | (_ & _ & H)]; discriminate.
      * cbn [bind snd fst]. split; [| discriminate]. split; [discriminate |].
        intros [[_ H] | (H & _)]; discriminate.
Qed.

End Learning.

Module UsageFacts.
Import BackgroundService.

Lemma updateSiteUsage_absent now siteId sites :
  ~ In siteId (map id sites) -> updateSiteUsage now siteId sites = sites.
Proof.
  induction sites as [| s sites IH]; simpl; [reflexivity |].
  intros H. destruct (String.eqb (id s) siteId) eqn:E.
  - apply String.eqb_eq in E. tauto.
  - rewrite IH; tauto.
Qed.

Lemma updateSiteUsage_first now siteId pre site post :
  id site = siteId -> ~ In siteId (map id pre) ->
  updateSiteUsage now siteId (pre ++ site :: post) = (pre ++ used now site :: post)%list.
Proof.
  intros Hs. induction pre as [| s pre IH]; simpl; intros Hpre.
  - apply String.eqb_eq in Hs. now rewrite Hs.
  - destruct (String.eqb (id s) siteId) eqn:E.
    + apply String.eqb_eq in E. tauto.
    + rewrite IH; tauto.
Qed.

Lemma totalUsage_app pre post :
  totalUsage (pre ++ post) = (totalUsage pre + totalUsage post)%nat.
Proof.
  induction pre as [| s pre IH]; simpl; [reflexivity |].
  unfold totalUsage in *. simpl. rewrite IH. lia.
Qed.

(** The first site with a given identifier. *)
Lemma first_with (siteId : string) (sites : list Site) :
  In siteId (map id sites) ->
  exists pre site post,
    sites = (pre ++ site :: post)%list /\ id site = siteId /\ ~ In siteId (map id pre).
Proof.
  induction sites as [| s sites IH]; simpl; [intros [] |].
  destruct (string_dec (id s) siteId) as [E | E].
  - intros _. exists [], s, sites. simpl. tauto.
  - intros [H | H]; [contradiction |].
    destruct (IH H) as (pre & site & post & -> & Hs & Hpre).
    exists (s :: pre), site, post. simpl. tauto.
Qed.

End UsageFacts.

Section Usage.
Import BackgroundService UsageFacts.

(** X17.  [updateSiteUsage] changes one site at most: the first one with
    the given identifier gets its count raised by one (from 0 when it had
    none) and the time of the call; the other sites, their order and every
    other member stay.  With no such site nothing changes.  The recorded
    uses of all sites together grow by exactly one when the identifier is
    known. *)
Theorem updateSiteUsage_one_site (now siteId : string) (sites : list Site) :
  map id (updateSiteUsage now siteId sites) = map id sites /\
  map others (updateSiteUsage now siteId sites) = map others sites /\
  (~ In siteId (map id sites) -> updateSiteUsage now siteId sites = sites) /\
  (forall pre site post,
     sites = (pre ++ site :: post)%list -> id site = siteId ->
     ~ In siteId (map id pre) ->
     updateSiteUsage now siteId sites = (pre ++ used now site :: post)%list) /\
  (In siteId (map id sites) ->
   totalUsage (updateSiteUsage now siteId sites) = S (totalUsage sites)).
Proof.
  split; [| split; [| split; [apply updateSiteUsage_absent | split]]].
  - induction sites as [| s sites IH]; simpl; [reflexivity |].
    destruct (String.eqb (id s) siteId); simpl; [reflexivity | now rewrite IH].
  - induction sites as [| s sites IH]; simpl; [reflexivity |].
    destruct (String.eqb (id s) siteId); simpl; [reflexivity | now rewrite IH].
  - intros pre site post -> Hs Hpre. now apply updateSiteUsage_first.
  - intros Hin. destruct (first_with siteId sites Hin) as (pre & site & post & -> & Hs & Hpre).
    rewrite (updateSiteUsage_first now siteId pre site post Hs Hpre).
    rewrite !totalUsage_app. unfold totalUsage. simpl.
    destruct (usageCount site); lia.
Qed.

End Usage.

Module PatternFacts.
Import LearningSystem LearningFacts.

Lemma insert_index_keys {V : Type} (e : string * V) (l : list (string * V)) (k : string) :
  In k (keys (insert_index e l)) <-> k = fst e \/ In k (keys l).
Proof.
  unfold keys. induction l as [| x l IH]; simpl; [intuition |].
  destruct (index_value (fst e) <=? index_value (fst x))%N; simpl; [intuition |].
  rewrite IH. intuition.
Qed.

Lemma insert_index_NoDup {V : Type} (e : string * V) (l : list (string * V)) :
  ~ In (fst e) (keys l) -> NoDup (keys l) -> NoDup (keys (insert_index e l)).
Proof.
  induction l as [| x l IH]; simpl; intros Hn Hnd.
  - constructor; [intros [] | constructor].
  - destruct (index_value (fst e) <=? index_value (fst x))%N.
    + change (NoDup (fst e :: keys (x :: l))). now constructor.
    + change (NoDup (fst x :: keys (insert_index e l))).
      inversion Hnd as [| ? ? Hx Hl]; subst. constructor.
      * rewrite insert_index_keys. intros [H | H]; [| contradiction].
        apply Hn. left. now symmetry.
      * apply IH; [| exact Hl]. intros H. apply Hn. now right.
Qed.

Lemma sorted_keys {V : Type} (l : list (string * V)) :
  (forall k, In k (keys (fold_right insert_index [] l)) <-> In k (keys l)) /\
  (NoDup (keys l) -> NoDup (keys (fold_right insert_index [] l))).
Proof.
  induction l as [| x l [IH1 IH2]]; simpl; [split; [tauto | auto] |].
  split.
  - intros k. rewrite insert_index_keys, IH1. intuition.
  - intros Hnd. change (NoDup (fst x :: keys l)) in Hnd.
    inversion Hnd as [| ? ? Hx Hl]; subst.
    apply insert_index_NoDup; [now rewrite IH1 | now apply IH2].
Qed.

Lemma keys_filter_NoDup {V : Type} (f : string * V -> bool) (l : list (string * V)) :
  NoDup (keys l) -> NoDup (keys (filter f l)).
Proof.
  unfold keys. induction l as [| x l IH]; simpl; intros Hnd; [constructor |].
  inversion Hnd as [| ? ? Hx Hl]; subst.
  destruct (f x); simpl; [| now apply IH].
  constructor; [| now apply IH].
  intros H. apply Hx. apply in_map_iff in H as (y & Hy & Hin).
  apply filter_In in Hin as [Hin _]. apply in_map_iff. now exists y.
Qed.

(** [Object.entries] lists every key once when the keys are distinct. *)
Lemma entries_NoDup {V : Type} (o : list (string * V)) :
  NoDup (keys o) -> NoDup (keys (entries o)).
Proof.
  intros Hnd. unfold entries, keys. rewrite map_app.
  apply NoDup_app.
  - apply (proj2 (sorted_keys _)). now apply keys_filter_NoDup.
  - now apply (keys_filter_NoDup (fun e => negb (is_array_index (fst e)))).
  - intros k Hk Hk'.
    apply (proj1 (proj1 (sorted_keys _) k)) in Hk.
    apply in_map_iff in Hk as (x & <- & Hx). apply filter_In in Hx as [_ Hx].
    apply in_map_iff in Hk' as (y & Hy & Hin). apply filter_In in Hin as [_ Hin].
    rewrite Hy, Hx in Hin. discriminate.
Qed.

Lemma patterns_NoDup (l : list (string * nat)) :
  NoDup (keys l) ->
  NoDup (flat_map
           (fun e : string * nat =>
              if 2 <=? snd e then [mkPattern "prefix" (fst e) (snd e)] else [])
           l).
Proof.
  unfold keys. induction l as [| e l IH]; cbn [flat_map map]; intros Hnd; [constructor |].
  inversion Hnd as [| ? ? He Hl]; subst.
  destruct (2 <=? snd e); cbn [app]; [| now apply IH].
  constructor; [| now apply IH].
  intros H. apply in_flat_map in H as (x & Hx & Hp).
  destruct (2 <=? snd x); [| destruct Hp].
  destruct Hp as [[= Hk _] | []].
  apply He. apply in_map_iff. now exists x.
Qed.

Lemma substring_length (n : nat) (s : string) :
  (n <= length s)%nat -> length (substring 0 n s) = n.
Proof.
  revert s. induction n as [| n IH]; intros s H.
  - now destruct s.
  - destruct s as [| c s]; simpl in *; [lia |]. rewrite IH; lia.
Qed.

Lemma occurrences_some k values :
  (0 < occurrences prefixOf k values)%nat -> length k = 3%nat /\
  (occurrences prefixOf k values <= List.length values)%nat.
Proof.
  unfold occurrences. intros H. split; [| apply filter_length_le].
  destruct (filter (counted prefixOf k) values) as [| v l] eqn:E; [simpl in H; lia |].
  assert (Hin : In v (filter (counted prefixOf k) values)) by (rewrite E; now left).
  apply filter_In in Hin as [_ Hc]. unfold counted in Hc.
  destruct v as [s |]; [| discriminate].
  apply andb_true_iff in Hc as [Hl Hk].
  apply Nat.ltb_lt in Hl. apply String.eqb_eq in Hk. subst k.
  unfold prefixOf. apply substring_length. lia.
Qed.

End PatternFacts.

Section Patterns.
Import LearningSystem LearningFacts PatternFacts.

(** X18.  [extractCommonPatterns] returns exactly the 3-unit prefixes that
    at least two of the recorded strings longer than 3 units start with,
    each once and with the number of those strings as its frequency;
    nothing else is ever returned. *)
Theorem extractCommonPatterns_exact (values : list JSValue) :
  (forall p, In p (extractCommonPatterns values) <->
     type p = "prefix" /\ (2 <= frequency p)%nat /\
     occurrences prefixOf (LearningSystem.pattern p) values = frequency p) /\
  NoDup (extractCommonPatterns values) /\
  (forall p, In p (extractCommonPatterns values) ->
     length (LearningSystem.pattern p) = 3%nat /\
     (frequency p <= List.length values)%nat).
Proof.
  split; [apply extractCommonPatterns_prefixes | split].
  - unfold extractCommonPatterns. apply patterns_NoDup, entries_NoDup.
    unfold prefixCounts. apply (counts_NoDup values ([], [])). split; constructor.
  - intros p Hp. apply extractCommonPatterns_prefixes in Hp as (_ & H2 & Ho).
    rewrite <- Ho. apply occurrences_some. lia.
Qed.

End Patterns.

(** ** FormFiller: filling a field *)

Module FillFacts.
Import Fill StringFacts.

Lemma includes_self (s : string) : includes s s = true.
Proof. apply includes_infix, infix_refl. Qed.

Lemma includes_empty (s : string) : includes s "" = true.
Proof. destruct s; reflexivity. Qed.

(** A string of ten digits, taken apart. *)
Lemma ten_units (s : string) :
  length s = 10%nat ->
  exists a b c d e f g h i j,
    s = String a (String b (String c (String d (String e (String f
          (String g (String h (String i (String j ""))))))))).
Proof.
  intros H.
  do 10 (destruct s as [| ? s]; [discriminate |]).
  destruct s; [| discriminate]. repeat eexists.
Qed.

Lemma eleven_units (s : string) :
  length s = 11%nat ->
  exists z a b c d e f g h i j,
    s = String z (String a (String b (String c (String d (String e (String f
          (String g (String h (String i (String j "")))))))))).
Proof.
  intros H.
  do 11 (destruct s as [| ? s]; [discriminate |]).
  destruct s; [| discriminate]. repeat eexists.
Qed.

Lemma filter_chars_all (f : ascii -> bool) (s : string) :
  all_chars f (filter_chars f s) = true.
Proof.
  induction s as [| c s IH]; simpl; [reflexivity |].
  destruct (f c) eqn:E; simpl; [now rewrite E | exact IH].
Qed.

Lemma filter_chars_id (f : ascii -> bool) (s : string) :
  all_chars f s = true -> filter_chars f s = s.
Proof.
  induction s as [| c s IH]; simpl; [reflexivity |].
  intros H. apply andb_true_iff in H as [Hc Hs]. now rewrite Hc, IH.
Qed.

Lemma filter_chars_nonempty (f : ascii -> bool) (s : string) :
  filter_chars f s <> "" -> s <> "".
Proof. now destruct s. Qed.

End FillFacts.

Section Filling.
Import Fill FillFacts.

(** X19.  [shouldCheckBox] looks at the value alone: it answers true
    exactly when the value, in lower case, contains one of the six positive
    indicators.  The label and the context of the box play no part, the
    clause on them being covered by the indicator "yes". *)
Theorem shouldCheckBox_value_only (value label context : string) :
  shouldCheckBox value label context =
  existsb (includes (toLowerCase value)) positiveIndicators.
Proof.
  unfold shouldCheckBox, positiveIndicators. cbn [existsb].
  destruct (String.eqb (toLowerCase value) "yes") eqn:E.
  - apply String.eqb_eq in E. rewrite E. reflexivity.
  - rewrite !andb_false_r, !orb_false_r. reflexivity.
Qed.

(** X20.  [formatPhone] keeps the digits of its argument, in order, and
    formatting twice is formatting once.  It returns the empty string only
    for the empty string, so the guard of [fillField] lets every other
    value into a telephone field. *)
Theorem formatPhone_digits (phone : string) :
  filter_chars is_digit (formatPhone phone) = filter_chars is_digit phone /\
  formatPhone (formatPhone phone) = formatPhone phone /\
  (formatPhone phone = "" <-> phone = "").
Proof.
  assert (Hd : filter_chars is_digit (formatPhone phone) = filter_chars is_digit phone).
  { unfold formatPhone.
    pose proof (filter_chars_all is_digit phone) as Hall.
    destruct (length (filter_chars is_digit phone) =? 10)%nat eqn:E10.
    - apply Nat.eqb_eq in E10.
      destruct (ten_units _ E10) as (a & b & c & d & e & f & g & h & i & j & Hs).
      rewrite Hs in *. cbn in Hall.
      repeat (apply andb_true_iff in Hall as [? Hall]).
      cbn. repeat match goal with H : is_digit _ = true |- _ => rewrite H; clear H end.
      reflexivity.
    - destruct (length (filter_chars is_digit phone) =? 11)%nat eqn:E11; [| reflexivity].
      apply Nat.eqb_eq in E11.
      destruct (eleven_units _ E11) as (z & a & b & c & d & e & f & g & h & i & j & Hs).
      rewrite Hs in *. cbn [first_is andb].
      destruct (Ascii.eqb z "1") eqn:Ez; [| now rewrite <- Hs].
      apply Ascii.eqb_eq in Ez. subst z. cbn in Hall.
      repeat (apply andb_true_iff in Hall as [? Hall]).
      cbn. repeat match goal with H : is_digit _ = true |- _ => rewrite H; clear H end.
      reflexivity. }
  split; [exact Hd | split].
  - unfold formatPhone at 1. rewrite Hd. unfold formatPhone.
    destruct (length (filter_chars is_digit phone) =? 10)%nat; [reflexivity |].
    destruct (_ && _); reflexivity.
  - split; [| intros ->; reflexivity].
    unfold formatPhone.
    destruct (length (filter_chars is_digit phone) =? 10)%nat; [discriminate |].
    destruct (_ && _); [discriminate | auto].
Qed.

(** X21.  [fillSelectField] prefers an exact match to a partial one,
    wherever they stand: with an option whose value or text is the value up
    to case, the first such option is chosen.  Without one, the first
    option whose text contains the value or is contained in it is chosen.
    It fails only when no option matches either way; so the empty value
    always selects an option of a drop-down that has one, and an option
    without text makes every value select something. *)
Theorem fillSelectField_priority (options : list Option_) (value : string) :
  let exact option :=
    String.eqb (toLowerCase (o_value option)) (toLowerCase value) ||
    String.eqb (toLowerCase (textContent option)) (toLowerCase value) in
  let partial option :=
    includes (toLowerCase (textContent option)) (toLowerCase value) ||
    includes (toLowerCase value) (toLowerCase (textContent option)) in
  (forall pre option post,
     options = (pre ++ option :: post)%list ->
     exact option = true -> forallb (fun o => negb (exact o)) pre = true ->
     fillSelectField options value = Some (o_value option)) /\
  (forall pre option post,
     options = (pre ++ option :: post)%list ->
     forallb (fun o => negb (exact o)) options = true ->
     partial option = true -> forallb (fun o => negb (partial o)) pre = true ->
     fillSelectField options value = Some (o_value option)) /\
  (fillSelectField options value = None <->
   forallb (fun o => negb (exact o) && negb (partial o)) options = true) /\
  (options <> [] -> fillSelectField options "" <> None) /\
  (forall option, In option options -> textContent option = "" ->
     fillSelectField options value <> None).
Proof.
  intros exact partial.
  assert (Hfind : forall (f : Option_ -> bool) pre x post,
            f x = true -> forallb (fun o => negb (f o)) pre = true ->
            find f (pre ++ x :: post) = Some x).
  { intros f pre x post Hx. induction pre as [| y pre IH]; simpl; [now rewrite Hx |].
    intros H. apply andb_true_iff in H as [Hy Hpre].
    apply negb_true_iff in Hy. rewrite Hy. now apply IH. }
  assert (Hnone : forall (f : Option_ -> bool) l,
            find f l = None <-> forallb (fun o => negb (f o)) l = true).
  { intros f l. induction l as [| y l IH]; simpl; [tauto |].
    destruct (f y); simpl; [split; discriminate | exact IH]. }
  assert (Hsome : forall (f : Option_ -> bool) l x,
            In x l -> f x = true -> find f l <> None).
  { intros f l x Hin Hx Hf. apply Hnone in Hf. rewrite forallb_forall in Hf.
    specialize (Hf x Hin). rewrite Hx in Hf. discriminate. }
  assert (Hshape : forall l v,
            fillSelectField l v = None <->
            find (fun option =>
                    String.eqb (toLowerCase (o_value option)) (toLowerCase v) ||
                    String.eqb (toLowerCase (textContent option)) (toLowerCase v)) l = None /\
            find (fun option =>
                    includes (toLowerCase (textContent option)) (toLowerCase v) ||
                    includes (toLowerCase v) (toLowerCase (textContent option))) l = None).
  { intros l v. unfold fillSelectField.
    destruct (find _ l) as [x |]; [split; [discriminate | intros [H _]; discriminate] |].
    destruct (find _ l) as [y |]; [split; [discriminate | intros [_ H]; discriminate] |].
    tauto. }
  split; [| split; [| split; [| split]]].
  - intros pre option post -> Hx Hpre. unfold fillSelectField.
    fold exact. now rewrite (Hfind exact pre option post Hx Hpre).
  - intros pre option post -> Hex Hx Hpre. unfold fillSelectField.
    fold exact partial. apply Hnone in Hex. rewrite Hex.
    now rewrite (Hfind partial pre option post Hx Hpre).
  - rewrite Hshape. fold exact partial. rewrite !Hnone.
    rewrite !forallb_forall. split.
    + intros [H1 H2] o Ho. now rewrite (H1 o Ho), (H2 o Ho).
    + intros H. split; intros o Ho; specialize (H o Ho);
        apply andb_true_iff in H; tauto.
  - intros Hne H. apply Hshape in H as [_ H].
    destruct options as [| o l]; [contradiction |].
    apply (Hsome _ (o :: l) o (or_introl eq_refl)) in H; [exact H |].
    cbn [toLowerCase]. now rewrite includes_empty.
  - intros option Hin Ht H. apply Hshape in H as [_ H].
    apply (Hsome _ options option Hin) in H; [exact H |].
    rewrite Ht. cbn [toLowerCase]. rewrite includes_empty. apply orb_true_r.
Qed.

End Filling.

Module TitleFacts.
Import Fill.

Ltac every_unit c := destruct c as [[] [] [] [] [] [] [] []]; vm_compute; reflexivity.

Lemma is_ws_lower (c : ascii) : is_ws (lower_char c) = is_ws c.
Proof. every_unit c. Qed.

Lemma lower_lower (c : ascii) : lower_char (lower_char c) = lower_char c.
Proof. every_unit c. Qed.

Lemma lower_upper_word (c : ascii) : lower_char (upper_word c) = lower_char c.
Proof. every_unit c. Qed.

Lemma is_word_upper_word (c : ascii) : is_word (upper_word c) = is_word c.
Proof. every_unit c. Qed.

Lemma upper_upper_word (c : ascii) : upper_word (upper_word c) = upper_word c.
Proof. every_unit c. Qed.

Lemma titleFrom_length (s : string) : forall b, length (titleFrom b s) = length s.
Proof.
  induction s as [| c s IH]; intros b; simpl; [reflexivity |].
  destruct b; [destruct (is_ws c) | destruct (is_word c)]; simpl; now rewrite IH.
Qed.

Lemma titleFrom_lower (s : string) : forall b,
  toLowerCase (titleFrom b s) = toLowerCase s.
Proof.
  induction s as [| c s IH]; intros b; simpl; [reflexivity |].
  destruct b; [destruct (is_ws c) | destruct (is_word c)]; simpl;
    rewrite IH, ?lower_lower, ?lower_upper_word; reflexivity.
Qed.

Lemma titleFrom_twice (s : string) : forall b,
  titleFrom b (titleFrom b s) = titleFrom b s.
Proof.
  induction s as [| c s IH]; intros b; simpl; [reflexivity |].
  destruct b.
  - destruct (is_ws c) eqn:E; simpl.
    + now rewrite E, IH.
    + now rewrite is_ws_lower, E, lower_lower, IH.
  - destruct (is_word c) eqn:E; simpl.
    + now rewrite is_word_upper_word, E, upper_upper_word, IH.
    + now rewrite E, IH.
Qed.

End TitleFacts.

Section Titles.
Import Fill TitleFacts.

(** X22.  On a text of Latin-1 units (every code unit below 256)
    [toTitleCase] changes the case of letters and nothing else: the result
    has the length of the argument and the same lower-case form, and
    applying it twice is applying it once.  Beyond Latin-1 the lower case
    of a unit can be longer than the unit, and nothing is stated there. *)
Theorem toTitleCase_case_only (str : string) :
  length (toTitleCase str) = length str /\
  toLowerCase (toTitleCase str) = toLowerCase str /\
  toTitleCase (toTitleCase str) = toTitleCase str.
Proof.
  unfold toTitleCase.
  split; [apply titleFrom_length | split; [apply titleFrom_lower | apply titleFrom_twice]].
Qed.

End Titles.

(** ** SecurityManager and AuditLogger *)

Section Logging.
Import AuditLogger.

(** X23.  The audit log never holds more than 1000 entries after
    [logEvent], whatever its length before.  The new entry is its last
    entry, the entries kept are the most recent ones in their order, and
    nothing is dropped while there is room. *)
Theorem logEvent_bounded {A : Type} (logEntry : A) (auditLog : list A) :
  (List.length (logEvent logEntry auditLog) <= maxLogEntries)%nat /\
  (exists kept, logEvent logEntry auditLog = (kept ++ [logEntry])%list /\
                exists dropped, auditLog = (dropped ++ kept)%list) /\
  ((List.length auditLog < maxLogEntries)%nat ->
   logEvent logEntry auditLog = (auditLog ++ [logEntry])%list).
Proof.
  assert (Hpos : (0 < maxLogEntries)%nat) by (apply Nat.ltb_lt; reflexivity).
  unfold logEvent, lastEntries.
  generalize dependent maxLogEntries. intros maxLogEntries Hpos.
  destruct (maxLogEntries <? List.length (auditLog ++ [logEntry]))%nat eqn:E.
  - apply Nat.ltb_lt in E. rewrite length_app in *. cbn [List.length] in *.
    split; [| split].
    + rewrite length_skipn, length_app. cbn [List.length]. lia.
    + exists (skipn (List.length auditLog + 1 - maxLogEntries) auditLog). split.
      * rewrite skipn_app.
        replace (List.length auditLog + 1 - maxLogEntries - List.length auditLog)%nat
          with 0%nat by lia.
        reflexivity.
      * exists (firstn (List.length auditLog + 1 - maxLogEntries) auditLog).
        now rewrite firstn_skipn.
    + lia.
  - apply Nat.ltb_ge in E. split; [exact E | split; [| reflexivity]].
    exists auditLog. split; [reflexivity | now exists []].
Qed.

End Logging.

Module SecurityFacts.

Lemma skipn_exact {A : Type} (pre l : list A) : skipn (List.length pre) (pre ++ l) = l.
Proof. induction pre as [| x pre IH]; simpl; [reflexivity | exact IH]. Qed.

Lemma skipn_past {A : Type} (pre : list A) (v : A) (post : list A) :
  skipn (S (List.length pre)) (pre ++ v :: post) = post.
Proof. induction pre as [| x pre IH]; simpl; [reflexivity | exact IH]. Qed.

Lemma every_index (arr2 : list N) : forall (arr1 : list N) (i : nat),
  forallb
    (fun p : nat * N =>
       match nth_error arr2 (fst p) with
       | Some v => N.eqb (snd p) v
       | None => false
       end)
    (combine (seq i (List.length arr1)) arr1) = true <->
  firstn (List.length arr1) (skipn i arr2) = arr1.
Proof.
  induction arr1 as [| x arr1 IH]; intros i; cbn [List.length seq combine forallb firstn].
  - tauto.
  - cbn [fst snd]. rewrite andb_true_iff, IH.
    destruct (nth_error arr2 i) as [v |] eqn:E.
    + apply nth_error_split in E as (pre & post & -> & <-).
      rewrite skipn_exact, skipn_past. cbn [firstn].
      rewrite N.eqb_eq. split.
      * intros [-> ->]. reflexivity.
      * intros [= -> H]. split; [reflexivity | exact H].
    + apply nth_error_None in E. rewrite (skipn_all2 arr2 (n := i)) by exact E.
      rewrite (skipn_all2 arr2 (n := S i)) by lia. rewrite firstn_nil.
      split; [intros [H _]; discriminate | discriminate].
Qed.

End SecurityFacts.

Section Arrays.
Import SecurityManager.

(** X24.  [compareArrays] answers true exactly when the two arrays hold
    the same bytes in the same order. *)
Theorem compareArrays_reflects (arr1 arr2 : list N) :
  compareArrays arr1 arr2 = true <-> arr1 = arr2.
Proof.
  unfold compareArrays.
  destruct (List.length arr1 =? List.length arr2)%nat eqn:E; cbn [negb].
  - apply Nat.eqb_eq in E. rewrite (SecurityFacts.every_index arr2 arr1 0).
    cbn [skipn]. rewrite E, firstn_all. split; congruence.
  - apply Nat.eqb_neq in E. split; [discriminate | intros ->; contradiction].
Qed.

End Arrays.

Module RateFacts.
Import Notions SecurityManager.

Lemma nondecreasing_inv (t : Z) (times : list Z) :
  nondecreasing (t :: times) = true ->
  nondecreasing times = true /\ Forall (Z.le t) times.
Proof.
  revert t. induction times as [| u times IH]; intros t H.
  - split; [reflexivity | constructor].
  - cbn [nondecreasing] in H. apply andb_true_iff in H as [Htu Hu].
    apply Z.leb_le in Htu. split; [exact Hu |].
    constructor; [exact Htu |].
    destruct (IH u Hu) as [_ Hall].
    eapply Forall_impl; [| exact Hall]. intros x Hx. lia.
Qed.

Section Window.
Variable maxAttempts : nat.
Variable timeWindow : Z.

Lemma recent_app now a b :
  recent timeWindow now (a ++ b) = (recent timeWindow now a ++ recent timeWindow now b)%list.
Proof. apply filter_app. Qed.

(** What is recent later was recent before. *)
Lemma recent_recent (t now : Z) (l : list Z) :
  (t <= now)%Z -> recent timeWindow now (recent timeWindow t l) = recent timeWindow now l.
Proof.
  intros Hle. unfold recent. induction l as [| x l IH]; simpl; [reflexivity |].
  destruct (t - x <? timeWindow)%Z eqn:E1; simpl; rewrite IH.
  - reflexivity.
  - destruct (now - x <? timeWindow)%Z eqn:E2; [| reflexivity].
    apply Z.ltb_lt in E2. apply Z.ltb_ge in E1. lia.
Qed.

Lemma calls_window (times : list Z) : forall (stored acc : list Z) (lo : Z),
  nondecreasing times = true ->
  Forall (Z.le lo) times ->
  (forall now, (lo <= now)%Z -> recent timeWindow now stored = recent timeWindow now acc) ->
  forall pre now post,
    fst (calls maxAttempts timeWindow times stored) = (pre ++ now :: post)%list ->
    (List.length (recent timeWindow now (acc ++ pre ++ [now])) <= maxAttempts)%nat.
Proof.
  induction times as [| t times IH]; intros stored acc lo Hs Hlo Hinv pre now post.
  - cbn [calls fst]. destruct pre; discriminate.
  - apply nondecreasing_inv in Hs as [Hs Ht].
    apply Forall_cons_iff in Hlo as [Hlt Hlo].
    cbn [calls]. unfold checkRateLimit. fold (recent timeWindow t stored).
    destruct (maxAttempts <=? List.length (recent timeWindow t stored))%nat eqn:E.
    + apply (IH stored acc t Hs Ht).
      intros n Hn. apply Hinv. lia.
    + apply Nat.leb_gt in E.
      destruct (calls maxAttempts timeWindow times (recent timeWindow t stored ++ [t]))
        as [passed final] eqn:C.
      cbn [fst]. intros Hp.
      destruct pre as [| p pre].
      * cbn [app] in Hp. injection Hp as <- _.
        rewrite recent_app, length_app, <- (Hinv t Hlt).
        cbn [app]. unfold recent at 2. cbn [filter].
        destruct (t - t <? timeWindow)%Z; cbn [List.length]; lia.
      * cbn [app] in Hp. injection Hp as <- Hp.
        replace (acc ++ (t :: pre) ++ [now])%list
          with ((acc ++ [t]) ++ pre ++ [now])%list
          by (rewrite <- app_assoc; reflexivity).
        apply (IH (recent timeWindow t stored ++ [t])%list (acc ++ [t])%list t Hs Ht)
          with (post := post).
        -- intros n Hn. rewrite !recent_app, (recent_recent t n stored Hn).
           rewrite (Hinv n) by lia. reflexivity.
        -- now rewrite C.
Qed.

End Window.

End RateFacts.

Section RateLimit.
Import Notions SecurityManager RateFacts.

(** X25.  The rate limit holds over a series of calls.  With a clock that
    never goes back and an empty list to start with, the calls that
    [checkRateLimit] lets through are never more than [maxAttempts] in a
    window: at each of them, it and the earlier ones less than [timeWindow]
    before it number at most [maxAttempts]. *)
Theorem checkRateLimit_window (maxAttempts : nat) (timeWindow : Z) (times : list Z)
  (pre : list Z) (now : Z) (post : list Z) :
  nondecreasing times = true ->
  fst (calls maxAttempts timeWindow times []) = (pre ++ now :: post)%list ->
  (List.length (recent timeWindow now (pre ++ [now])) <= maxAttempts)%nat.
Proof.
  intros Hs Hp.
  destruct times as [| t times]; [destruct pre; discriminate |].
  apply (calls_window maxAttempts timeWindow (t :: times) [] [] t Hs) with (post := post).
  - constructor; [lia | apply (nondecreasing_inv t times Hs)].
  - reflexivity.
  - exact Hp.
Qed.

Lemma checkRateLimit_window_witness :
  (List.length (recent 10 12 ([0; 1; 11]%Z ++ [12]%Z)%list) <= 2)%nat.
Proof.
  apply (checkRateLimit_window 2 10 [0; 1; 2; 11; 12]%Z [0; 1; 11]%Z 12%Z []).
  - reflexivity.
  - vm_compute. reflexivity.
Defined.

End RateLimit.

(** ** Patterns that are lists of words *)

Module LiteralFacts.
Import Literals StringFacts.

Lemma m_word ic (w : string) : forall st k,
  m ic (word_re w) st k = if starts ic w (rest st) then k (after w st) else None.
Proof.
  induction w as [| c w IH]; intros st k; cbn [word_re m starts after].
  - reflexivity.
  - unfold lit. cbn [m]. destruct (rest st) as [| d tl] eqn:E; [reflexivity |].
    fold (unit_match ic c d). destruct (unit_match ic c d); [| reflexivity].
    cbn [andb]. rewrite IH. reflexivity.
Qed.

Lemma m_words ic (ws : list string) : forall st,
  ws <> [] ->
  found (m ic (words_re ws) st Some) = existsb (fun w => starts ic w (rest st)) ws.
Proof.
  induction ws as [| w ws IH]; intros st Hne; [contradiction |].
  destruct ws as [| w' ws].
  - cbn [words_re existsb]. rewrite m_word, orb_false_r.
    now destruct (starts ic w (rest st)).
  - change (words_re (w :: w' :: ws)) with (Alt (word_re w) (words_re (w' :: ws))).
    cbn [m]. rewrite m_word.
    change (existsb (fun w0 => starts ic w0 (rest st)) (w :: w' :: ws))
      with (starts ic w (rest st) ||
            existsb (fun w0 => starts ic w0 (rest st)) (w' :: ws)).
    destruct (starts ic w (rest st)); [reflexivity |].
    cbn [orb]. apply IH. discriminate.
Qed.

Lemma existsb_orb {A : Type} (f g : A -> bool) (l : list A) :
  existsb (fun x => f x || g x) l = existsb f l || existsb g l.
Proof.
  induction l as [| x l IH]; simpl; [reflexivity |]. rewrite IH.
  destruct (f x), (g x), (existsb f l), (existsb g l); reflexivity.
Qed.

Lemma existsb_same {A : Type} (f g : A -> bool) (l : list A) :
  (forall x, f x = g x) -> existsb f l = existsb g l.
Proof. intros H. induction l as [| x l IH]; simpl; [reflexivity | now rewrite H, IH]. Qed.

Lemma search_words ic (ws : list string) n : forall s p idx,
  ws <> [] ->
  found (search ic (words_re ws) n p s idx) = existsb (fun w => occurs ic w s) ws.
Proof.
  induction s as [| c s IH]; intros p idx Hne; cbn [search].
  - pose proof (m_words ic ws (mkState p "" []) Hne) as H. cbn [rest] in H.
    rewrite (existsb_same (fun w => occurs ic w "") (fun w => starts ic w ""))
      by (intros w; cbn [occurs]; apply orb_false_r).
    rewrite <- H. now destruct (m ic (words_re ws) (mkState p "" []) Some).
  - pose proof (m_words ic ws (mkState p (String c s) []) Hne) as H. cbn [rest] in H.
    transitivity (existsb (fun w => starts ic w (String c s)) ws ||
                  existsb (fun w => occurs ic w s) ws).
    + rewrite <- H.
      destruct (m ic (words_re ws) (mkState p (String c s) []) Some); [reflexivity |].
      cbn [found orb]. now apply IH.
    + rewrite <- existsb_orb. reflexivity.
Qed.

(** A pattern whose source is a list of words tests for an occurrence of
    one of them. *)
Lemma test_words (p : RegExp) (ws : list string) (text : string) :
  parse (source p) = Some (words_re ws, 0%nat) -> ws <> [] ->
  test p text = existsb (fun w => occurs (ignoreCase p) w text) ws.
Proof.
  intros Hp Hne. unfold test, exec. rewrite Hp.
  rewrite <- (search_words (ignoreCase p) ws 0 text None 0%nat Hne).
  now destruct (search _ _ _ _ _ _).
Qed.

Lemma unit_match_exact (c d : ascii) : unit_match false c d = Ascii.eqb c d.
Proof.
  unfold unit_match, atom_match, set_has. cbn [existsb item_has andb xorb].
  now rewrite !orb_false_r.
Qed.

Lemma starts_exact (w s : string) : starts false w s = starts_with w s.
Proof.
  revert s. induction w as [| c w IH]; intros s; [reflexivity |].
  destruct s as [| d s]; [reflexivity |].
  cbn [starts starts_with]. now rewrite unit_match_exact, IH.
Qed.

Lemma occurs_exact (w s : string) : occurs false w s = includes s w.
Proof.
  induction s as [| d s IH]; cbn [occurs includes]; rewrite starts_exact;
    [reflexivity | now rewrite IH].
Qed.

Lemma units_all (c : ascii) : In c units.
Proof.
  unfold units. apply in_map_iff. exists (nat_of_ascii c).
  split; [apply ascii_nat_embedding |].
  apply in_seq. pose proof (nat_ascii_bounded c). lia.
Qed.

(** Under ignoreCase a lower-case ASCII letter of a word matches the units
    whose lower case it is. *)
Lemma unit_match_lower (c d : ascii) :
  is_lower c = true -> unit_match true c d = Ascii.eqb c (lower_char d).
Proof.
  intros Hc.
  assert (Hall : forallb
            (fun c => forallb
               (fun d => implb (is_lower c)
                           (Bool.eqb (unit_match true c d) (Ascii.eqb c (lower_char d))))
               units) units = true) by (vm_compute; reflexivity).
  rewrite forallb_forall in Hall. specialize (Hall c (units_all c)).
  rewrite forallb_forall in Hall. specialize (Hall d (units_all d)).
  rewrite Hc in Hall. cbn [implb] in Hall. now apply Bool.eqb_prop in Hall.
Qed.

Lemma starts_lower (w s : string) :
  all_chars is_lower w = true -> starts true w s = starts_with w (toLowerCase s).
Proof.
  revert s. induction w as [| c w IH]; intros s Hw; [reflexivity |].
  cbn [all_chars] in Hw. apply andb_true_iff in Hw as [Hc Hw].
  destruct s as [| d s]; [reflexivity |].
  cbn [starts toLowerCase starts_with]. now rewrite (unit_match_lower c d Hc), IH.
Qed.

Lemma occurs_lower (w s : string) :
  all_chars is_lower w = true -> occurs true w s = includes (toLowerCase s) w.
Proof.
  intros Hw. induction s as [| d s IH]; cbn [occurs toLowerCase includes];
    rewrite (starts_lower _ _ Hw); [reflexivity | now rewrite IH].
Qed.

(** A text that contains a word contains what the word contains. *)
Lemma includes_part (text big small : string) :
  includes big small = true -> includes text big = true -> includes text small = true.
Proof.
  rewrite !includes_infix. intros H1 H2. now apply infix_trans with big.
Qed.

End LiteralFacts.

Section Categories.
Import Literals LiteralFacts Categorize FormFiller.

(** X26.  [categorizeField] decides by plain substring tests on the search
    text, in a fixed order of priority: each of its patterns is a list of
    words and matches wherever one of them occurs, also inside a longer
    word.  The alternatives "email", "e-mail", "telephone", "surname",
    "fname", "lname", "address", "organization" and "updated" decide nothing, each containing another alternative of its test. *)
Theorem categorizeField_by_substring (element : Element) (label context : string) :
  categorizeField element label context =
  categoryBySubstring (type element) (buildSearchText element label context).
Proof.
  unfold categorizeField, categoryBySubstring. cbv zeta.
  set (t := buildSearchText element label context).
  assert (Hw : forall p ws,
            parse (source p) = Some (words_re ws, 0%nat) -> ws <> [] ->
            ignoreCase p = false ->
            test p t = existsb (includes t) ws).
  { intros p ws Hp Hne Hic. rewrite (test_words p ws t Hp Hne), Hic.
    apply existsb_same. intros w. apply occurs_exact. }
  rewrite (Hw emailWords ["email"; "mail"; "e-mail"]) by (vm_compute; congruence).
  rewrite (Hw phoneWords ["phone"; "tel"; "telephone"; "mobile"; "cell"; "fax"])
    by (vm_compute; congruence).
  rewrite (Hw nameWords ["name"; "first"; "last"; "full"; "given"; "surname";
                         "fname"; "lname"]) by (vm_compute; congruence).
  rewrite (Hw addressWords ["address"; "street"; "location"; "addr"; "city"; "state";
                            "zip"; "postal"; "country"]) by (vm_compute; congruence).
  rewrite (Hw organizationWords ["company"; "organization"; "institution"; "hospital";
                                 "clinic"; "org"; "dept"; "department"])
    by (vm_compute; congruence).
  rewrite (Hw titleWords ["title"; "position"; "role"; "job"; "profession";
                          "designation"]) by (vm_compute; congruence).
  rewrite (Hw identifierWords ["license"; "id"; "number"; "code"; "tax"; "ein"; "dea";
                               "npi"]) by (vm_compute; congruence).
  rewrite (Hw dateWords ["date"; "birth"; "dob"; "born"; "created"; "updated"])
    by (vm_compute; congruence).
  clear Hw. cbn [existsb]. rewrite !orb_false_r.
  assert (Hpart : forall big small,
            includes big small = true ->
            includes t big = true -> includes t small = true)
    by (intros big small; apply includes_part).
  pose proof (Hpart "email" "mail" eq_refl) as H1.
  pose proof (Hpart "e-mail" "mail" eq_refl) as H2.
  pose proof (Hpart "telephone" "tel" eq_refl) as H3.
  pose proof (Hpart "surname" "name" eq_refl) as H4.
  pose proof (Hpart "fname" "name" eq_refl) as H5.
  pose proof (Hpart "lname" "name" eq_refl) as H6.
  pose proof (Hpart "address" "addr" eq_refl) as H7.
  pose proof (Hpart "organization" "org" eq_refl) as H8.
  pose proof (Hpart "updated" "date" eq_refl) as H10.
  clear Hpart.
  assert (E1 : includes t "email" || (includes t "mail" || includes t "e-mail")
               = includes t "mail").
  { destruct (includes t "email"), (includes t "mail"), (includes t "e-mail");
      try reflexivity; first [now rewrite H1 in * | now rewrite H2 in * |
                              specialize (H1 eq_refl); discriminate |
                              specialize (H2 eq_refl); discriminate]. }
  assert (E2 : includes t "phone" || (includes t "tel" || (includes t "telephone" ||
                 (includes t "mobile" || (includes t "cell" || includes t "fax"))))
               = includes t "phone" || (includes t "tel" ||
                 (includes t "mobile" || (includes t "cell" || includes t "fax")))).
  { destruct (includes t "telephone"); [| reflexivity].
    rewrite (H3 eq_refl). now rewrite !orb_true_r. }
  assert (E3 : includes t "name" || (includes t "first" || (includes t "last" ||
                 (includes t "full" || (includes t "given" || (includes t "surname" ||
                 (includes t "fname" || includes t "lname"))))))
               = includes t "name" || (includes t "first" || (includes t "last" ||
                 (includes t "full" || includes t "given")))).
  { destruct (includes t "name") eqn:N; [reflexivity |].
    destruct (includes t "surname"); [specialize (H4 eq_refl); discriminate |].
    destruct (includes t "fname"); [specialize (H5 eq_refl); discriminate |].
    destruct (includes t "lname"); [specialize (H6 eq_refl); discriminate |].
    now rewrite !orb_false_r. }
  assert (E4 : includes t "address" || (includes t "street" || (includes t "location" ||
                 (includes t "addr" || (includes t "city" || (includes t "state" ||
                 (includes t "zip" || (includes t "postal" || includes t "country")))))))
               = includes t "street" || (includes t "location" ||
                 (includes t "addr" || (includes t "city" || (includes t "state" ||
                 (includes t "zip" || (includes t "postal" || includes t "country"))))))).
  { destruct (includes t "address"); [| reflexivity].
    rewrite (H7 eq_refl). now rewrite !orb_true_r. }
  assert (E5 : includes t "company" || (includes t "organization" ||
                 (includes t "institution" || (includes t "hospital" ||
                 (includes t "clinic" || (includes t "org" || (includes t "dept" ||
                  includes t "department"))))))
               = includes t "company" || (includes t "institution" ||
                 (includes t "hospital" || (includes t "clinic" ||
                 (includes t "org" || (includes t "dept" ||
                  includes t "department")))))).
  { destruct (includes t "organization"); [| reflexivity].
    rewrite (H8 eq_refl). now rewrite !orb_true_r. }
  assert (E6 : includes t "date" || (includes t "birth" || (includes t "dob" ||
                 (includes t "born" || (includes t "created" || includes t "updated"))))
               = includes t "date" || (includes t "birth" || (includes t "dob" ||
                 (includes t "born" || includes t "created")))).
  { destruct (includes t "date") eqn:D; [reflexivity |].
    destruct (includes t "updated"); [specialize (H10 eq_refl); discriminate |].
    now rewrite !orb_false_r. }
  rewrite E1, E2, E3, E4, E5, E6. reflexivity.
Qed.

End Categories.

Section Sensitive.
Import Literals LiteralFacts SecurityManager.

(** X27.  [containsSensitiveData] flags every text in which "password",
    "secret" or "key" occurs in any mix of upper and lower case, also inside
    a longer word; and it flags no blank text. *)
Theorem containsSensitiveData_keywords (text : string) :
  (existsb (includes (toLowerCase text)) ["password"; "secret"; "key"] = true ->
   containsSensitiveData text = true) /\
  (all_chars is_ws text = true -> containsSensitiveData text = false).
Proof.
  split.
  - intros H. unfold containsSensitiveData, sensitivePatterns. cbn [existsb].
    assert (Hw : forall w,
              parse w = Some (words_re [w], 0%nat) -> all_chars is_lower w = true ->
              test (mkRegExp w "i") text = includes (toLowerCase text) w).
    { intros w Hp Hl. rewrite (test_words (mkRegExp w "i") [w] text Hp) by discriminate.
      cbn [existsb]. rewrite orb_false_r. now apply occurs_lower. }
    rewrite (Hw "password"), (Hw "secret"), (Hw "key") by (vm_compute; reflexivity).
    cbn [existsb] in H. rewrite H. now rewrite !orb_true_r.
  - intros Hb. unfold containsSensitiveData.
    apply not_true_is_false. intros H.
    apply existsb_exists in H as (p & Hin & Hp).
    unfold test in Hp. rewrite (BlankText.exec_blank p text) in Hp; [discriminate | |].
    + clear Hp. revert p Hin. apply Forall_forall. unfold sensitivePatterns.
      repeat constructor; vm_compute; reflexivity.
    + exact Hb.
Qed.

End Sensitive.

(** ** Session tokens *)

Module TokenFacts.
Import Literals SecurityManager Notions.

Section ClassLoop.
Variable ic neg : bool.
Variable items : list citem.
Variable gs : list nat.
Variable k : mstate -> option mstate.
Hypothesis k_at_end : forall st, rest st = "" -> found (k st) = true.

(** The greedy loop over one class runs to the end of a text made of
    units of the class. *)
Lemma optional_all (fuel : nat) : forall st,
  all_chars (atom_match ic neg items) (rest st) = true ->
  (length (rest st) <= fuel)%nat ->
  found (optional (m ic (Atom neg items)) gs k fuel None st) = true.
Proof.
  induction fuel as [| fuel IH]; intros st Hall Hlen; cbn [optional].
  - apply k_at_end. destruct (rest st); [reflexivity | simpl in Hlen; lia].
  - cbn [max_is_zero m clear_caps rest caps].
    destruct (rest st) as [| c tl] eqn:E.
    + apply k_at_end. exact E.
    + cbn [all_chars] in Hall. apply andb_true_iff in Hall as [Hc Htl].
      rewrite Hc. cbn [rest].
      assert (Hlt : (length tl <? length (String c tl))%nat = true)
        by (apply Nat.ltb_lt; simpl; lia).
      rewrite Hlt. cbn [dec_max].
      match goal with
      | |- found match ?o with Some x => Some x | None => _ end = true =>
          assert (Ho : found o = true);
          [| destruct o; [reflexivity | discriminate]]
      end.
      apply IH; [exact Htl | simpl in Hlen; cbn [rest]; lia].
Qed.

Lemma required_one_all (st : mstate) :
  rest st <> "" ->
  all_chars (atom_match ic neg items) (rest st) = true ->
  found (required (m ic (Atom neg items)) gs k 1 None st) = true.
Proof.
  intros Hne Hall. cbn [required max_is_zero m clear_caps rest caps].
  destruct (rest st) as [| c tl] eqn:E; [contradiction |].
  cbn [all_chars] in Hall. apply andb_true_iff in Hall as [Hc Htl].
  rewrite Hc. cbn [dec_max rest].
  apply optional_all; [exact Htl | cbn [rest]; lia].
Qed.

(** What the loop has consumed when the continuation is reached belongs
    to the class. *)
Lemma optional_only (fuel : nat) : forall st x,
  optional (m ic (Atom neg items)) gs k fuel None st = Some x ->
  exists a st', rest st = a ++ rest st' /\
                all_chars (atom_match ic neg items) a = true /\ k st' = Some x.
Proof.
  induction fuel as [| fuel IH]; intros st x; cbn [optional].
  - intros H. now exists "", st.
  - cbn [max_is_zero m clear_caps rest caps].
    destruct (rest st) as [| c tl] eqn:E.
    + intros H. exists "", st. now rewrite E.
    + destruct (atom_match ic neg items c) eqn:Hc.
      * cbn [rest dec_max].
        destruct (length tl <? length (String c tl))%nat.
        -- match goal with
           | |- match ?o with Some _ => _ | None => _ end = _ -> _ =>
               destruct o as [y |] eqn:O
           end.
           ++ intros [= ->]. destruct (IH _ _ O) as (a & st' & Ha & Hall & Hk).
              cbn [rest] in Ha. exists (String c a), st'.
              split; [simpl; now rewrite <- Ha | split; [| exact Hk]].
              cbn [all_chars]. now rewrite Hc, Hall.
           ++ intros H. exists "", st. now rewrite E.
        -- intros H. exists "", st. now rewrite E.
      * intros H. exists "", st. now rewrite E.
Qed.

Lemma required_one_only (st x : mstate) :
  required (m ic (Atom neg items)) gs k 1 None st = Some x ->
  exists a st', rest st = a ++ rest st' /\ a <> "" /\
                all_chars (atom_match ic neg items) a = true /\ k st' = Some x.
Proof.
  cbn [required max_is_zero m clear_caps rest caps].
  destruct (rest st) as [| c tl] eqn:E; [discriminate |].
  destruct (atom_match ic neg items c) eqn:Hc; [| discriminate].
  cbn [dec_max rest]. intros O.
  destruct (optional_only _ _ _ O) as (a & st' & Ha & Hall & Hk).
  cbn [rest] in Ha. exists (String c a), st'.
  split; [simpl; now rewrite <- Ha | split; [discriminate | split; [| exact Hk]]].
  cbn [all_chars]. now rewrite Hc, Hall.
Qed.

Lemma atom_step (st : mstate) (cont : mstate -> option mstate) (c : ascii) (tl : string) :
  rest st = String c tl -> atom_match ic neg items c = true ->
  m ic (Atom neg items) (clear_caps gs st) cont =
  cont (mkState (Some c) tl (caps (clear_caps gs st))).
Proof. intros Hr Hc. cbn [m clear_caps rest caps prev]. now rewrite Hr, Hc. Qed.

(** The loop reaches every split of the text whose first part belongs to
    the class: if the continuation succeeds after it, so does the loop. *)
Lemma optional_any (fuel : nat) : forall st a s',
  rest st = a ++ s' ->
  all_chars (atom_match ic neg items) a = true ->
  (length (rest st) <= fuel)%nat ->
  (forall st', rest st' = s' -> found (k st') = true) ->
  found (optional (m ic (Atom neg items)) gs k fuel None st) = true.
Proof.
  induction fuel as [| fuel IH]; intros st a s' Hr Ha Hlen Hk; cbn [optional].
  - apply Hk. destruct (rest st); [| simpl in Hlen; lia].
    destruct a; [now symmetry | discriminate].
  - cbn [max_is_zero].
    destruct a as [| c a].
    + match goal with
      | |- found match ?o with Some x => Some x | None => _ end = true =>
          destruct o as [y |]; [reflexivity |]
      end.
      apply Hk. now symmetry.
    + cbn [all_chars] in Ha. apply andb_true_iff in Ha as [Hc Ha].
      rewrite (atom_step st _ c (a ++ s') Hr Hc). cbn [rest dec_max].
      assert (Hlt : (length (a ++ s') <? length (rest st))%nat = true)
        by (apply Nat.ltb_lt; rewrite Hr; simpl; lia).
      rewrite Hlt.
      match goal with
      | |- found match ?o with Some x => Some x | None => _ end = true =>
          assert (F : found o = true); [| destruct o; [reflexivity | discriminate]]
      end.
      apply (IH _ a s'); [reflexivity | exact Ha | | exact Hk].
      cbn [rest]. rewrite Hr in Hlen. simpl in Hlen. lia.
Qed.

Lemma required_one_any (st : mstate) (a s' : string) :
  rest st = a ++ s' -> a <> "" ->
  all_chars (atom_match ic neg items) a = true ->
  (forall st', rest st' = s' -> found (k st') = true) ->
  found (required (m ic (Atom neg items)) gs k 1 None st) = true.
Proof.
  intros Hr Hne Ha Hk. destruct a as [| c a]; [contradiction |].
  cbn [all_chars] in Ha. apply andb_true_iff in Ha as [Hc Ha].
  cbn [required max_is_zero]. rewrite (atom_step st _ c (a ++ s') Hr Hc).
  cbn [dec_max required rest].
  apply (optional_any _ _ a s'); [reflexivity | exact Ha | cbn [rest]; lia | exact Hk].
Qed.

End ClassLoop.

(** A non-empty text of lower-case hexadecimal digits passes the test of
    the token pattern. *)
Lemma tokenPattern_accepts (token : string) :
  token <> "" -> all_chars is_hex token = true -> test tokenPattern token = true.
Proof.
  intros Hne Hall. unfold test, exec.
  change (parse (source tokenPattern))
    with (Some (Seq Bol (Seq (Rep 1 None (Atom false [CRange "a" "f"; CRange "0" "9"]))
                           (Seq Eol Empty)), 0%nat)).
  change (ignoreCase tokenPattern) with false.
  assert (H : found (m false
                       (Seq Bol (Seq (Rep 1 None (Atom false [CRange "a" "f"; CRange "0" "9"]))
                                   (Seq Eol Empty)))
                       (mkState None token []) Some) = true).
  { cbn [m prev groups_of].
    apply required_one_all.
    - intros st Hst. cbn [m]. now rewrite Hst.
    - exact Hne.
    - cbn [rest].
      assert (Hsame : forall c, is_hex c = true ->
                atom_match false false [CRange "a" "f"; CRange "0" "9"] c = true).
      { intros c Hc. unfold atom_match, set_has. cbn [existsb item_has andb xorb].
        rewrite !orb_false_r. exact Hc. }
      clear Hne. induction token as [| c token IH]; [reflexivity |].
      cbn [all_chars] in *. apply andb_true_iff in Hall as [Hc Ht].
      now rewrite (Hsame c Hc), IH. }
  destruct token as [| c token]; [contradiction |].
  cbn [search]. destruct (m false _ _ Some); [reflexivity | discriminate].
Qed.

(** A pattern that begins with [^] matches nowhere but at the start. *)
Lemma search_anchored ic (r : re) n : forall s c idx,
  search ic (Seq Bol r) n (Some c) s idx = None.
Proof.
  induction s as [| d s IH]; intros c idx; cbn [search m prev]; [reflexivity | apply IH].
Qed.

(** What passes the test of the token pattern is a non-empty text of
    lower-case hexadecimal digits. *)
Lemma tokenPattern_only (token : string) :
  test tokenPattern token = true -> token <> "" /\ all_chars is_hex token = true.
Proof.
  unfold test, exec.
  change (parse (source tokenPattern))
    with (Some (Seq Bol (Seq (Rep 1 None (Atom false [CRange "a" "f"; CRange "0" "9"]))
                           (Seq Eol Empty)), 0%nat)).
  change (ignoreCase tokenPattern) with false.
  intros H.
  assert (Hm : exists x, m false
                 (Seq Bol (Seq (Rep 1 None (Atom false [CRange "a" "f"; CRange "0" "9"]))
                             (Seq Eol Empty)))
                 (mkState None token []) Some = Some x).
  { destruct token as [| c token]; cbn [search] in H.
    - destruct (m false _ _ Some) as [x |]; [now exists x | discriminate].
    - destruct (m false _ _ Some) as [x |]; [now exists x |].
      rewrite search_anchored in H. discriminate. }
  destruct Hm as [x Hm]. cbn [m prev groups_of] in Hm.
  apply required_one_only in Hm as (a & st' & Ha & Hne & Hall & Hk).
  cbn [rest] in Ha. destruct (rest st') eqn:E; [| discriminate].
  rewrite StringFacts.append_nil_r in Ha. subst a.
  split; [exact Hne |].
  assert (Hsame : forall c,
            atom_match false false [CRange "a" "f"; CRange "0" "9"] c = is_hex c).
  { intros c. unfold atom_match, set_has. cbn [existsb item_has andb xorb].
    now rewrite !orb_false_r. }
  clear Hne H. induction token as [| c token IH]; [reflexivity |].
  cbn [all_chars] in *. rewrite Hsame in Hall.
  apply andb_true_iff in Hall as [Hc Ht]. now rewrite Hc, IH.
Qed.

Lemma byte_hex (byte : nat) :
  (byte < 256)%nat ->
  length (padStart2 (toString16 byte)) = 2%nat /\
  all_chars is_hex (padStart2 (toString16 byte)) = true.
Proof.
  intros H.
  assert (Hall : forallb
            (fun b => (length (padStart2 (toString16 b)) =? 2)%nat &&
                      all_chars is_hex (padStart2 (toString16 b)))
            (seq 0 256) = true) by (vm_compute; reflexivity).
  rewrite forallb_forall in Hall.
  specialize (Hall byte (proj2 (in_seq 256 0 byte) ltac:(lia))).
  apply andb_true_iff in Hall as [H1 H2]. apply Nat.eqb_eq in H1. tauto.
Qed.

Lemma all_chars_append (f : ascii -> bool) (a b : string) :
  all_chars f (a ++ b) = all_chars f a && all_chars f b.
Proof.
  induction a as [| c a IH]; simpl; [reflexivity |]. rewrite IH. apply andb_assoc.
Qed.

Lemma join_empty_cons (p : string) (ps : list string) : join "" (p :: ps) = p ++ join "" ps.
Proof.
  destruct ps as [| q ps]; cbn [join].
  - now rewrite StringFacts.append_nil_r.
  - reflexivity.
Qed.

Lemma token_shape (array : list nat) :
  Forall (fun byte => (byte < 256)%nat) array ->
  length (generateSessionToken array) = (2 * List.length array)%nat /\
  all_chars is_hex (generateSessionToken array) = true.
Proof.
  unfold generateSessionToken.
  induction 1 as [| b array Hb _ [IH1 IH2]]; [split; reflexivity |].
  cbn [map]. rewrite join_empty_cons, StringFacts.length_append, all_chars_append.
  destruct (byte_hex b Hb) as [H1 H2]. rewrite H1, H2, IH1, IH2.
  cbn [List.length]. split; [lia | reflexivity].
Qed.

End TokenFacts.

Section Tokens.
Import SecurityManager TokenFacts.

(** X28.  Every token [generateSessionToken] makes passes
    [validateSessionToken], whatever 32 bytes the random generator gives:
    each byte gives two lower-case hexadecimal digits, 64 in all. *)
Theorem validateSessionToken_accepts_generated (array : list nat) :
  List.length array = 32%nat ->
  Forall (fun byte => (byte < 256)%nat) array ->
  validateSessionToken (generateSessionToken array) = true /\
  length (generateSessionToken array) = 64%nat.
Proof.
  intros Hlen Hbytes.
  destruct (token_shape array Hbytes) as [Hl Hh]. rewrite Hlen in Hl.
  split; [| exact Hl].
  unfold validateSessionToken. rewrite Hl. cbn [Nat.eqb andb].
  assert (Hne : generateSessionToken array <> "")
    by (intros E; rewrite E in Hl; discriminate).
  rewrite (tokenPattern_accepts _ Hne Hh).
  destruct (generateSessionToken array); [contradiction | reflexivity].
Qed.

Lemma validateSessionToken_accepts_generated_witness :
  validateSessionToken (generateSessionToken Samples.someBytes) = true /\
  length (generateSessionToken Samples.someBytes) = 64%nat.
Proof.
  apply (validateSessionToken_accepts_generated Samples.someBytes).
  - reflexivity.
  - unfold Samples.someBytes. repeat constructor.
Defined.

(** X29.  [validateSessionToken] accepts exactly the texts of 64 lower-case
    hexadecimal digits: nothing shorter or longer, no upper-case digit and
    no other unit passes. *)
Theorem validateSessionToken_exact (token : string) :
  validateSessionToken token = true <->
  length token = 64%nat /\ all_chars Notions.is_hex token = true.
Proof.
  unfold validateSessionToken. rewrite !andb_true_iff, Nat.eqb_eq. split.
  - intros [[_ Hl] Ht]. split; [exact Hl | apply (tokenPattern_only token Ht)].
  - intros [Hl Hh].
    assert (Hne : token <> "") by (intros E; rewrite E in Hl; discriminate).
    split; [split; [| exact Hl] | now apply tokenPattern_accepts].
    destruct token; [contradiction | reflexivity].
Qed.

End Tokens.

Module EmailFacts.
Import Literals Email.

Lemma plain_class (c : ascii) :
  atom_match false true [CSpace true; CChar "@"] c = is_plain c.
Proof.
  unfold atom_match, set_has, is_plain. cbn [existsb item_has andb xorb].
  rewrite !orb_false_r. destruct (is_ws c); cbn; [reflexivity |].
  now rewrite Ascii.eqb_sym.
Qed.

Lemma plain_all (s : string) :
  all_chars (atom_match false true [CSpace true; CChar "@"]) s = all_chars is_plain s.
Proof.
  induction s as [| c s IH]; cbn [all_chars]; [reflexivity |].
  now rewrite plain_class, IH.
Qed.

Lemma plain_parts (s : string) : plain s = true <-> s <> "" /\ all_chars is_plain s = true.
Proof.
  unfold plain. rewrite andb_true_iff. destruct s; simpl; split; intros [H1 H2];
    try discriminate; try (split; [discriminate || reflexivity | assumption]).
  now contradiction H1.
Qed.

End EmailFacts.

Section Emails.
Import Literals Email EmailFacts TokenFacts.

(** X30.  [isValidEmail] accepts exactly the texts of the form
    local@domain.tld in which the three parts are non-empty and hold neither
    white space nor an at sign (the domain part may hold further dots). *)
Theorem isValidEmail_exact (email : string) :
  isValidEmail email = true <->
  exists local domain tld,
    email = local ++ "@" ++ domain ++ "." ++ tld /\
    plain local = true /\ plain domain = true /\ plain tld = true.
Proof.
  unfold isValidEmail, test, exec.
  set (A := Atom true [CSpace true; CChar "@"]).
  change (parse (source emailRegex))
    with (Some (Seq Bol (Seq (Rep 1 None A) (Seq (lit "@") (Seq (Rep 1 None A)
                  (Seq (lit ".") (Seq (Rep 1 None A) (Seq Eol Empty)))))), 0%nat)).
  change (ignoreCase emailRegex) with false.
  split.
  - intros H.
    assert (Hm : exists x, m false
                   (Seq Bol (Seq (Rep 1 None A) (Seq (lit "@") (Seq (Rep 1 None A)
                      (Seq (lit ".") (Seq (Rep 1 None A) (Seq Eol Empty)))))))
                   (mkState None email []) Some = Some x).
    { destruct email as [| c email]; cbn [search] in H.
      - destruct (m false _ _ Some) as [x |]; [now exists x | discriminate].
      - destruct (m false _ _ Some) as [x |]; [now exists x |].
        rewrite search_anchored in H. discriminate. }
    clear H. destruct Hm as [x Hm]. cbn [m prev groups_of] in Hm. unfold A in Hm.
    apply required_one_only in Hm as (a & st1 & Ha & Hane & Hall & Hk).
    cbn [rest] in Ha. unfold lit in Hk. cbn [m] in Hk.
    destruct (rest st1) as [| c1 r1] eqn:E1; [discriminate |].
    destruct (atom_match false false [CChar "@"] c1) eqn:C1; [| discriminate].
    apply required_one_only in Hk as (b & st2 & Hb & Hbne & Hbll & Hk).
    cbn [rest] in Hb. cbn [m] in Hk.
    destruct (rest st2) as [| c2 r2] eqn:E2; [discriminate |].
    destruct (atom_match false false [CChar "."] c2) eqn:C2; [| discriminate].
    apply required_one_only in Hk as (c & st3 & Hc & Hcne & Hcll & Hk).
    cbn [rest] in Hc. cbn [m] in Hk.
    destruct (rest st3) eqn:E3; [| discriminate].
    rewrite StringFacts.append_nil_r in Hc. subst r2 r1.
    change (atom_match false false [CChar "@"] c1) with (unit_match false "@" c1) in C1.
    change (atom_match false false [CChar "."] c2) with (unit_match false "." c2) in C2.
    rewrite LiteralFacts.unit_match_exact in C1, C2.
    apply Ascii.eqb_eq in C1, C2. subst c1 c2.
    exists a, b, c. rewrite plain_all in Hall, Hbll, Hcll.
    split; [exact Ha | rewrite !plain_parts; tauto].
  - intros (a & b & c & -> & Ha & Hb & Hc).
    apply plain_parts in Ha as [Hane Ha], Hb as [Hbne Hb], Hc as [Hcne Hc].
    rewrite <- plain_all in Ha, Hb, Hc.
    assert (Hm : found (m false
                   (Seq Bol (Seq (Rep 1 None A) (Seq (lit "@") (Seq (Rep 1 None A)
                      (Seq (lit ".") (Seq (Rep 1 None A) (Seq Eol Empty)))))))
                   (mkState None (a ++ "@" ++ b ++ "." ++ c) []) Some) = true).
    { cbn [m prev groups_of]. unfold A.
      apply (required_one_any _ _ _ _ _ _ a ("@" ++ b ++ "." ++ c));
        [reflexivity | exact Hane | exact Ha |].
      intros st1 E1. unfold lit. cbn [m]. rewrite E1. simpl append. cbv iota.
      change (atom_match false false [CChar "@"] "@") with true. cbv iota.
      apply (required_one_any _ _ _ _ _ _ b ("." ++ c));
        [reflexivity | exact Hbne | exact Hb |].
      intros st2 E2. cbn [m]. rewrite E2. simpl append. cbv iota.
      change (atom_match false false [CChar "."] ".") with true. cbv iota.
      apply (required_one_any _ _ _ _ _ _ c "");
        [cbn [rest]; now rewrite StringFacts.append_nil_r | exact Hcne | exact Hc |].
      intros st3 E3. cbn [m]. now rewrite E3. }
    destruct (a ++ "@" ++ b ++ "." ++ c) as [| d s]; cbn [search];
      destruct (m false _ _ Some); try reflexivity; discriminate.
Qed.

End Emails.
